(** * TalentFlow record service: a shallow embedding of [src/services/database.js]

    The development models the Dexie database instance [TalentFlowDB]
    (tables, declared indexes, timestamp hooks) and the static methods of
    [DatabaseService] that run on it, as functions in a state-and-error
    monad over an explicit database value.  Awaited storage calls are the
    atomic steps; a step may be rejected by the storage engine. *)
From Stdlib Require Import ZArith Ascii String List Lia.

From stdpp Require Import base option list gmap strings sorting pretty.

Open Scope string_scope.

Open Scope Z_scope.

(** ** Primary keys

    IndexedDB keys used by the application: numbers (the [++id]
    auto-increment generator) and strings (identifiers supplied by a
    caller). *)
Inductive key : Type :=
  | KNum (n : Z)
  | KStr (s : string).

Global Instance key_eq_dec : EqDecision key.
Proof. solve_decision. Defined.

Definition key_to_sum (k : key) : Z + string :=
  match k with KNum n => inl n | KStr s => inr s end.

Definition key_of_sum (x : Z + string) : key :=
  match x with inl n => KNum n | inr s => KStr s end.

Global Instance key_countable : Countable key.
Proof. apply (inj_countable' key_to_sum key_of_sum). by intros []. Defined.

(** JavaScript truthiness of an identifier: [0] and the empty string are
    falsy. *)
Definition key_truthy (k : key) : bool :=
  match k with
  | KNum n => negb (n =? 0)
  | KStr s => negb (String.eqb s "")
  end.

(** The key order of IndexedDB: every number sorts before every string;
    numbers by value, strings by code unit. *)
Definition key_le (a b : key) : Prop :=
  match a, b with
  | KNum x, KNum y => x ≤ y
  | KNum _, KStr _ => True
  | KStr _, KNum _ => False
  | KStr x, KStr y => String.le x y
  end.

Global Instance key_le_dec : RelDecision key_le.
Proof. intros [x|x] [y|y]; simpl; apply _. Defined.

(** ** Records

    The fields are the ones the service reads or writes.  A reference to
    another record ([jobId], [candidateId], ...) is optional because a
    JavaScript caller may leave it undefined.  Timestamps are the time
    values behind the ISO strings ([toISOString] is injective on them). *)
Record Job : Type := mkJob {
  job_id : option key;
  job_title : string;
  job_slug : string;
  job_description : option string;
  job_tags : list string;
  job_status : string;
  job_order : Z;
  job_createdAt : option Z;
  job_updatedAt : option Z;
}.

Record Candidate : Type := mkCandidate {
  cand_id : option key;
  cand_name : string;
  cand_email : string;
  cand_stage : string;
  cand_jobId : option key;
  cand_createdAt : option Z;
  cand_updatedAt : option Z;
}.

Record Assessment : Type := mkAssessment {
  asm_id : option key;
  asm_jobId : option key;
  asm_title : string;
  asm_createdAt : option Z;
  asm_updatedAt : option Z;
}.

(** Values stored in the opaque [metadata] object of a timeline event. *)
Inductive meta : Type :=
  | MUndefined
  | MStr (s : string)
  | MKey (k : key).

Record TimelineEvent : Type := mkEvent {
  ev_id : option key;
  ev_candidateId : option key;
  ev_type : string;
  ev_title : string;
  ev_description : string;
  ev_metadata : list (string * meta);
  ev_createdAt : option Z;
}.

Record Note : Type := mkNote {
  note_id : option key;
  note_candidateId : option key;
  note_content : string;
  note_createdAt : option Z;
  note_updatedAt : option Z;
}.

Record AssessmentResponse : Type := mkResponse {
  resp_id : option key;
  resp_candidateId : option key;
  resp_assessmentId : option key;
  resp_createdAt : option Z;
}.

Record JobApplication : Type := mkApplication {
  app_id : option key;
  app_candidateId : option key;
  app_jobId : option key;
  app_jobTitle : string;
  app_status : string;
  app_notes : string;
  app_appliedAt : option Z;
  app_updatedAt : option Z;
}.

Global Instance meta_eq_dec : EqDecision meta.
Proof. solve_decision. Defined.

Global Instance Job_eq_dec : EqDecision Job.
Proof. solve_decision. Defined.

Global Instance Candidate_eq_dec : EqDecision Candidate.
Proof. solve_decision. Defined.

Global Instance Assessment_eq_dec : EqDecision Assessment.
Proof. solve_decision. Defined.

Global Instance TimelineEvent_eq_dec : EqDecision TimelineEvent.
Proof. solve_decision. Defined.

Global Instance Note_eq_dec : EqDecision Note.
Proof. solve_decision. Defined.

Global Instance AssessmentResponse_eq_dec : EqDecision AssessmentResponse.
Proof. solve_decision. Defined.

Global Instance JobApplication_eq_dec : EqDecision JobApplication.
Proof. solve_decision. Defined.

(** ** The database instance

    A table is the object store of IndexedDB: rows by primary key, and the
    current value of the [++id] key generator. *)
Record Table (R : Type) : Type := mkTable {
  rows : gmap key R;
  next : Z;
}.

Arguments mkTable {R} _ _.
Arguments rows {R} _.
Arguments next {R} _.

Definition empty_table {R} : Table R := mkTable ∅ 1.

(** The seven tables the service uses ([settings] is declared but never
    touched). *)
Record DB : Type := mkDB {
  jobs : Table Job;
  candidates : Table Candidate;
  assessments : Table Assessment;
  timelineEvents : Table TimelineEvent;
  notes : Table Note;
  assessmentResponses : Table AssessmentResponse;
  jobApplications : Table JobApplication;
}.

Definition empty_db : DB :=
  mkDB empty_table empty_table empty_table empty_table
       empty_table empty_table empty_table.

(** The world a service call runs in: the database, the wall clock
    ([clock n] is what the [n]-th [new Date()] returns), and the storage
    engine's failure plan: [fuse = Some n] lets [n] storage requests
    through and rejects the next one once. *)
Record World : Type := mkWorld {
  db : DB;
  clock : nat → Z;
  reads : nat;
  fuse : option nat;
}.

Definition set_db (d : DB) (w : World) : World :=
  mkWorld d (clock w) (reads w) (fuse w).

Definition set_fuse (f : option nat) (w : World) : World :=
  mkWorld (db w) (clock w) (reads w) f.

(** ** Errors and the service monad *)
Inductive error : Type :=
  | JobNotFound                       (* Error('Job not found') *)
  | AlreadyApplied                    (* Error('Candidate has already applied to this job') *)
  | ApplicationNotFound               (* Error('Application not found') *)
  | SchemaError (table index : string) (* query on an index that is not declared *)
  | ConstraintError                   (* add() on a key that exists *)
  | DataError                         (* a request with an invalid key *)
  | StorageError                      (* the engine rejected the request *)
  | Diverged.                         (* a loop ran out of its step budget *)

Global Instance error_eq_dec : EqDecision error.
Proof. solve_decision. Defined.

Inductive outcome (A : Type) : Type :=
  | Ok (a : A) (w : World)
  | Fail (e : error) (w : World).

Arguments Ok {A} _ _.
Arguments Fail {A} _ _.

Definition M (A : Type) : Type := World → outcome A.

Global Instance M_ret : MRet M := λ A a w, Ok a w.

Global Instance M_bind : MBind M := λ A B f m w,
  match m w with
  | Ok a w' => f a w'
  | Fail e w' => Fail e w'
  end.

Definition throw {A} (e : error) : M A := λ w, Fail e w.

(** Reading the current world. *)
Definition gets {A} (f : World → A) : M A := λ w, Ok (f w) w.

(** The world an outcome ends in, thrown or not. *)
Definition final {A} (o : outcome A) : World :=
  match o with Ok _ w => w | Fail _ w => w end.

(** [new Date()]: the next clock reading. *)
Definition new_Date : M Z := λ w,
  Ok (clock w (reads w)) (mkWorld (db w) (clock w) (S (reads w)) (fuse w)).

(** Every awaited storage request passes the failure plan first. *)
Definition tick : M unit := λ w,
  match fuse w with
  | None => Ok () w
  | Some (S n) => Ok () (set_fuse (Some n) w)
  | Some O => Fail StorageError (set_fuse None w)
  end.

(** [db.transaction('rw', ..., body)]: when the body throws, the writes it
    made are rolled back and the error is rethrown. *)
Definition transaction {A} (body : M A) : M A := λ w,
  match body w with
  | Ok a w' => Ok a w'
  | Fail e w' => Fail e (set_db (db w) w')
  end.

(** ** Table descriptors

    What the constructor of [TalentFlowDB] declares for a table: its name,
    the indexes listed in [stores()], and the [creating]/[updating] hooks;
    together with how the model reaches the table inside [DB], reads the
    inbound key [id] of a row and applies an update object ([P], the empty
    one being [t_nomods]) to a row.

    [t_creating c u obj] is the object after the creating hook assigned the
    clock readings [c] and [u]; [t_updating u mods] is the modifications
    object that the updating hook received, after the hook assigned the
    reading [u] to it. *)
Record TableSpec (R P : Type) : Type := mkSpec {
  t_name : string;
  t_indexes : list string;
  t_view : DB → Table R;
  t_store : Table R → DB → DB;
  t_id : R → option key;
  t_with_id : key → R → R;
  t_patch : P → R → R;
  t_nomods : P;
  t_creating : option (Z → Z → R → R);
  t_updating : option (Z → P → P);
}.

Arguments t_name {R P} _.
Arguments t_indexes {R P} _.
Arguments t_view {R P} _ _.
Arguments t_store {R P} _ _ _.
Arguments t_id {R P} _ _.
Arguments t_with_id {R P} _ _ _.
Arguments t_patch {R P} _ _ _.
Arguments t_nomods {R P} _.
Arguments t_creating {R P} _.
Arguments t_updating {R P} _.

(** ** The storage engine

    The requests of Dexie that the service issues.  Each awaited request
    is one step: it passes the failure plan, and then reads or writes one
    table.  The hooks run inside the write.  The creating hook assigns to
    the object that is stored.  The updating hook assigns to the
    modifications object it is handed, which is a description of the
    change and not what is stored; Dexie applies the modifications that an
    updating hook returns, and the hooks of database.js return nothing. *)
Section engine.
Context {R P : Type} `{!EqDecision R} (T : TableSpec R P).

(** The rows of the table inside a world, and a write of new rows. *)
Definition table_of (w : World) : Table R := t_view T (db w).

Definition write_table (t : Table R) : M unit := λ w,
  Ok () (set_db (t_store T t (db w)) w).

(** The key generator of IndexedDB never hands out a number that is in
    use: it stays above every numeric key that was ever stored. *)
Definition max_num_key (m : gmap key R) : Z :=
  foldr (λ kr acc, match kr.1 with KNum n => Z.max n acc | KStr _ => acc end)
        0 (map_to_list m).

Definition fresh_num (t : Table R) : Z :=
  Z.max (next t) (1 + max_num_key (rows t)).

Definition bump (k : key) (n : Z) : Z :=
  match k with KNum x => Z.max n (x + 1) | KStr _ => n end.

(** Rows in primary-key order, as [toArray()] yields them. *)
Definition entry_le (a b : key * R) : Prop := key_le a.1 b.1.

Global Instance entry_le_dec : RelDecision entry_le.
Proof. intros a b. unfold entry_le. apply _. Defined.

Definition table_list (t : Table R) : list R :=
  snd <$> merge_sort entry_le (map_to_list (rows t)).

(** The creating hook, when one is registered: two clock readings. *)
Definition run_creating (obj : R) : M R :=
  match t_creating T with
  | Some h => c ← new_Date; u ← new_Date; mret (h c u obj)
  | None => mret obj
  end.

(** The updating hook, when one is registered: one clock reading.  What
    the hook assigned, [h u mods], is dropped with the modifications
    object; the hook returns nothing, so nothing is added to the change. *)
Definition run_updating (mods : P) : M unit :=
  match t_updating T with
  | Some h => u ← new_Date; let assigned := h u mods in mret ()
  | None => mret ()
  end.

(** [table.get(key)] *)
Definition tbl_get (k : key) : M (option R) :=
  tick;; gets (λ w, rows (table_of w) !! k).

(** Storing [obj] under a key that is free: the creating hook runs, and
    the generator moves past a numeric key. *)
Definition insert_new (k : key) (obj : R) : M key :=
  obj' ← run_creating obj;
  t ← gets table_of;
  write_table (mkTable (<[k := t_with_id T k obj']> (rows t))
                       (bump k (next t)));;
  mret k.

(** Replacing the row under [k] by [obj]: a replacement is an update, so
    the updating hook runs; the object is stored as it was given. *)
Definition replace_row (k : key) (obj : R) : M key :=
  run_updating (t_nomods T);;
  t ← gets table_of;
  write_table (mkTable (<[k := t_with_id T k obj]> (rows t)) (next t));;
  mret k.

(** [table.add(obj)]: the inbound key of [obj] when it has one (rejected
    when the key exists), a generated number otherwise. *)
Definition tbl_add (obj : R) : M key :=
  tick;;
  t ← gets table_of;
  match t_id T obj with
  | Some k =>
      match rows t !! k with
      | Some _ => throw ConstraintError
      | None => insert_new k obj
      end
  | None => insert_new (KNum (fresh_num t)) obj
  end.

(** [table.put(obj)]: as [add], except that an existing row is
    replaced. *)
Definition tbl_put (obj : R) : M key :=
  tick;;
  t ← gets table_of;
  match t_id T obj with
  | Some k =>
      match rows t !! k with
      | Some _ => replace_row k obj
      | None => insert_new k obj
      end
  | None => insert_new (KNum (fresh_num t)) obj
  end.

(** [table.update(key, mods)]: nothing happens when the key is absent,
    and nothing is written, and no hook runs, when [mods] changes no field
    of the row. *)
Definition tbl_update (k : key) (mods : P) : M unit :=
  tick;;
  t ← gets table_of;
  match rows t !! k with
  | None => mret ()
  | Some r =>
      if decide (t_patch T mods r = r) then mret ()
      else
        run_updating mods;;
        write_table (mkTable (<[k := t_patch T mods r]> (rows t)) (next t))
  end.

(** [table.delete(key)] *)
Definition tbl_delete (k : key) : M unit :=
  tick;;
  t ← gets table_of;
  write_table (mkTable (delete k (rows t)) (next t)).

(** A query names an index; Dexie resolves the name against the declared
    schema and rejects the query when the name is not listed. *)
Definition use_index (idx : string) : M unit :=
  if bool_decide (idx ∈ t_indexes T) then mret ()
  else throw (SchemaError (t_name T) idx).

(** [table.where(idx).equals(v).first()]; [hit] tells which rows carry
    the value [v] under the index. *)
Definition tbl_where_first (idx : string) (hit : R → bool) : M (option R) :=
  tick;; use_index idx;;
  t ← gets table_of;
  mret (head (filter (λ r, hit r = true) (table_list t))).

(** [table.where(idx).equals(v).delete()] *)
Definition tbl_where_delete (idx : string) (hit : R → bool) : M unit :=
  tick;; use_index idx;;
  t ← gets table_of;
  write_table (mkTable (filter (λ kr, hit kr.2 = false) (rows t)) (next t)).

End engine.

(** ** Update objects

    The object handed to [table.update]: a field that is [None] is not
    mentioned by the object and keeps its stored value. *)
Definition patched {A} (new : option A) (old : A) : A := default old new.

Definition patched_opt {A} (new : option A) (old : option A) : option A :=
  match new with Some v => Some v | None => old end.

Record JobPatch : Type := mkJobPatch {
  jp_title : option string;
  jp_slug : option string;
  jp_status : option string;
  jp_order : option Z;
  jp_updatedAt : option Z;
}.

Record CandidatePatch : Type := mkCandidatePatch {
  cp_name : option string;
  cp_email : option string;
  cp_stage : option string;
  cp_jobId : option key;
  cp_updatedAt : option Z;
}.

Record AssessmentPatch : Type := mkAssessmentPatch {
  ap_title : option string;
  ap_updatedAt : option Z;
}.

Record NotePatch : Type := mkNotePatch {
  np_content : option string;
  np_updatedAt : option Z;
}.

Record ApplicationPatch : Type := mkApplicationPatch {
  xp_status : option string;
  xp_notes : option string;
  xp_updatedAt : option Z;
}.

Definition patch_job (p : JobPatch) (j : Job) : Job :=
  mkJob (job_id j) (patched (jp_title p) (job_title j))
        (patched (jp_slug p) (job_slug j)) (job_description j) (job_tags j)
        (patched (jp_status p) (job_status j)) (patched (jp_order p) (job_order j))
        (job_createdAt j) (patched_opt (jp_updatedAt p) (job_updatedAt j)).

Definition patch_candidate (p : CandidatePatch) (c : Candidate) : Candidate :=
  mkCandidate (cand_id c) (patched (cp_name p) (cand_name c))
        (patched (cp_email p) (cand_email c)) (patched (cp_stage p) (cand_stage c))
        (patched_opt (cp_jobId p) (cand_jobId c))
        (cand_createdAt c) (patched_opt (cp_updatedAt p) (cand_updatedAt c)).

Definition patch_assessment (p : AssessmentPatch) (a : Assessment) : Assessment :=
  mkAssessment (asm_id a) (asm_jobId a) (patched (ap_title p) (asm_title a))
        (asm_createdAt a) (patched_opt (ap_updatedAt p) (asm_updatedAt a)).

Definition patch_note (p : NotePatch) (n : Note) : Note :=
  mkNote (note_id n) (note_candidateId n) (patched (np_content p) (note_content n))
        (note_createdAt n) (patched_opt (np_updatedAt p) (note_updatedAt n)).

Definition patch_application (p : ApplicationPatch) (a : JobApplication) : JobApplication :=
  mkApplication (app_id a) (app_candidateId a) (app_jobId a) (app_jobTitle a)
        (patched (xp_status p) (app_status a)) (patched (xp_notes p) (app_notes a))
        (app_appliedAt a) (patched_opt (xp_updatedAt p) (app_updatedAt a)).

(** ** The constructor of [TalentFlowDB]

    Index lists are the [stores()] declaration (database.js:16-25); the
    hooks are the ones registered at database.js:27-62, on [jobs],
    [candidates], [assessments] and [notes] only. *)
(** [obj.createdAt = now; obj.updatedAt = now] *)
Definition job_creating (c u : Z) (j : Job) : Job :=
  mkJob (job_id j) (job_title j) (job_slug j) (job_description j) (job_tags j)
        (job_status j) (job_order j) (Some c) (Some u).

(** [modifications.updatedAt = now] *)
Definition job_updating (u : Z) (p : JobPatch) : JobPatch :=
  mkJobPatch (jp_title p) (jp_slug p) (jp_status p) (jp_order p) (Some u).

Definition candidate_creating (c u : Z) (x : Candidate) : Candidate :=
  mkCandidate (cand_id x) (cand_name x) (cand_email x) (cand_stage x)
              (cand_jobId x) (Some c) (Some u).

Definition candidate_updating (u : Z) (p : CandidatePatch) : CandidatePatch :=
  mkCandidatePatch (cp_name p) (cp_email p) (cp_stage p) (cp_jobId p) (Some u).

Definition assessment_creating (c u : Z) (a : Assessment) : Assessment :=
  mkAssessment (asm_id a) (asm_jobId a) (asm_title a) (Some c) (Some u).

Definition assessment_updating (u : Z) (p : AssessmentPatch) : AssessmentPatch :=
  mkAssessmentPatch (ap_title p) (Some u).

Definition note_creating (c u : Z) (n : Note) : Note :=
  mkNote (note_id n) (note_candidateId n) (note_content n) (Some c) (Some u).

Definition note_updating (u : Z) (p : NotePatch) : NotePatch :=
  mkNotePatch (np_content p) (Some u).

Definition T_jobs : TableSpec Job JobPatch :=
  mkSpec Job JobPatch "jobs"
    ["id"; "title"; "slug"; "status"; "order"; "createdAt"; "updatedAt"]
    jobs
    (λ t d, mkDB t (candidates d) (assessments d) (timelineEvents d) (notes d)
                 (assessmentResponses d) (jobApplications d))
    job_id
    (λ k j, mkJob (Some k) (job_title j) (job_slug j) (job_description j)
                  (job_tags j) (job_status j) (job_order j)
                  (job_createdAt j) (job_updatedAt j))
    patch_job (mkJobPatch None None None None None)
    (Some job_creating) (Some job_updating).

Definition T_candidates : TableSpec Candidate CandidatePatch :=
  mkSpec Candidate CandidatePatch "candidates"
    ["id"; "name"; "email"; "stage"; "jobId"; "createdAt"; "updatedAt"]
    candidates
    (λ t d, mkDB (jobs d) t (assessments d) (timelineEvents d) (notes d)
                 (assessmentResponses d) (jobApplications d))
    cand_id
    (λ k c, mkCandidate (Some k) (cand_name c) (cand_email c) (cand_stage c)
                        (cand_jobId c) (cand_createdAt c) (cand_updatedAt c))
    patch_candidate (mkCandidatePatch None None None None None)
    (Some candidate_creating) (Some candidate_updating).

Definition T_assessments : TableSpec Assessment AssessmentPatch :=
  mkSpec Assessment AssessmentPatch "assessments"
    ["id"; "jobId"; "title"; "createdAt"; "updatedAt"]
    assessments
    (λ t d, mkDB (jobs d) (candidates d) t (timelineEvents d) (notes d)
                 (assessmentResponses d) (jobApplications d))
    asm_id
    (λ k a, mkAssessment (Some k) (asm_jobId a) (asm_title a)
                         (asm_createdAt a) (asm_updatedAt a))
    patch_assessment (mkAssessmentPatch None None)
    (Some assessment_creating) (Some assessment_updating).

Definition T_timelineEvents : TableSpec TimelineEvent unit :=
  mkSpec TimelineEvent unit "timelineEvents"
    ["id"; "candidateId"; "type"; "createdAt"]
    timelineEvents
    (λ t d, mkDB (jobs d) (candidates d) (assessments d) t (notes d)
                 (assessmentResponses d) (jobApplications d))
    ev_id
    (λ k e, mkEvent (Some k) (ev_candidateId e) (ev_type e) (ev_title e)
                    (ev_description e) (ev_metadata e) (ev_createdAt e))
    (λ _ e, e) ()
    None None.

Definition T_notes : TableSpec Note NotePatch :=
  mkSpec Note NotePatch "notes"
    ["id"; "candidateId"; "createdAt"; "updatedAt"]
    notes
    (λ t d, mkDB (jobs d) (candidates d) (assessments d) (timelineEvents d) t
                 (assessmentResponses d) (jobApplications d))
    note_id
    (λ k n, mkNote (Some k) (note_candidateId n) (note_content n)
                   (note_createdAt n) (note_updatedAt n))
    patch_note (mkNotePatch None None)
    (Some note_creating) (Some note_updating).

Definition T_assessmentResponses : TableSpec AssessmentResponse unit :=
  mkSpec AssessmentResponse unit "assessmentResponses"
    ["id"; "candidateId"; "assessmentId"; "createdAt"]
    assessmentResponses
    (λ t d, mkDB (jobs d) (candidates d) (assessments d) (timelineEvents d) (notes d)
                 t (jobApplications d))
    resp_id
    (λ k r, mkResponse (Some k) (resp_candidateId r) (resp_assessmentId r)
                       (resp_createdAt r))
    (λ _ r, r) ()
    None None.

Definition T_jobApplications : TableSpec JobApplication ApplicationPatch :=
  mkSpec JobApplication ApplicationPatch "jobApplications"
    ["id"; "candidateId"; "jobId"; "status"; "appliedAt"; "updatedAt"]
    jobApplications
    (λ t d, mkDB (jobs d) (candidates d) (assessments d) (timelineEvents d) (notes d)
                 (assessmentResponses d) t)
    app_id
    (λ k a, mkApplication (Some k) (app_candidateId a) (app_jobId a) (app_jobTitle a)
                          (app_status a) (app_notes a) (app_appliedAt a) (app_updatedAt a))
    patch_application (mkApplicationPatch None None None)
    None None.

(** ** JavaScript values and string helpers *)
(** Truthiness of a string and of a number. *)
Definition truthy_str (s : string) : bool := negb (String.eqb s "").

Definition truthy_num (n : Z) : bool := negb (n =? 0).

(** Characters are bytes; the model covers ASCII text, where
    [toLowerCase] touches [A-Z] only and [\s] is tab, line feed, vertical
    tab, form feed, carriage return and space. *)
Definition lower_ascii (c : ascii) : ascii :=
  let n := nat_of_ascii c in
  if ((65 <=? n) && (n <=? 90))%nat then ascii_of_nat (n + 32) else c.

Fixpoint toLowerCase (s : string) : string :=
  match s with
  | EmptyString => EmptyString
  | String c s' => String (lower_ascii c) (toLowerCase s')
  end.

Definition is_space (c : ascii) : bool :=
  let n := nat_of_ascii c in
  (((9 <=? n) && (n <=? 13)) || (n =? 32))%nat.

Definition is_hyphen (c : ascii) : bool := (nat_of_ascii c =? 45)%nat.

Definition is_lower_alnum (c : ascii) : bool :=
  let n := nat_of_ascii c in
  (((97 <=? n) && (n <=? 122)) || ((48 <=? n) && (n <=? 57)))%nat.

Definition is_digit (c : ascii) : bool :=
  let n := nat_of_ascii c in ((48 <=? n) && (n <=? 57))%nat.

(** [s.replace(/[^...]/g, '')]: keep the characters of the class. *)
Fixpoint keep_chars (p : ascii → bool) (s : string) : string :=
  match s with
  | EmptyString => EmptyString
  | String c s' => if p c then String c (keep_chars p s') else keep_chars p s'
  end.

(** [s.replace(/C+/g, r)]: every maximal run of characters of the class
    becomes one [r]; [inside] tells that the previous character was in a
    run. *)
Fixpoint replace_runs (p : ascii → bool) (r : ascii) (inside : bool) (s : string) : string :=
  match s with
  | EmptyString => EmptyString
  | String c s' =>
      if p c then
        if inside then replace_runs p r true s'
        else String r (replace_runs p r true s')
      else String c (replace_runs p r false s')
  end.

(** [s.trim()]: white space off both ends.  [String.prototype.trim] takes
    no argument, so the ['-'] passed at database.js:192 has no effect. *)
Fixpoint trim_start (s : string) : string :=
  match s with
  | EmptyString => EmptyString
  | String c s' => if is_space c then trim_start s' else s
  end.

Definition js_trim (s : string) : string :=
  String.rev (trim_start (String.rev (trim_start s))).

(** [s.includes(sub)] *)
Fixpoint includes (s sub : string) : bool :=
  if String.prefix sub s then true
  else match s with
       | EmptyString => false
       | String _ s' => includes s' sub
       end.

(** [arr.slice(start, end)] with the index clamping of JavaScript. *)
Definition clamp_index (len i : Z) : Z :=
  if i <? 0 then Z.max (len + i) 0 else Z.min i len.

Definition js_slice {A} (l : list A) (start stop : Z) : list A :=
  let len := Z.of_nat (length l) in
  let s := clamp_index len start in
  let e := clamp_index len stop in
  take (Z.to_nat (e - s)) (drop (Z.to_nat s) l).

(** [Math.ceil(a / b)] on integers, [b] not zero. *)
Definition ceil_div (a b : Z) : Z := - ((- a) `div` b).

(** ** The factories of [src/types] *)
(** Modelled from the spec: the factory functions [createJob],
    [createCandidate], [createAssessment], [createTimelineEvent],
    [createNote] and [createJobApplication] of [src/types], which is not
    among the source files.  Spec 4.1: a factory returns the record with
    defaults filled in for omitted fields (empty lists and strings, default
    enum values), never throws and has no side effect; spec 3: time stamps
    are not written by the factory, and the identifier is the caller's when
    one is supplied and otherwise assigned by the store (an identifier that
    a factory generates plays the part of one the caller supplied).  An
    omitted string is the empty string here, so only the enum defaults
    show. *)
Definition or_default (d s : string) : string := if truthy_str s then s else d.

Definition createJob_factory (data : Job) : Job :=
  mkJob (job_id data) (job_title data) (job_slug data) (job_description data)
        (job_tags data) (or_default "active" (job_status data)) (job_order data)
        (job_createdAt data) (job_updatedAt data).

Definition createCandidate_factory (data : Candidate) : Candidate :=
  mkCandidate (cand_id data) (cand_name data) (cand_email data)
        (or_default "applied" (cand_stage data)) (cand_jobId data)
        (cand_createdAt data) (cand_updatedAt data).

Definition createAssessment_factory (data : Assessment) : Assessment := data.

Definition createTimelineEvent_factory (data : TimelineEvent) : TimelineEvent := data.

Definition createNote_factory (data : Note) : Note := data.

Definition createJobApplication_factory (data : JobApplication) : JobApplication :=
  mkApplication (app_id data) (app_candidateId data) (app_jobId data)
        (app_jobTitle data) (or_default "applied" (app_status data))
        (app_notes data) (app_appliedAt data) (app_updatedAt data).

(** ** DatabaseService: jobs *)
(** [db.jobs.orderBy('order').toArray()]: by the [order] index, rows with
    equal [order] by primary key. *)
Definition job_entry_le (a b : key * Job) : Prop :=
  job_order a.2 < job_order b.2 ∨ (job_order a.2 = job_order b.2 ∧ key_le a.1 b.1).

Global Instance job_entry_le_dec : RelDecision job_entry_le.
Proof. intros a b. unfold job_entry_le. apply _. Defined.

Definition ordered_jobs (t : Table Job) : list Job :=
  snd <$> merge_sort job_entry_le (map_to_list (rows t)).

Definition jobs_orderBy_order : M (list Job) :=
  tick;; use_index T_jobs "order";;
  t ← gets (table_of T_jobs);
  mret (ordered_jobs t).

(** The [filters] argument of [getJobs]; an option that is left out is the
    empty string, the empty list or [None]. *)
Record JobFilters : Type := mkFilters {
  f_status : string;
  f_tags : list string;
  f_search : string;
  f_page : option Z;
  f_pageSize : option Z;
}.

(** The three [query.filter] predicates of database.js:76-93, combined. *)
Definition job_matches (f : JobFilters) (j : Job) : bool :=
  (if truthy_str (f_status f) then String.eqb (job_status j) (f_status f) else true)
  && (match f_tags f with
      | [] => true
      | _ => existsb (λ tag, bool_decide (tag ∈ job_tags j)) (f_tags f)
      end)
  && (if truthy_str (f_search f) then
        let searchTerm := toLowerCase (f_search f) in
        includes (toLowerCase (job_title j)) searchTerm
        || match job_description j with
           | Some d => includes (toLowerCase d) searchTerm
           | None => false
           end
        || existsb (λ tag, includes (toLowerCase tag) searchTerm) (job_tags j)
      else true).

Record Pagination : Type := mkPagination {
  pg_page : Z;
  pg_pageSize : Z;
  pg_total : Z;
  pg_totalPages : Z;
  pg_hasMore : bool;
}.

(** What [getJobs] returns: the array, or the object
    [{ data, pagination: { page, pageSize, total, totalPages, hasMore } }]. *)
Inductive JobsResult : Type :=
  | JobList (l : list Job)
  | JobPage (data : list Job) (pagination : Pagination).

(** The own property names of the returned page object, outermost level
    (database.js:102-111); an array has none of them. *)
Definition page_keys (r : JobsResult) : list string :=
  match r with
  | JobList _ => []
  | JobPage _ _ => ["data"; "pagination"]
  end.

Definition getJobs (filters : JobFilters) : M JobsResult :=
  all ← jobs_orderBy_order;
  let jobs := filter (λ j, job_matches filters j = true) all in
  match f_page filters, f_pageSize filters with
  | Some page, Some pageSize =>
      if truthy_num page && truthy_num pageSize then
        let offset := (page - 1) * pageSize in
        let total := Z.of_nat (length jobs) in
        mret (JobPage (js_slice jobs offset (offset + pageSize))
                      (mkPagination page pageSize total (ceil_div total pageSize)
                                    (offset + pageSize <? total)))
      else mret (JobList jobs)
  | _, _ => mret (JobList jobs)
  end.

(** [isSlugUnique(slug, excludeId = null)] *)
Definition isSlugUnique (slug : string) (excludeId : option key) : M bool :=
  existingJob ← tbl_where_first T_jobs "slug" (λ j, String.eqb (job_slug j) slug);
  mret (match existingJob with
        | None => true
        | Some j =>
            match excludeId with
            | None => false
            | Some e => bool_decide (job_id j = Some e)
            end
        end).

(** [generateSlug(title)] *)
Definition generateSlug (title : string) : string :=
  js_trim
    (replace_runs is_hyphen "-" false
       (replace_runs is_space "-" false
          (keep_chars (λ c, is_lower_alnum c || is_space c || is_hyphen c)
             (toLowerCase title)))).

(** The [while] loop of [createJob] (database.js:160-163).  The source
    puts no bound on it; the model runs it for at most [budget] probes and
    reports [Diverged] beyond. *)
Fixpoint probe_slug (budget : nat) (baseSlug : string) (counter : N) (slug : string) : M string :=
  match budget with
  | O => throw Diverged
  | S budget' =>
      free ← isSlugUnique slug None;
      if (free : bool) then mret slug
      else probe_slug budget' baseSlug (counter + 1)%N (baseSlug +:+ "-" +:+ pretty counter)
  end.

Definition with_slug (slug : string) (j : Job) : Job :=
  mkJob (job_id j) (job_title j) slug (job_description j) (job_tags j)
        (job_status j) (job_order j) (job_createdAt j) (job_updatedAt j).

(** [put] when the object carries a truthy id, [add] otherwise
    (database.js:170-177, and the same in [createCandidate] and
    [createAssessment]). *)
Definition put_or_add {R P} (T : TableSpec R P) (obj : R) : M key :=
  match t_id T obj with
  | Some k => if key_truthy k then tbl_put T obj else tbl_add T obj
  | None => tbl_add T obj
  end.

(** [createJob(jobData)]; the probe budget is the number of stored jobs
    plus two. *)
Definition createJob (jobData : Job) : M Job :=
  let slug0 :=
    if negb (truthy_str (job_slug jobData)) && truthy_str (job_title jobData)
    then generateSlug (job_title jobData) else job_slug jobData in
  slug ← (if truthy_str slug0 then
            t ← gets (table_of T_jobs);
            probe_slug (2 + size (rows t)) slug0 1%N slug0
          else mret slug0);
  let job := createJob_factory (with_slug slug jobData) in
  id ← put_or_add T_jobs job;
  mret (t_with_id T_jobs id job).

(** [deleteJob(id)] *)
Definition deleteJob (id : key) : M unit :=
  tbl_delete T_jobs id;;
  tbl_where_delete T_candidates "jobId" (λ c, bool_decide (cand_jobId c = Some id));;
  tbl_where_delete T_assessments "jobId" (λ a, bool_decide (asm_jobId a = Some id)).

(** [db.jobs.update(job.id, ...)] on an object read from the table; an
    undefined [id] is not a valid key. *)
Definition update_job_of (j : Job) (mods : JobPatch) : M unit :=
  match job_id j with
  | Some k => tbl_update T_jobs k mods
  | None => throw DataError
  end.

Definition order_patch (o : Z) : JobPatch := mkJobPatch None None None (Some o) None.

(** [reorderJobs(fromOrder, toOrder)] *)
Definition reorderJobs (fromOrder toOrder : Z) : M (list Job) :=
  transaction (
    jobs ← jobs_orderBy_order;
    let fromJob := List.find (λ j, job_order j =? fromOrder) jobs in
    let toJob := List.find (λ j, job_order j =? toOrder) jobs in
    match fromJob, toJob with
    | Some f, Some t =>
        update_job_of f (order_patch toOrder);;
        update_job_of t (order_patch fromOrder)
    | _, _ => mret ()
    end;;
    jobs_orderBy_order).

(** ** DatabaseService: timeline events, candidates, notes, assessments *)
(** [createTimelineEvent(eventData)] *)
Definition createTimelineEvent (eventData : TimelineEvent) : M TimelineEvent :=
  let event := createTimelineEvent_factory eventData in
  id ← tbl_add T_timelineEvents event;
  mret (t_with_id T_timelineEvents id event).

(** The object literal of database.js:312-318. *)
Definition submitted_event (id : key) (stage : string) : TimelineEvent :=
  mkEvent None (Some id) "stage_change" "Application Submitted"
          "Candidate applied for the position" [("stage", MStr stage)] None.

(** [createCandidate(candidateData)] *)
Definition createCandidate (candidateData : Candidate) : M Candidate :=
  let candidate := createCandidate_factory candidateData in
  id ← put_or_add T_candidates candidate;
  createTimelineEvent (submitted_event id (cand_stage candidate));;
  mret (t_with_id T_candidates id candidate).

(** [oldCandidate?.stage], and how a template literal prints it. *)
Definition stage_of (old : option Candidate) : option string := cand_stage <$> old.

Definition show_stage (s : option string) : string := default "undefined" s.

Definition meta_stage (s : option string) : meta :=
  match s with Some x => MStr x | None => MUndefined end.

(** The object literal of database.js:334-343. *)
Definition stage_event (id : key) (fromStage : option string) (toStage : string) : TimelineEvent :=
  mkEvent None (Some id) "stage_change"
          ("Stage Changed to " +:+ toStage)
          ("Candidate moved from " +:+ show_stage fromStage +:+ " to " +:+ toStage)
          [("fromStage", meta_stage fromStage); ("toStage", MStr toStage)] None.

(** The test [updates.stage && updates.stage !== oldCandidate?.stage]. *)
Definition stage_changes (updates : CandidatePatch) (old : option Candidate) : option string :=
  match cp_stage updates with
  | Some s =>
      if truthy_str s && negb (bool_decide (Some s = stage_of old)) then Some s else None
  | None => None
  end.

(** [updateCandidate(id, updates)] *)
Definition updateCandidate (id : key) (updates : CandidatePatch) : M (option Candidate) :=
  oldCandidate ← tbl_get T_candidates id;
  tbl_update T_candidates id updates;;
  match stage_changes updates oldCandidate with
  | Some s => createTimelineEvent (stage_event id (stage_of oldCandidate) s);; mret ()
  | None => mret ()
  end;;
  tbl_get T_candidates id.

(** [deleteCandidate(id)] *)
Definition deleteCandidate (id : key) : M unit :=
  tbl_delete T_candidates id;;
  tbl_where_delete T_timelineEvents "candidateId"
    (λ e, bool_decide (ev_candidateId e = Some id));;
  tbl_where_delete T_notes "candidateId"
    (λ n, bool_decide (note_candidateId n = Some id));;
  tbl_where_delete T_assessmentResponses "candidateId"
    (λ r, bool_decide (resp_candidateId r = Some id)).

(** [createNote(noteData)] *)
Definition createNote (noteData : Note) : M Note :=
  let note := createNote_factory noteData in
  id ← tbl_add T_notes note;
  createTimelineEvent
    (mkEvent None (note_candidateId noteData) "note_added" "Note Added"
             "A new note was added to the candidate" [("noteId", MKey id)] None);;
  mret (t_with_id T_notes id note).

(** [createAssessment(assessmentData)] *)
Definition createAssessment (assessmentData : Assessment) : M Assessment :=
  let assessment := createAssessment_factory assessmentData in
  id ← put_or_add T_assessments assessment;
  mret (t_with_id T_assessments id assessment).

(** ** DatabaseService: job applications *)
Definition meta_key (k : option key) : meta :=
  match k with Some x => MKey x | None => MUndefined end.

(** [createJobApplication(applicationData)] *)
Definition createJobApplication (applicationData : JobApplication) : M JobApplication :=
  let application := createJobApplication_factory applicationData in
  id ← tbl_add T_jobApplications application;
  createTimelineEvent
    (mkEvent None (app_candidateId applicationData) "job_application"
             ("Applied for " +:+ app_jobTitle applicationData)
             ("Candidate applied for the " +:+ app_jobTitle applicationData +:+ " position")
             [("jobId", meta_key (app_jobId applicationData));
              ("applicationId", MKey id);
              ("status", MStr (app_status applicationData))]
             None);;
  mret (t_with_id T_jobApplications id application).

(** [updateJobApplication(id, updates)] *)
Definition updateJobApplication (id : key) (updates : ApplicationPatch) : M (option JobApplication) :=
  tbl_update T_jobApplications id updates;;
  tbl_get T_jobApplications id.

(** Rows of [jobApplications] for the pair [[candidateId, jobId]]. *)
Definition same_pair (candidateId jobId : key) (a : JobApplication) : bool :=
  bool_decide (app_candidateId a = Some candidateId)
  && bool_decide (app_jobId a = Some jobId).

(** A table descriptor with another list of declared indexes. *)
Definition declaring {R P} (indexes : list string) (T : TableSpec R P) : TableSpec R P :=
  mkSpec R P (t_name T) indexes (t_view T) (t_store T) (t_id T) (t_with_id T)
         (t_patch T) (t_nomods T) (t_creating T) (t_updating T).

(** [applyCandidateToJob(candidateId, jobId)], over the list of indexes
    that the schema declares for [jobApplications]. *)
Definition applyCandidateToJob_on (declared : list string)
    (candidateId jobId : key) : M JobApplication :=
  job ← tbl_get T_jobs jobId;
  match job with
  | None => throw JobNotFound
  | Some job =>
      existingApplication ←
        tbl_where_first (declaring declared T_jobApplications)
                        "[candidateId+jobId]" (same_pair candidateId jobId);
      match existingApplication with
      | Some _ => throw AlreadyApplied
      | None =>
          createJobApplication
            (mkApplication None (Some candidateId) (Some jobId) (job_title job)
                           "applied" "" None None)
      end
  end.

(** The method as the program runs it: on the schema that the constructor
    of [TalentFlowDB] declares. *)
Definition applyCandidateToJob : key → key → M JobApplication :=
  applyCandidateToJob_on (t_indexes T_jobApplications).

(** [updateJobApplicationStatus(applicationId, newStatus, notes = '')] *)
Definition updateJobApplicationStatus (applicationId : key) (newStatus notes : string)
    : M (option JobApplication) :=
  application ← tbl_get T_jobApplications applicationId;
  match application with
  | None => throw ApplicationNotFound
  | Some application =>
      let oldStatus := app_status application in
      now ← new_Date;
      updateJobApplication applicationId
        (mkApplicationPatch (Some newStatus)
           (Some (if truthy_str notes then notes else app_notes application))
           (Some now));;
      createTimelineEvent
        (mkEvent None (app_candidateId application) "status_change"
                 ("Status changed to " +:+ newStatus)
                 ("Application status changed from " +:+ oldStatus +:+ " to " +:+ newStatus)
                 [("jobId", meta_key (app_jobId application));
                  ("applicationId", MKey applicationId);
                  ("oldStatus", MStr oldStatus);
                  ("newStatus", MStr newStatus);
                  ("notes", MStr notes)]
                 None);;
      tbl_get T_jobApplications applicationId
  end.

(** * Vocabulary of the properties *)

(** ** Worlds to run the model in *)

(** A world with the given database, a clock that reads [100 + n] at its
    [n]-th reading, and a storage engine that rejects nothing. *)
Definition world_of (d : DB) : World := mkWorld d (λ n, 100 + Z.of_nat n) 0 None.

(** The same world with the [n+1]-th storage request rejected. *)
Definition failing_at (n : nat) (d : DB) : World :=
  mkWorld d (λ n, 100 + Z.of_nat n) 0 (Some n).

(** A storage request is atomic: it either fails and leaves the database
    as it was, or succeeds with the effect [R]. *)
Definition step {A} (m : M A) (R : DB → A → DB → Prop) : Prop :=
  ∀ w, match m w with
       | Ok a w' => R (db w) a (db w')
       | Fail _ w' => db w' = db w
       end.

(** ** Effects of single requests

    The database and the world after a request went through, written as
    functions of the database and the world before it. *)
Section effects.
Context {R P : Type} `{!EqDecision R} (T : TableSpec R P).

Definition db_delete (k : key) (d : DB) : DB :=
  t_store T (mkTable (delete k (rows (t_view T d))) (next (t_view T d))) d.

Definition db_where_delete (hit : R → bool) (d : DB) : DB :=
  t_store T (mkTable (filter (λ kr, hit kr.2 = false) (rows (t_view T d)))
                     (next (t_view T d))) d.

Definition db_insert (k : key) (obj : R) (d : DB) : DB :=
  t_store T (mkTable (<[k := t_with_id T k obj]> (rows (t_view T d)))
                     (bump k (next (t_view T d)))) d.

Definition db_set (k : key) (r : R) (d : DB) : DB :=
  t_store T (mkTable (<[k := r]> (rows (t_view T d))) (next (t_view T d))) d.

(** The object after the creating hook, when the hook starts at world
    [w]. *)
Definition creating_at (w : World) (obj : R) : R :=
  match t_creating T with
  | Some h => h (clock w (reads w)) (clock w (S (reads w))) obj
  | None => obj
  end.

Definition after_reads (n : nat) (w : World) : World :=
  mkWorld (db w) (clock w) (n + reads w) (fuse w).

Definition creating_reads : nat :=
  match t_creating T with Some _ => 2%nat | None => 0%nat end.

Definition updating_reads : nat :=
  match t_updating T with Some _ => 1%nat | None => 0%nat end.

(** The world after [obj] was stored under the free key [k]. *)
Definition inserted (k : key) (obj : R) (w : World) : World :=
  set_db (db_insert k (creating_at w obj) (db w)) (after_reads creating_reads w).

(** What [add] does once its request has passed the failure plan. *)
Definition added (obj : R) (w : World) : outcome key :=
  match t_id T obj with
  | Some k =>
      match rows (t_view T (db w)) !! k with
      | Some _ => Fail ConstraintError w
      | None => Ok k (inserted k obj w)
      end
  | None =>
      Ok (KNum (fresh_num (t_view T (db w))))
         (inserted (KNum (fresh_num (t_view T (db w)))) obj w)
  end.

(** The world after the row under [k] was replaced by [obj]. *)
Definition replaced (k : key) (obj : R) (w : World) : World :=
  set_db (db_set k (t_with_id T k obj) (db w)) (after_reads updating_reads w).

Definition was_put (obj : R) (w : World) : outcome key :=
  match t_id T obj with
  | Some k =>
      match rows (t_view T (db w)) !! k with
      | Some _ => Ok k (replaced k obj w)
      | None => Ok k (inserted k obj w)
      end
  | None =>
      Ok (KNum (fresh_num (t_view T (db w))))
         (inserted (KNum (fresh_num (t_view T (db w)))) obj w)
  end.

(** The world after [update(k, mods)] passed the failure plan. *)
Definition was_updated (k : key) (mods : P) (w : World) : World :=
  match rows (t_view T (db w)) !! k with
  | None => w
  | Some r =>
      if decide (t_patch T mods r = r) then w
      else set_db (db_set k (t_patch T mods r) (db w)) (after_reads updating_reads w)
  end.

End effects.

(** ** Sample stores *)

(** A store with one job, one candidate and one assessment of that job. *)
Definition one_job_store : DB :=
  mkDB (mkTable {[ KNum 1 := mkJob (Some (KNum 1)) "Backend Engineer" "backend-engineer"
                                    None [] "active" 1 (Some 10) (Some 10) ]} 2)
       (mkTable {[ KNum 10 := mkCandidate (Some (KNum 10)) "Ada" "ada@example.com"
                                    "applied" (Some (KNum 1)) (Some 11) (Some 11) ]} 11)
       (mkTable {[ KNum 20 := mkAssessment (Some (KNum 20)) (Some (KNum 1)) "Quiz"
                                    (Some 12) (Some 12) ]} 21)
       empty_table empty_table empty_table empty_table.

(** A store with one candidate who has one event, one note, one
    assessment response and one job application. *)
Definition one_candidate_store : DB :=
  mkDB empty_table
       (mkTable {[ KNum 1 := mkCandidate (Some (KNum 1)) "Ada" "ada@example.com"
                                   "applied" None (Some 11) (Some 11) ]} 2)
       empty_table
       (mkTable {[ KNum 1 := submitted_event (KNum 1) "applied" ]} 2)
       (mkTable {[ KNum 1 := mkNote (Some (KNum 1)) (Some (KNum 1)) "call back"
                                   (Some 12) (Some 12) ]} 2)
       (mkTable {[ KNum 1 := mkResponse (Some (KNum 1)) (Some (KNum 1)) (Some (KNum 3))
                                   (Some 13) ]} 2)
       (mkTable {[ KNum 5 := mkApplication (Some (KNum 5)) (Some (KNum 1)) (Some (KNum 9))
                                   "Backend Engineer" "applied" "" (Some 14) (Some 14) ]} 6).

(** ** Pairs of candidate and job *)

(** At most one row of [jobApplications] per pair [(candidateId, jobId)]. *)
Definition pairs_unique (t : Table JobApplication) : Prop :=
  ∀ c j k1 k2 a1 a2,
    rows t !! k1 = Some a1 → rows t !! k2 = Some a2 →
    same_pair c j a1 = true → same_pair c j a2 = true → k1 = k2.

Definition unique_pairs (d : DB) : Prop := pairs_unique (jobApplications d).

(** No stored application has the pair of [a]. *)
Definition pair_free (a : JobApplication) (d : DB) : Prop :=
  ∀ c j k r, same_pair c j a = true →
             rows (jobApplications d) !! k = Some r → same_pair c j r = false.

(** The schema of [jobApplications] with the compound index that
    [applyCandidateToJob] queries added to it. *)
Definition with_pair_index : list string :=
  "[candidateId+jobId]" :: t_indexes T_jobApplications.

(** The application of candidate 7 for job 1, as a caller hands it to
    [createJobApplication]. *)
Definition application_7_1 : JobApplication :=
  mkApplication None (Some (KNum 7)) (Some (KNum 1)) "Backend Engineer" "applied" "" None None.

(** ** Stage changes *)

(** The world [updateCandidate] ends in when no request is rejected. *)
Definition candidate_updated (id : key) (updates : CandidatePatch) (w : World) : World :=
  let old := rows (candidates (db w)) !! id in
  let wu := was_updated T_candidates id updates w in
  match stage_changes updates old with
  | Some s =>
      inserted T_timelineEvents (KNum (fresh_num (timelineEvents (db wu))))
               (stage_event id (stage_of old) s) wu
  | None => wu
  end.

(** The [stage_change] events that reference candidate [cid]. *)
Definition is_stage_change_of (cid : key) (e : TimelineEvent) : Prop :=
  ev_type e = "stage_change" ∧ ev_candidateId e = Some cid.

Global Instance is_stage_change_of_dec cid e : Decision (is_stage_change_of cid e).
Proof. unfold is_stage_change_of. apply _. Defined.

Definition stage_change_count (cid : key) (d : DB) : nat :=
  size (filter (λ kr : key * TimelineEvent, is_stage_change_of cid kr.2)
               (rows (timelineEvents d))).

(** A history of [updateCandidate] calls, run in order. *)
Fixpoint run_updates (calls : list (key * CandidatePatch)) : M unit :=
  match calls with
  | [] => mret ()
  | (id, updates) :: rest => updateCandidate id updates;; run_updates rest
  end.

(** The [stage_change] events that a history of calls logs for candidate
    [cid], told from the calls alone; [stage] is the stage of the candidate
    before the first call.  A patch that carries a stage sets the stored
    stage; it logs an event when that stage is not the empty string and
    differs from the stored one. *)
Fixpoint logged_changes (cid : key) (stage : string)
    (calls : list (key * CandidatePatch)) : nat :=
  match calls with
  | [] => 0%nat
  | (id, updates) :: rest =>
      if bool_decide (id = cid) then
        match cp_stage updates with
        | Some s =>
            ((if truthy_str s && negb (String.eqb s stage) then 1 else 0)
             + logged_changes cid s rest)%nat
        | None => logged_changes cid stage rest
        end
      else logged_changes cid stage rest
  end.

(** Every call of the history logs what the test of database.js:333
    selects, and nothing else, on the timeline: the event of
    database.js:334-343 with [fromStage] read from the record as it was
    before the update. *)
Fixpoint each_update_logged (calls : list (key * CandidatePatch)) (w : World) : Prop :=
  match calls with
  | [] => True
  | (id, updates) :: rest =>
      let old := rows (candidates (db w)) !! id in
      let t := timelineEvents (db w) in
      let w' := final (updateCandidate id updates w) in
      rows (timelineEvents (db w'))
      = match stage_changes updates old with
        | Some s =>
            <[KNum (fresh_num t) :=
                mkEvent (Some (KNum (fresh_num t))) (Some id) "stage_change"
                        ("Stage Changed to " +:+ s)
                        ("Candidate moved from " +:+ show_stage (stage_of old)
                           +:+ " to " +:+ s)
                        [("fromStage", meta_stage (stage_of old));
                         ("toStage", MStr s)] None]> (rows t)
        | None => rows t
        end
      ∧ each_update_logged rest w'
  end.

(** The scenario of spec 8: a candidate created at stage "applied", moved
    to "screen", patched twice without a stage change, and moved on to
    "offer". *)
Definition ada : Candidate :=
  mkCandidate None "Ada" "ada@example.com" "applied" None None None.

Definition to_stage (s : string) : CandidatePatch :=
  mkCandidatePatch None None (Some s) None None.

(** Ada again, with an id that the caller supplies. *)
Definition ada_5 : Candidate :=
  mkCandidate (Some (KNum 5)) "Ada" "ada@example.com" "applied" None None None.

Definition ada_history : list (key * CandidatePatch) :=
  [(KNum 1, to_stage "screen"); (KNum 1, to_stage "screen");
   (KNum 1, mkCandidatePatch (Some "Ada L.") None None None None);
   (KNum 1, to_stage "offer")].

(** ** Slugs *)

(** The slugs stored in the [jobs] table. *)
Definition stored_slugs (t : Table Job) : list string := job_slug <$> table_list t.

(** [`${baseSlug}-${counter}`] *)
Definition numbered (baseSlug : string) (counter : N) : string :=
  baseSlug +:+ "-" +:+ pretty counter.

(** The slugs the loop of [createJob] probes, in order: the slug it starts
    with, then the numbered ones from [counter] on. *)
Definition probe_at (baseSlug slug : string) (counter : N) (i : nat) : string :=
  match i with
  | O => slug
  | S i' => numbered baseSlug (counter + N.of_nat i')
  end.

(** The pattern [^{base}(-\d+)?$]. *)
Fixpoint strip_prefix (p s : string) : option string :=
  match p with
  | EmptyString => Some s
  | String a p' =>
      match s with
      | String b s' => if Ascii.eqb a b then strip_prefix p' s' else None
      | EmptyString => None
      end
  end.

Fixpoint all_digits (s : string) : bool :=
  match s with
  | EmptyString => true
  | String c s' => is_digit c && all_digits s'
  end.

Definition matches_slug_pattern (baseSlug s : string) : bool :=
  match strip_prefix baseSlug s with
  | Some EmptyString => true
  | Some (String c digits) => is_hyphen c && truthy_str digits && all_digits digits
  | None => false
  end.

(** Successive [createJob] calls; the slugs of the returned jobs, in
    order. *)
Fixpoint create_all (calls : list Job) : M (list string) :=
  match calls with
  | [] => mret []
  | jobData :: rest =>
      job ← createJob jobData;
      slugs ← create_all rest;
      mret (job_slug job :: slugs)
  end.

(** A call with the given title that supplies no slug. *)
Definition plain_call (title : string) (jobData : Job) : Prop :=
  job_title jobData = title ∧ job_slug jobData = "".

(** The call stores a new job: it supplies no id, or an id that is not in
    use. *)
Definition new_id (jobData : Job) (w : World) : Prop :=
  match job_id jobData with
  | None => True
  | Some k => rows (jobs (db w)) !! k = None
  end.

(** Every call of the sequence stores a new job. *)
Fixpoint all_new (calls : list Job) (w : World) : Prop :=
  match calls with
  | [] => True
  | jobData :: rest => new_id jobData w ∧ all_new rest (final (createJob jobData w))
  end.

(** [base], [base-1], [base-2], ... *)
Definition nth_slug (baseSlug : string) (i : nat) : string :=
  match i with
  | O => baseSlug
  | S _ => numbered baseSlug (N.of_nat i)
  end.

(** Jobs to create: a title without letters or digits, a title with a
    fixed id, and the title of the scenario of spec 8. *)
Definition punctuation_job : Job := mkJob None "!!!" "" None [] "" 0 None None.

Definition pinned_job : Job :=
  mkJob (Some (KNum 5)) "Backend Engineer" "" None [] "" 0 None None.

Definition backend_job : Job := mkJob None "Backend Engineer" "" None [] "" 0 None None.

(** ** Listing and reordering jobs *)

(** The [order] values ascend along a list of jobs. *)
Definition by_order (a b : Job) : Prop := job_order a ≤ job_order b.

(** The pagination options when both are present and truthy. *)
Definition paging (filters : JobFilters) : option (Z * Z) :=
  match f_page filters, f_pageSize filters with
  | Some page, Some pageSize =>
      if truthy_num page && truthy_num pageSize then Some (page, pageSize) else None
  | _, _ => None
  end.

(** The first page of ten, no filter. *)
Definition first_page : JobFilters := mkFilters "" [] "" (Some 1) (Some 10).

(** Three jobs stored out of display order. *)
Definition three_jobs_store : DB :=
  mkDB (mkTable (<[KNum 1 := mkJob (Some (KNum 1)) "QA Engineer" "qa-engineer"
                                   None ["QA"] "active" 2 (Some 10) (Some 10)]>
                (<[KNum 2 := mkJob (Some (KNum 2)) "UX Designer" "ux-designer"
                                   None ["UX"] "active" 1 (Some 11) (Some 11)]>
                (<[KNum 3 := mkJob (Some (KNum 3)) "Data Scientist" "data-scientist"
                                   None ["Data"] "archived" 3 (Some 12) (Some 12)]> ∅))) 4)
       empty_table empty_table empty_table empty_table empty_table empty_table.

(** Rows carry their primary key in [id] (the key path of the table is
    [id], so IndexedDB keeps the two equal). *)
Definition ids_inbound (t : Table Job) : Prop :=
  map_Forall (λ k j, job_id j = Some k) (rows t).

(** The job as [reorderJobs] rewrites it: the new [order], and every
    other field as it was. *)
Definition moved (j : Job) (order : Z) : Job :=
  mkJob (job_id j) (job_title j) (job_slug j) (job_description j) (job_tags j)
        (job_status j) order (job_createdAt j) (job_updatedAt j).

(** Two jobs in display order. *)
Definition two_jobs_store : DB :=
  mkDB (mkTable (<[KNum 1 := mkJob (Some (KNum 1)) "QA Engineer" "qa-engineer"
                                   None ["QA"] "active" 1 (Some 10) (Some 10)]>
                (<[KNum 2 := mkJob (Some (KNum 2)) "UX Designer" "ux-designer"
                                   None ["UX"] "active" 2 (Some 11) (Some 11)]> ∅)) 3)
       empty_table empty_table empty_table empty_table empty_table empty_table.

(** ** Time stamps *)

(** A store with one job application, last updated at time 14. *)
Definition one_application_store : DB :=
  mkDB empty_table empty_table empty_table empty_table empty_table empty_table
       (mkTable {[ KNum 5 := mkApplication (Some (KNum 5)) (Some (KNum 1)) (Some (KNum 9))
                                   "Backend Engineer" "applied" "" (Some 14) (Some 14) ]} 6).

(** A successful [add] or [put] of [obj] that ended under key [k]. *)
Definition stored_as {R P} (T : TableSpec R P) (obj : R) (w : World) (k : key) (w' : World) : Prop :=
  tbl_add T obj w = Ok k w' ∨ tbl_put T obj w = Ok k w'.

(** * The rest of [DatabaseService], and its caller in [App] *)

(** ** More requests of the storage engine *)

(** [table.toArray()] *)
Definition tbl_toArray {R P} (T : TableSpec R P) : M (list R) :=
  tick;;
  t ← gets (table_of T);
  mret (table_list t).

(** [table.where(idx).equals(v).toArray()] *)
Definition tbl_where_toArray {R P} (T : TableSpec R P) (idx : string) (hit : R → bool)
    : M (list R) :=
  tick;; use_index T idx;;
  t ← gets (table_of T);
  mret (filter (λ r, hit r = true) (table_list t)).

(** [table.count()] *)
Definition tbl_count {R P} (T : TableSpec R P) : M Z :=
  tick;;
  t ← gets (table_of T);
  mret (Z.of_nat (size (rows t))).

(** [table.clear()]: the rows go, the key generator stays where it is. *)
Definition tbl_clear {R P} (T : TableSpec R P) : M unit :=
  tick;;
  t ← gets (table_of T);
  write_table T (mkTable ∅ (next t)).

(** [table.get(ref)] on a field that may be undefined; an undefined value
    is not a valid key. *)
Definition tbl_get_ref {R P} (T : TableSpec R P) (ref : option key) : M (option R) :=
  match ref with
  | Some k => tbl_get T k
  | None => throw DataError
  end.

(** [Promise.all(l.map(f))]: the results in the order of [l]. *)
Fixpoint all_of {A B} (f : A → M B) (l : list A) : M (list B) :=
  match l with
  | [] => mret []
  | x :: l' => y ← f x; ys ← all_of f l'; mret (y :: ys)
  end.

(** [for (const x of l) { await f(x) }] *)
Fixpoint for_each {A B} (f : A → M B) (l : list A) : M unit :=
  match l with
  | [] => mret ()
  | x :: l' => f x;; for_each f l'
  end.

(** [try { body } catch (error) { console.error(...) }] *)
Definition try_catch (body : M unit) : M unit := λ w,
  match body w with
  | Ok _ w' => Ok () w'
  | Fail _ w' => Ok () w'
  end.

(** ** DatabaseService: reading and updating jobs *)

(** [getJobById(id)] *)
Definition getJobById (id : key) : M (option Job) := tbl_get T_jobs id.

(** [getJobBySlug(slug)] *)
Definition getJobBySlug (slug : string) : M (option Job) :=
  tbl_where_first T_jobs "slug" (λ j, String.eqb (job_slug j) slug).

(** Truthiness of a field of an update object; a field that is left out
    is undefined. *)
Definition truthy_field (o : option string) : bool :=
  match o with
  | Some s => truthy_str s
  | None => false
  end.

(** The [while] loop of [updateJob] (database.js:206-209): as the loop of
    [createJob], with the job that is updated excluded from the test. *)
Fixpoint probe_slug_except (budget : nat) (id : key) (baseSlug : string) (counter : N)
    (slug : string) : M string :=
  match budget with
  | O => throw Diverged
  | S budget' =>
      free ← isSlugUnique slug (Some id);
      if (free : bool) then mret slug
      else probe_slug_except budget' id baseSlug (counter + 1)%N
                             (baseSlug +:+ "-" +:+ pretty counter)
  end.

Definition with_patch_slug (slug : option string) (p : JobPatch) : JobPatch :=
  mkJobPatch (jp_title p) slug (jp_status p) (jp_order p) (jp_updatedAt p).

(** [updateJob(id, updates)], for update objects over the fields of
    [JobPatch]; the probe budget is the number of stored jobs plus two. *)
Definition updateJob (id : key) (updates : JobPatch) : M (option Job) :=
  let slug0 :=
    if truthy_field (jp_title updates) && negb (truthy_field (jp_slug updates))
    then Some (generateSlug (default "" (jp_title updates)))
    else jp_slug updates in
  slug ← (if truthy_field slug0 then
            t ← gets (table_of T_jobs);
            s ← probe_slug_except (2 + size (rows t)) id (default "" slug0) 1%N
                                  (default "" slug0);
            mret (Some s)
          else mret slug0);
  tbl_update T_jobs id (with_patch_slug slug updates);;
  tbl_get T_jobs id.

(** [debugJobById(id)]; the log lines are not modelled. *)
Definition debugJobById (id : key) : M (option Job) :=
  job ← tbl_get T_jobs id;
  match job with
  | Some _ => mret ()
  | None => tbl_toArray T_jobs;; mret ()
  end;;
  mret job.

(** ** DatabaseService: reading candidates *)

(** The [filters] argument of [getCandidates]; an option that is left out
    is the empty string or [None]. *)
Record CandidateFilters : Type := mkCandidateFilters {
  cf_stage : string;
  cf_jobId : option key;
  cf_search : string;
}.

(** The three [query.filter] predicates of database.js:259-273,
    combined. *)
Definition candidate_matches (f : CandidateFilters) (c : Candidate) : bool :=
  (if truthy_str (cf_stage f) then String.eqb (cand_stage c) (cf_stage f) else true)
  && (match cf_jobId f with
      | Some k => if key_truthy k then bool_decide (cand_jobId c = Some k) else true
      | None => true
      end)
  && (if truthy_str (cf_search f) then
        let searchTerm := toLowerCase (cf_search f) in
        includes (toLowerCase (cand_name c)) searchTerm
        || includes (toLowerCase (cand_email c)) searchTerm
      else true).

(** [db.candidates.orderBy('createdAt')]: the entries of the [createdAt]
    index, which has none for a row without [createdAt]; rows with equal
    [createdAt] by primary key. *)
Definition created_le (a b : Z * (key * Candidate)) : Prop :=
  a.1 < b.1 ∨ (a.1 = b.1 ∧ key_le a.2.1 b.2.1).

Global Instance created_le_dec : RelDecision created_le.
Proof. intros a b. unfold created_le. apply _. Defined.

Definition created_entry (kc : key * Candidate) : option (Z * (key * Candidate)) :=
  match cand_createdAt kc.2 with
  | Some c => Some (c, kc)
  | None => None
  end.

Definition candidates_by_createdAt (t : Table Candidate) : list Candidate :=
  (λ e, e.2.2) <$> merge_sort created_le (omap created_entry (map_to_list (rows t))).

(** [getCandidates(filters)] *)
Definition getCandidates (filters : CandidateFilters) : M (list Candidate) :=
  tick;; use_index T_candidates "createdAt";;
  t ← gets (table_of T_candidates);
  mret (reverse (filter (λ c, candidate_matches filters c = true)
                        (candidates_by_createdAt t))).

(** [getCandidateById(id)] *)
Definition getCandidateById (id : key) : M (option Candidate) := tbl_get T_candidates id.

(** [debugCandidateById(id)]; the log lines are not modelled. *)
Definition debugCandidateById (id : key) : M (option Candidate) :=
  candidate ← tbl_get T_candidates id;
  match candidate with
  | Some _ => mret ()
  | None => tbl_toArray T_candidates;; mret ()
  end;;
  mret candidate.

(** ** DatabaseService: notes, assessments and responses *)

(** [updateNote(id, updates)] *)
Definition updateNote (id : key) (updates : NotePatch) : M (option Note) :=
  tbl_update T_notes id updates;;
  tbl_get T_notes id.

(** [deleteNote(id)] *)
Definition deleteNote (id : key) : M unit := tbl_delete T_notes id.

(** [getAssessments()] *)
Definition getAssessments : M (list Assessment) := tbl_toArray T_assessments.

(** [getAssessmentByJobId(jobId)] *)
Definition getAssessmentByJobId (jobId : key) : M (option Assessment) :=
  tbl_where_first T_assessments "jobId" (λ a, bool_decide (asm_jobId a = Some jobId)).

(** [updateAssessment(id, updates)] *)
Definition updateAssessment (id : key) (updates : AssessmentPatch) : M (option Assessment) :=
  tbl_update T_assessments id updates;;
  tbl_get T_assessments id.

(** [deleteAssessment(id)] *)
Definition deleteAssessment (id : key) : M unit :=
  tbl_delete T_assessments id;;
  tbl_where_delete T_assessmentResponses "assessmentId"
    (λ r, bool_decide (resp_assessmentId r = Some id)).

(** [getAssessmentResponse(candidateId, assessmentId)] *)
Definition getAssessmentResponse (candidateId assessmentId : key)
    : M (option AssessmentResponse) :=
  tbl_where_first T_assessmentResponses "[candidateId+assessmentId]"
    (λ r, bool_decide (resp_candidateId r = Some candidateId)
          && bool_decide (resp_assessmentId r = Some assessmentId)).

(** Modelled from the spec: the factory [createAssessmentResponse] of
    [src/types], which is not among the source files.  Spec 4.1: a factory
    returns the record with defaults filled in for omitted fields, never
    throws and has no side effect; the fields modelled here have no
    default. *)
Definition createAssessmentResponse_factory (data : AssessmentResponse)
    : AssessmentResponse := data.

(** [createAssessmentResponse(responseData)] *)
Definition createAssessmentResponse (responseData : AssessmentResponse)
    : M AssessmentResponse :=
  let response := createAssessmentResponse_factory responseData in
  id ← tbl_add T_assessmentResponses response;
  createTimelineEvent
    (mkEvent None (resp_candidateId responseData) "assessment_completed"
             "Assessment Completed" "Candidate completed the assessment"
             [("assessmentId", meta_key (resp_assessmentId responseData));
              ("responseId", MKey id)]
             None);;
  mret (t_with_id T_assessmentResponses id response).

(** ** DatabaseService: utility methods *)

(** [clearAllData()]: one transaction over six tables; [jobApplications]
    is not among them. *)
Definition clearAllData : M unit :=
  transaction (
    tbl_clear T_jobs;;
    tbl_clear T_candidates;;
    tbl_clear T_assessments;;
    tbl_clear T_timelineEvents;;
    tbl_clear T_notes;;
    tbl_clear T_assessmentResponses).

Record Stats : Type := mkStats {
  st_jobs : Z;
  st_candidates : Z;
  st_assessments : Z;
}.

(** [getStats()]: [Promise.all] of three counts, issued in this order. *)
Definition getStats : M Stats :=
  jobCount ← tbl_count T_jobs;
  candidateCount ← tbl_count T_candidates;
  assessmentCount ← tbl_count T_assessments;
  mret (mkStats jobCount candidateCount assessmentCount).

(** ** DatabaseService: job applications with their job *)

(** The object [{ ...app, jobTitle, jobDetails }] of database.js:628-632:
    the application with its [jobTitle] replaced, and the job. *)
Record ApplicationWithJob : Type := mkWithJob {
  aj_app : JobApplication;
  aj_jobDetails : option Job;
}.

(** [job?.title || app.jobTitle] *)
Definition live_title (job : option Job) (snapshot : string) : string :=
  match job with
  | Some j => if truthy_str (job_title j) then job_title j else snapshot
  | None => snapshot
  end.

Definition with_jobTitle (title : string) (a : JobApplication) : JobApplication :=
  mkApplication (app_id a) (app_candidateId a) (app_jobId a) title
                (app_status a) (app_notes a) (app_appliedAt a) (app_updatedAt a).

(** The [async (app) => ...] of database.js:626-633. *)
Definition with_job (app : JobApplication) : M ApplicationWithJob :=
  job ← tbl_get_ref T_jobs (app_jobId app);
  mret (mkWithJob (with_jobTitle (live_title job (app_jobTitle app)) app) job).

(** [getCandidateJobApplications(candidateId)]; the [get] requests of
    [Promise.all] are issued in the order of the applications. *)
Definition getCandidateJobApplications (candidateId : key) : M (list ApplicationWithJob) :=
  applications ← tbl_where_toArray T_jobApplications "candidateId"
                   (λ a, bool_decide (app_candidateId a = Some candidateId));
  all_of with_job applications.

(** The object [{ ...app, jobTitle, jobDetails, candidateDetails }] of
    database.js:657-662. *)
Record ApplicationWithDetails : Type := mkWithDetails {
  ad_app : JobApplication;
  ad_jobDetails : option Job;
  ad_candidateDetails : option Candidate;
}.

Definition with_details (app : JobApplication) : M ApplicationWithDetails :=
  job ← tbl_get_ref T_jobs (app_jobId app);
  candidate ← tbl_get_ref T_candidates (app_candidateId app);
  mret (mkWithDetails (with_jobTitle (live_title job (app_jobTitle app)) app)
                      job candidate).

(** [getJobApplicationsByStatus(status)] *)
Definition getJobApplicationsByStatus (status : string) : M (list ApplicationWithDetails) :=
  applications ← tbl_where_toArray T_jobApplications "status"
                   (λ a, String.eqb (app_status a) status);
  all_of with_details applications.

Record StatusSummary : Type := mkSummary {
  totalApplications : nat;
  hired : list ApplicationWithJob;
  rejected : list ApplicationWithJob;
  interviewScheduled : list ApplicationWithJob;
  applied : list ApplicationWithJob;
}.

Record CandidateJobStatus : Type := mkJobStatus {
  applications : list ApplicationWithJob;
  statusSummary : StatusSummary;
}.

Definition has_status (s : string) (a : ApplicationWithJob) : bool :=
  String.eqb (app_status (aj_app a)) s.

(** [getCandidateJobStatus(candidateId)] *)
Definition getCandidateJobStatus (candidateId : key) : M CandidateJobStatus :=
  applications ← getCandidateJobApplications candidateId;
  let statusSummary :=
    mkSummary (length applications)
      (filter (λ a, has_status "hired" a = true) applications)
      (filter (λ a, has_status "rejected" a = true) applications)
      (filter (λ a, (has_status "screen" a || has_status "tech" a
                     || has_status "offer" a) = true) applications)
      (filter (λ a, has_status "applied" a = true) applications) in
  mret (mkJobStatus applications statusSummary).

(** ** App: seeding the store at start-up *)

(** What [generateSeedData()] returns. *)
Record SeedData : Type := mkSeedData {
  seed_jobs : list Job;
  seed_candidates : list Candidate;
  seed_assessments : list Assessment;
}.

(** [initializeData()] of [App] (database.js:830-869).  The random
    generators [generateSeedData] and [generateJobApplications] are not
    modelled: what they return is an argument. *)
Definition initializeData (seedData : SeedData) (jobApplications : list JobApplication)
    : M unit :=
  try_catch (
    stats ← getStats;
    if st_jobs stats =? 0 then
      for_each createJob (seed_jobs seedData);;
      for_each createCandidate (seed_candidates seedData);;
      for_each createAssessment (seed_assessments seedData);;
      for_each createJobApplication jobApplications;;
      getStats;;
      mret ()
    else mret ()).

(** * Vocabulary of the further properties *)

(** ** Slugs *)

(** The characters of a slug. *)
Definition slug_char (c : ascii) : bool := is_lower_alnum c || is_hyphen c.

(** Every character of [s] is of the class. *)
Fixpoint all_chars (p : ascii → bool) (s : string) : bool :=
  match s with
  | EmptyString => true
  | String c s' => p c && all_chars p s'
  end.

(** No two hyphens in a row. *)
Fixpoint single_hyphens (s : string) : bool :=
  match s with
  | String a ((String b _) as s') => negb (is_hyphen a && is_hyphen b) && single_hyphens s'
  | _ => true
  end.


(** ** Methods that read, methods that write *)

(** A computation that never writes: the database is the same in the
    world it ends in, whether it returned or threw. *)
Definition reads_only {A} (m : M A) : Prop := ∀ w, db (final (m w)) = db w.

(** A property of the database that a computation keeps: when it holds
    before, it holds in the world the computation ends in, whether it
    returned or threw. *)
Definition keeps {A} (I : DB → Prop) (m : M A) : Prop :=
  ∀ w, I (db w) → I (db (final (m w))).

(** The methods of the service that read. *)
Inductive query : Type :=
  | GetJobs (filters : JobFilters)
  | GetJobById (id : key)
  | GetJobBySlug (slug : string)
  | IsSlugUnique (slug : string) (excludeId : option key)
  | DebugJobById (id : key)
  | GetCandidates (filters : CandidateFilters)
  | GetCandidateById (id : key)
  | DebugCandidateById (id : key)
  | GetAssessments
  | GetAssessmentByJobId (jobId : key)
  | GetAssessmentResponse (candidateId assessmentId : key)
  | GetStats
  | GetCandidateJobApplications (candidateId : key)
  | GetJobApplicationsByStatus (status : string)
  | GetCandidateJobStatus (candidateId : key).

(** The world a query ends in. *)
Definition ask (q : query) (w : World) : World :=
  match q with
  | GetJobs filters => final (getJobs filters w)
  | GetJobById id => final (getJobById id w)
  | GetJobBySlug slug => final (getJobBySlug slug w)
  | IsSlugUnique slug excludeId => final (isSlugUnique slug excludeId w)
  | DebugJobById id => final (debugJobById id w)
  | GetCandidates filters => final (getCandidates filters w)
  | GetCandidateById id => final (getCandidateById id w)
  | DebugCandidateById id => final (debugCandidateById id w)
  | GetAssessments => final (getAssessments w)
  | GetAssessmentByJobId jobId => final (getAssessmentByJobId jobId w)
  | GetAssessmentResponse candidateId assessmentId =>
      final (getAssessmentResponse candidateId assessmentId w)
  | GetStats => final (getStats w)
  | GetCandidateJobApplications candidateId =>
      final (getCandidateJobApplications candidateId w)
  | GetJobApplicationsByStatus status => final (getJobApplicationsByStatus status w)
  | GetCandidateJobStatus candidateId => final (getCandidateJobStatus candidateId w)
  end.

(** The methods of the service that write, and the seeding of [App]. *)
Inductive command : Type :=
  | CreateJob (jobData : Job)
  | UpdateJob (id : key) (updates : JobPatch)
  | DeleteJob (id : key)
  | ReorderJobs (fromOrder toOrder : Z)
  | CreateCandidate (candidateData : Candidate)
  | UpdateCandidate (id : key) (updates : CandidatePatch)
  | DeleteCandidate (id : key)
  | CreateTimelineEvent (eventData : TimelineEvent)
  | CreateNote (noteData : Note)
  | UpdateNote (id : key) (updates : NotePatch)
  | DeleteNote (id : key)
  | CreateAssessment (assessmentData : Assessment)
  | UpdateAssessment (id : key) (updates : AssessmentPatch)
  | DeleteAssessment (id : key)
  | CreateAssessmentResponse (responseData : AssessmentResponse)
  | ClearAllData
  | CreateJobApplication (applicationData : JobApplication)
  | UpdateJobApplication (id : key) (updates : ApplicationPatch)
  | ApplyCandidateToJob (candidateId jobId : key)
  | UpdateJobApplicationStatus (applicationId : key) (newStatus notes : string)
  | InitializeData (seedData : SeedData) (seedApplications : list JobApplication).

(** The world a command ends in. *)
Definition perform (c : command) (w : World) : World :=
  match c with
  | CreateJob jobData => final (createJob jobData w)
  | UpdateJob id updates => final (updateJob id updates w)
  | DeleteJob id => final (deleteJob id w)
  | ReorderJobs fromOrder toOrder => final (reorderJobs fromOrder toOrder w)
  | CreateCandidate candidateData => final (createCandidate candidateData w)
  | UpdateCandidate id updates => final (updateCandidate id updates w)
  | DeleteCandidate id => final (deleteCandidate id w)
  | CreateTimelineEvent eventData => final (createTimelineEvent eventData w)
  | CreateNote noteData => final (createNote noteData w)
  | UpdateNote id updates => final (updateNote id updates w)
  | DeleteNote id => final (deleteNote id w)
  | CreateAssessment assessmentData => final (createAssessment assessmentData w)
  | UpdateAssessment id updates => final (updateAssessment id updates w)
  | DeleteAssessment id => final (deleteAssessment id w)
  | CreateAssessmentResponse responseData => final (createAssessmentResponse responseData w)
  | ClearAllData => final (clearAllData w)
  | CreateJobApplication applicationData => final (createJobApplication applicationData w)
  | UpdateJobApplication id updates => final (updateJobApplication id updates w)
  | ApplyCandidateToJob candidateId jobId => final (applyCandidateToJob candidateId jobId w)
  | UpdateJobApplicationStatus applicationId newStatus notes =>
      final (updateJobApplicationStatus applicationId newStatus notes w)
  | InitializeData seedData seedApplications =>
      final (initializeData seedData seedApplications w)
  end.

(** The commands that delete timeline events. *)
Definition removes_events (c : command) : bool :=
  match c with
  | DeleteCandidate _ | ClearAllData => true
  | _ => false
  end.

(** No two stored jobs share a slug that is not empty. *)
Definition slugs_distinct (t : Table Job) : Prop :=
  ∀ k1 k2 j1 j2,
    rows t !! k1 = Some j1 → rows t !! k2 = Some j2 →
    job_slug j1 = job_slug j2 → job_slug j1 ≠ "" → k1 = k2.

(** The [jobs] table is sound: every job carries its key, and slugs are
    distinct. *)
Definition jobs_sound (d : DB) : Prop :=
  ids_inbound (jobs d) ∧ slugs_distinct (jobs d).

(** ** Job applications of a candidate *)


(** ** Pages of jobs *)

(** The filters with the pagination options set, and without them. *)
Definition on_page (filters : JobFilters) (page pageSize : Z) : JobFilters :=
  mkFilters (f_status filters) (f_tags filters) (f_search filters)
            (Some page) (Some pageSize).

Definition unpaged (filters : JobFilters) : JobFilters :=
  mkFilters (f_status filters) (f_tags filters) (f_search filters) None None.

(** The page numbers [1 .. totalPages]. *)
Definition page_numbers (totalPages : Z) : list Z :=
  Z.of_nat <$> seq 1 (Z.to_nat totalPages).

(** ** Candidates, newest first *)

(** [a] was created no earlier than [b]; both carry [createdAt]. *)
Definition newest_first (a b : Candidate) : Prop :=
  match cand_createdAt a, cand_createdAt b with
  | Some x, Some y => y ≤ x
  | _, _ => False
  end.

(** The candidate is in the [createdAt] index and passes the filters. *)
Definition listed_candidate (filters : CandidateFilters) (c : Candidate) : Prop :=
  candidate_matches filters c = true ∧ is_Some (cand_createdAt c).

Global Instance listed_candidate_dec filters c : Decision (listed_candidate filters c).
Proof. unfold listed_candidate. apply _. Defined.

(** ** Searching jobs *)

(** The filters with another search term. *)
Definition searching (term : string) (filters : JobFilters) : JobFilters :=
  mkFilters (f_status filters) (f_tags filters) term (f_page filters) (f_pageSize filters).

(** ** Clearing the store *)

(** The database after [clearAllData]: six tables without rows, their key
    generators where they were, and [jobApplications] as it was. *)
Definition cleared (d : DB) : DB :=
  mkDB (mkTable ∅ (next (jobs d)))
       (mkTable ∅ (next (candidates d)))
       (mkTable ∅ (next (assessments d)))
       (mkTable ∅ (next (timelineEvents d)))
       (mkTable ∅ (next (notes d)))
       (mkTable ∅ (next (assessmentResponses d)))
       (jobApplications d).

(** * Properties *)

(** ** The key order is a total order *)

Global Instance key_le_total : Total key_le.
Proof.
  intros [x|x] [y|y]; simpl; auto; [lia | apply (total String.le)].
Qed.

Global Instance key_le_trans : Transitive key_le.
Proof.
  intros [x|x] [y|y] [z|z]; simpl; try done; [lia | apply transitivity].
Qed.

Global Instance key_le_antisym : AntiSymm (=) key_le.
Proof.
  intros [x|x] [y|y]; simpl; try done.
  - intros. f_equal. lia.
  - intros H1 H2. f_equal. by apply (anti_symm String.le).
Qed.

(** ** Reasoning about runs *)

Lemma bind_run {A B} (m : M A) (f : A → M B) (w : World) :
  (m ≫= f) w = match m w with Ok a w' => f a w' | Fail e w' => Fail e w' end.
Proof. reflexivity. Qed.

Lemma bind_Ok_inv {A B} (m : M A) (f : A → M B) (w w2 : World) (b : B) :
  (m ≫= f) w = Ok b w2 → ∃ a w1, m w = Ok a w1 ∧ f a w1 = Ok b w2.
Proof. rewrite bind_run. destruct (m w) as [a w1|e w1]; [eauto | discriminate]. Qed.

Lemma bind_Fail_inv {A B} (m : M A) (f : A → M B) (w w2 : World) (e : error) :
  (m ≫= f) w = Fail e w2 →
  m w = Fail e w2 ∨ ∃ a w1, m w = Ok a w1 ∧ f a w1 = Fail e w2.
Proof. rewrite bind_run. destruct (m w) as [a w1|e' w1]; [eauto | intros [= -> ->]; auto]. Qed.

(** Unfolding the plumbing of the monad in a goal. *)
Ltac mrun :=
  unfold mbind, M_bind, mret, M_ret, gets, write_table, throw; cbn.

Lemma step_Ok {A} (m : M A) R w a w' : step m R → m w = Ok a w' → R (db w) a (db w').
Proof. intros H E. specialize (H w). by rewrite E in H. Qed.

Lemma step_Fail {A} (m : M A) R w e w' : step m R → m w = Fail e w' → db w' = db w.
Proof. intros H E. specialize (H w). by rewrite E in H. Qed.

Lemma tick_db w : db (final (tick w)) = db w.
Proof. unfold tick. by destruct (fuse w) as [[|n]|]. Qed.

Lemma tick_Ok w u w' : tick w = Ok u w' → db w' = db w.
Proof. intros E. pose proof (tick_db w) as H. by rewrite E in H. Qed.

Lemma tick_Fail w e w' : tick w = Fail e w' → db w' = db w ∧ e = StorageError.
Proof. unfold tick. destruct (fuse w) as [[|n]|]; intros [= <- <-] || intros [=]; auto. Qed.

Section engine_facts.
Context {R P : Type} `{!EqDecision R} (T : TableSpec R P).

Lemma step_tbl_get k :
  step (tbl_get T k) (λ d r d', d' = d ∧ r = rows (t_view T d) !! k).
Proof.
  intros w. unfold tbl_get. rewrite bind_run.
  destruct (tick w) as [[] w1|e w1] eqn:E.
  - apply tick_Ok in E. mrun. unfold table_of. by rewrite E.
  - by apply tick_Fail in E as [-> _].
Qed.

Lemma step_tbl_delete k :
  step (tbl_delete T k) (λ d _ d', d' = db_delete T k d).
Proof.
  intros w. unfold tbl_delete. rewrite bind_run.
  destruct (tick w) as [[] w1|e w1] eqn:E.
  - apply tick_Ok in E. mrun. unfold table_of, db_delete. by rewrite E.
  - by apply tick_Fail in E as [-> _].
Qed.

Lemma step_tbl_where_delete idx hit :
  step (tbl_where_delete T idx hit)
       (λ d _ d', idx ∈ t_indexes T ∧ d' = db_where_delete T hit d).
Proof.
  intros w. unfold tbl_where_delete. rewrite bind_run.
  destruct (tick w) as [[] w1|e w1] eqn:E.
  - apply tick_Ok in E. rewrite bind_run. unfold use_index.
    case_bool_decide; mrun; [|done].
    unfold table_of, db_where_delete. by rewrite E.
  - by apply tick_Fail in E as [-> _].
Qed.

End engine_facts.

(** ** Runs in which the storage engine rejects nothing *)

Lemma tick_quiet (w : World) : fuse w = None → tick w = Ok () w.
Proof. unfold tick. by intros ->. Qed.

Section engine_quiet.
Context {R P : Type} `{!EqDecision R} (T : TableSpec R P).

Lemma tbl_get_quiet k w :
  fuse w = None → tbl_get T k w = Ok (rows (t_view T (db w)) !! k) w.
Proof. intros Hf. unfold tbl_get. by rewrite bind_run, tick_quiet. Qed.

Lemma tbl_delete_quiet k w :
  fuse w = None → tbl_delete T k w = Ok () (set_db (db_delete T k (db w)) w).
Proof. intros Hf. unfold tbl_delete. by rewrite bind_run, tick_quiet. Qed.

Lemma tbl_where_delete_quiet idx hit w :
  fuse w = None → bool_decide (idx ∈ t_indexes T) = true →
  tbl_where_delete T idx hit w = Ok () (set_db (db_where_delete T hit (db w)) w).
Proof.
  intros Hf Hi. unfold tbl_where_delete, use_index.
  rewrite bind_run, tick_quiet by done. by rewrite Hi.
Qed.

Lemma tbl_where_first_quiet idx hit w :
  fuse w = None → bool_decide (idx ∈ t_indexes T) = true →
  tbl_where_first T idx hit w
  = Ok (head (filter (λ r, hit r = true) (table_list (t_view T (db w))))) w.
Proof.
  intros Hf Hi. unfold tbl_where_first, use_index.
  rewrite bind_run, tick_quiet by done. by rewrite Hi.
Qed.

End engine_quiet.

(** ** Cascading deletes *)

(** Whatever the store, a rejected second request leaves [deleteJob] with
    the job deleted and nothing else done. *)
Lemma deleteJob_interrupted (d : DB) (id : key) :
  ∃ w', deleteJob id (failing_at 1 d) = Fail StorageError w'
        ∧ db w' = db_delete T_jobs id d.
Proof. eexists. split; reflexivity. Qed.

(** C1 (the code departs from the claim): [deleteJob] is three separate
    storage requests and no transaction.  When the engine rejects the
    second request, the call fails with the job already deleted while the
    candidate and the assessment that reference it are still stored. *)
Theorem deleteJob_leaves_orphans_when_interrupted :
  ∃ w', deleteJob (KNum 1) (failing_at 1 one_job_store) = Fail StorageError w'
        ∧ rows (jobs (db w')) !! KNum 1 = None
        ∧ (∃ c, rows (candidates (db w')) !! KNum 10 = Some c
                ∧ cand_jobId c = Some (KNum 1))
        ∧ (∃ a, rows (assessments (db w')) !! KNum 20 = Some a
                ∧ asm_jobId a = Some (KNum 1)).
Proof.
  eexists. split; [reflexivity|]. split; [reflexivity|].
  split; eexists; split; reflexivity.
Qed.

(** When no request is rejected the cascade is complete (spec 8, cascade
    completeness). *)
Lemma deleteJob_cascade (id : key) (w w' : World) :
  deleteJob id w = Ok () w' →
  rows (jobs (db w')) !! id = None
  ∧ (∀ k c, rows (candidates (db w')) !! k = Some c → cand_jobId c ≠ Some id)
  ∧ (∀ k a, rows (assessments (db w')) !! k = Some a → asm_jobId a ≠ Some id).
Proof.
  unfold deleteJob. intros H.
  apply bind_Ok_inv in H as ([] & w1 & H1 & H).
  apply bind_Ok_inv in H as ([] & w2 & H2 & H3).
  apply (step_Ok _ _ _ _ _ (step_tbl_delete T_jobs id)) in H1.
  apply (step_Ok _ _ _ _ _ (step_tbl_where_delete T_candidates _ _)) in H2 as [_ H2].
  apply (step_Ok _ _ _ _ _ (step_tbl_where_delete T_assessments _ _)) in H3 as [_ H3].
  rewrite H3, H2, H1. cbn. split; [apply lookup_delete_eq|].
  split; intros k x Hx; apply map_lookup_filter_Some in Hx as [_ Hx]; cbn in Hx;
    by apply bool_decide_eq_false in Hx.
Qed.

(** C2, as stated, fails: [deleteCandidate] completes and a job
    application of the deleted candidate is still stored. *)
Lemma deleteCandidate_keeps_job_applications :
  ∃ w', deleteCandidate (KNum 1) (world_of one_candidate_store) = Ok () w'
        ∧ ∃ k a, rows (jobApplications (db w')) !! k = Some a
                 ∧ app_candidateId a = Some (KNum 1).
Proof.
  eexists. split; [reflexivity|]. exists (KNum 5). eexists. split; reflexivity.
Qed.

(** [deleteCandidate] completes when no request is rejected. *)
Lemma deleteCandidate_completes (id : key) (w : World) :
  fuse w = None → ∃ w', deleteCandidate id w = Ok () w'.
Proof.
  intros Hf. unfold deleteCandidate.
  rewrite bind_run, tbl_delete_quiet by done.
  rewrite bind_run, tbl_where_delete_quiet by done.
  rewrite bind_run, tbl_where_delete_quiet by done.
  rewrite tbl_where_delete_quiet by done. eauto.
Qed.

(** C2 (amended): after [deleteCandidate id] completes successfully, the
    candidate is gone and no timeline event, note or assessment response
    with that [candidateId] remains; the [jobApplications] table is left as
    it was. *)
Theorem deleteCandidate_cascade (id : key) (w w' : World) :
  deleteCandidate id w = Ok () w' →
  rows (candidates (db w')) !! id = None
  ∧ (∀ k e, rows (timelineEvents (db w')) !! k = Some e → ev_candidateId e ≠ Some id)
  ∧ (∀ k n, rows (notes (db w')) !! k = Some n → note_candidateId n ≠ Some id)
  ∧ (∀ k r, rows (assessmentResponses (db w')) !! k = Some r → resp_candidateId r ≠ Some id)
  ∧ jobApplications (db w') = jobApplications (db w).
Proof.
  unfold deleteCandidate. intros H.
  apply bind_Ok_inv in H as ([] & w1 & H1 & H).
  apply bind_Ok_inv in H as ([] & w2 & H2 & H).
  apply bind_Ok_inv in H as ([] & w3 & H3 & H4).
  apply (step_Ok _ _ _ _ _ (step_tbl_delete T_candidates id)) in H1.
  apply (step_Ok _ _ _ _ _ (step_tbl_where_delete T_timelineEvents _ _)) in H2 as [_ H2].
  apply (step_Ok _ _ _ _ _ (step_tbl_where_delete T_notes _ _)) in H3 as [_ H3].
  apply (step_Ok _ _ _ _ _ (step_tbl_where_delete T_assessmentResponses _ _)) in H4 as [_ H4].
  rewrite H4, H3, H2, H1. cbn. split; [apply lookup_delete_eq|].
  repeat split; intros k x Hx; apply map_lookup_filter_Some in Hx as [_ Hx]; cbn in Hx;
    by apply bool_decide_eq_false in Hx.
Qed.

(** The cascade on the sample store of one candidate. *)
Lemma deleteCandidate_cascade_witness :
  let w' := final (deleteCandidate (KNum 1) (world_of one_candidate_store)) in
  deleteCandidate (KNum 1) (world_of one_candidate_store) = Ok () w'
  ∧ rows (candidates (db w')) !! KNum 1 = None
  ∧ (∀ k e, rows (timelineEvents (db w')) !! k = Some e → ev_candidateId e ≠ Some (KNum 1))
  ∧ (∀ k n, rows (notes (db w')) !! k = Some n → note_candidateId n ≠ Some (KNum 1))
  ∧ (∀ k r, rows (assessmentResponses (db w')) !! k = Some r → resp_candidateId r ≠ Some (KNum 1))
  ∧ jobApplications (db w') = jobApplications (db (world_of one_candidate_store)).
Proof.
  intros w'. split; [reflexivity|].
  apply (deleteCandidate_cascade (KNum 1) (world_of one_candidate_store) w').
  reflexivity.
Defined.

(** ** Writes of single rows *)

Lemma final_bind {A B} (m : M A) (f : A → M B) (w : World) :
  final ((m ≫= f) w)
  = match m w with Ok a w' => final (f a w') | Fail _ w' => w' end.
Proof. rewrite bind_run. by destruct (m w). Qed.

Section engine_writes.
Context {R P : Type} `{!EqDecision R} (T : TableSpec R P).

Lemma run_creating_eq obj w :
  run_creating T obj w = Ok (creating_at T w obj) (after_reads (creating_reads T) w).
Proof.
  unfold run_creating, creating_at, creating_reads, after_reads.
  destruct (t_creating T); [reflexivity|]. by destruct w.
Qed.

Lemma run_updating_eq mods w :
  run_updating T mods w = Ok () (after_reads (updating_reads T) w).
Proof.
  unfold run_updating, updating_reads, after_reads.
  destruct (t_updating T); [reflexivity|]. by destruct w.
Qed.

Lemma insert_new_eq k obj w : insert_new T k obj w = Ok k (inserted T k obj w).
Proof. unfold insert_new. rewrite bind_run, run_creating_eq. reflexivity. Qed.

Lemma tbl_add_eq obj w :
  tbl_add T obj w
  = match tick w with Ok _ w1 => added T obj w1 | Fail e w1 => Fail e w1 end.
Proof.
  unfold tbl_add, added. rewrite bind_run.
  destruct (tick w) as [[] w1|]; [|done]. mrun. unfold table_of.
  destruct (t_id T obj) as [k|]; [destruct (rows _ !! k)|]; try done;
    by rewrite insert_new_eq.
Qed.

Lemma tbl_add_quiet obj w : fuse w = None → tbl_add T obj w = added T obj w.
Proof. intros Hf. by rewrite tbl_add_eq, tick_quiet. Qed.

Lemma tbl_put_eq obj w :
  tbl_put T obj w
  = match tick w with Ok _ w1 => was_put T obj w1 | Fail e w1 => Fail e w1 end.
Proof.
  unfold tbl_put, was_put. rewrite bind_run.
  destruct (tick w) as [[] w1|]; [|done]. mrun. unfold table_of.
  destruct (t_id T obj) as [k|]; [destruct (rows _ !! k)|]; try done;
    try by rewrite insert_new_eq.
  unfold replace_row. by rewrite bind_run, run_updating_eq.
Qed.

Lemma tbl_put_quiet obj w : fuse w = None → tbl_put T obj w = was_put T obj w.
Proof. intros Hf. by rewrite tbl_put_eq, tick_quiet. Qed.

Lemma tbl_update_eq k mods w :
  tbl_update T k mods w
  = match tick w with Ok _ w1 => Ok () (was_updated T k mods w1) | Fail e w1 => Fail e w1 end.
Proof.
  unfold tbl_update, was_updated. rewrite bind_run.
  destruct (tick w) as [[] w1|]; [|done]. mrun. unfold table_of.
  destruct (rows _ !! k); [|done]. case_decide; [done|]. by rewrite run_updating_eq.
Qed.

Lemma tbl_update_quiet k mods w :
  fuse w = None → tbl_update T k mods w = Ok () (was_updated T k mods w).
Proof. intros Hf. by rewrite tbl_update_eq, tick_quiet. Qed.

Lemma fuse_inserted k obj w : fuse (inserted T k obj w) = fuse w.
Proof. reflexivity. Qed.

Lemma fuse_replaced k obj w : fuse (replaced T k obj w) = fuse w.
Proof. reflexivity. Qed.

Lemma fuse_was_updated k mods w : fuse (was_updated T k mods w) = fuse w.
Proof. unfold was_updated. destruct (rows _ !! k); [|done]. by case_decide. Qed.

(** Rows of the table, as a list and as a map. *)
Lemma elem_of_table_list (t : Table R) (r : R) :
  r ∈ table_list t ↔ ∃ k, rows t !! k = Some r.
Proof.
  unfold table_list. rewrite list_elem_of_fmap. split.
  - intros ([k r'] & -> & Hin). rewrite merge_sort_Permutation in Hin.
    apply elem_of_map_to_list in Hin. eauto.
  - intros [k Hk]. exists (k, r). split; [done|].
    rewrite merge_sort_Permutation. by apply elem_of_map_to_list.
Qed.

Lemma where_first_None (t : Table R) (hit : R → bool) :
  head (filter (λ r, hit r = true) (table_list t)) = None →
  ∀ k r, rows t !! k = Some r → hit r = false.
Proof.
  intros H k r Hk. apply head_None in H.
  destruct (hit r) eqn:E; [|done].
  assert (r ∈ filter (λ r, hit r = true) (table_list t)) as Hin.
  { apply list_elem_of_filter. split; [done|]. apply elem_of_table_list. eauto. }
  rewrite H in Hin. by apply elem_of_nil in Hin.
Qed.

Lemma where_first_Some (t : Table R) (hit : R → bool) (r : R) :
  head (filter (λ r, hit r = true) (table_list t)) = Some r →
  hit r = true ∧ ∃ k, rows t !! k = Some r.
Proof.
  intros H. apply head_Some_elem_of in H.
  apply list_elem_of_filter in H as [? H]. by apply elem_of_table_list in H.
Qed.

Lemma step_tbl_where_first idx hit :
  step (tbl_where_first T idx hit)
       (λ d r d', d' = d ∧ idx ∈ t_indexes T
                  ∧ r = head (filter (λ r, hit r = true) (table_list (t_view T d)))).
Proof.
  intros w. unfold tbl_where_first. rewrite bind_run.
  destruct (tick w) as [[] w1|e w1] eqn:E.
  - apply tick_Ok in E. rewrite bind_run. unfold use_index.
    case_bool_decide; mrun; [|done]. unfold table_of. by rewrite E.
  - by apply tick_Fail in E as [-> _].
Qed.

End engine_writes.

(** ** Pairs of candidate and job stay unique *)

Lemma same_pair_spec c j a :
  same_pair c j a = true ↔ app_candidateId a = Some c ∧ app_jobId a = Some j.
Proof.
  unfold same_pair. rewrite andb_true_iff, !bool_decide_eq_true. done.
Qed.

Lemma pairs_unique_insert (t : Table JobApplication) k a c j n :
  pairs_unique t →
  same_pair c j a = true →
  (∀ k' r, rows t !! k' = Some r → same_pair c j r = false) →
  pairs_unique (mkTable (<[k := a]> (rows t)) n).
Proof.
  intros Hu Ha Hfree c' j' k1 k2 a1 a2. cbn.
  rewrite !lookup_insert. repeat case_decide; subst; try done.
  - intros [= <-] H2 H1' H2'. exfalso.
    apply same_pair_spec in Ha as [Hc Hj]. apply same_pair_spec in H1' as [Hc' Hj'].
    assert (c' = c) as -> by congruence. assert (j' = j) as -> by congruence.
    apply Hfree in H2. congruence.
  - intros H1 [= <-] H1' H2'. exfalso.
    apply same_pair_spec in Ha as [Hc Hj]. apply same_pair_spec in H2' as [Hc' Hj'].
    assert (c' = c) as -> by congruence. assert (j' = j) as -> by congruence.
    apply Hfree in H1. congruence.
  - apply Hu.
Qed.

(** [createTimelineEvent] writes to [timelineEvents] only, whether it
    completes or fails. *)
Lemma createTimelineEvent_frame (ev : TimelineEvent) (w : World) :
  let d' := db (final (createTimelineEvent ev w)) in
  jobs d' = jobs (db w) ∧ candidates d' = candidates (db w)
  ∧ assessments d' = assessments (db w) ∧ notes d' = notes (db w)
  ∧ assessmentResponses d' = assessmentResponses (db w)
  ∧ jobApplications d' = jobApplications (db w).
Proof.
  unfold createTimelineEvent. rewrite final_bind, tbl_add_eq.
  destruct (tick w) as [[] w1|e w1] eqn:E.
  - apply tick_Ok in E. unfold added. cbn.
    destruct (ev_id _) as [k|]; [destruct (rows _ !! k)|]; cbn; by rewrite E.
  - apply tick_Fail in E as [-> _]. done.
Qed.

(** [createJobApplication] either leaves [jobApplications] as it was or
    stores the new application under one key. *)
Lemma createJobApplication_final (a : JobApplication) (w : World) :
  let t := jobApplications (db w) in
  let t' := jobApplications (db (final (createJobApplication a w))) in
  t' = t ∨ ∃ k, t' = mkTable (<[k := t_with_id T_jobApplications k
                                      (createJobApplication_factory a)]> (rows t))
                             (bump k (next t)).
Proof.
  unfold createJobApplication. rewrite final_bind, tbl_add_eq.
  destruct (tick w) as [[] w1|e w1] eqn:E.
  - apply tick_Ok in E. unfold added.
    set (app := createJobApplication_factory a).
    destruct (t_id T_jobApplications app) as [k|] eqn:Hid;
      [destruct (rows _ !! k)|]; cbn [final]; try (left; by rewrite E).
    + rewrite final_bind.
      match goal with |- context [createTimelineEvent ?ev ?w0] =>
        pose proof (createTimelineEvent_frame ev w0) as Hfr;
        destruct (createTimelineEvent ev w0) as [x w2|x w2] end;
        cbn in Hfr; destruct Hfr as (_ & _ & _ & _ & _ & Hfr);
        right; exists k; unfold mret, M_ret; cbn [final]; rewrite Hfr; cbn; by rewrite E.
    + rewrite final_bind.
      match goal with |- context [createTimelineEvent ?ev ?w0] =>
        pose proof (createTimelineEvent_frame ev w0) as Hfr;
        destruct (createTimelineEvent ev w0) as [x w2|x w2] end;
        cbn in Hfr; destruct Hfr as (_ & _ & _ & _ & _ & Hfr);
        right; exists (KNum (fresh_num (jobApplications (db w))));
        unfold mret, M_ret; cbn [final]; rewrite Hfr; cbn; by rewrite E.
  - apply tick_Fail in E as [-> _]. by left.
Qed.

(** C3, as stated, fails: two direct calls of [createJobApplication] for
    the same candidate and job, on the empty store where pairs are
    unique, leave two rows for the pair. *)
Lemma createJobApplication_duplicates_pair :
  unique_pairs empty_db
  ∧ ∃ a w', (createJobApplication application_7_1;;
             createJobApplication application_7_1) (world_of empty_db) = Ok a w'
            ∧ ¬ unique_pairs (db w').
Proof.
  split.
  - intros c j k1 k2 a1 a2 H. cbn in H. by rewrite lookup_empty in H.
  - eexists _, _. split; [reflexivity|].
    intros Hu.
    specialize (Hu (KNum 7) (KNum 1) (KNum 1) (KNum 2) _ _ eq_refl eq_refl eq_refl eq_refl).
    discriminate Hu.
Qed.

(** C3 (amended): the insert that checks keeps the pairs unique, and the
    insert that does not check keeps them unique when the pair is free.
    From a store with at most one application per [(candidateId, jobId)],
    the store [applyCandidateToJob] ends in, completed or failed, has at
    most one application per pair, for every list of declared indexes, the
    one of [TalentFlowDB] included; and so has the store
    [createJobApplication] ends in, provided no stored application has the
    pair of the new one.  [createJobApplication] makes no such check
    itself. *)
Theorem checked_inserts_keep_pairs_unique (w : World) :
  unique_pairs (db w) →
  (∀ declared candidateId jobId,
     unique_pairs (db (final (applyCandidateToJob_on declared candidateId jobId w))))
  ∧ (∀ applicationData,
       pair_free applicationData (db w) →
       unique_pairs (db (final (createJobApplication applicationData w)))).
Proof.
  intros Hu. split.
  - intros declared candidateId jobId.
    unfold applyCandidateToJob_on. rewrite final_bind.
    pose proof (step_tbl_get T_jobs jobId w) as H1.
    destruct (tbl_get T_jobs jobId w) as [job w1|e w1]; [|by rewrite H1].
    destruct H1 as [H1 _]. destruct job as [job|]; [|cbn; by rewrite H1].
    rewrite final_bind.
    pose proof (step_tbl_where_first (declaring declared T_jobApplications)
                  "[candidateId+jobId]" (same_pair candidateId jobId) w1) as H2.
    destruct (tbl_where_first _ _ _ w1) as [existing w2|e w2];
      [|cbn; by rewrite H2, H1].
    destruct H2 as (H2 & _ & Hex). destruct existing as [x|]; [cbn; by rewrite H2, H1|].
    symmetry in Hex. cbn in Hex. rewrite H1 in Hex.
    pose proof (where_first_None _ _ Hex) as Hfree.
    match goal with |- context [createJobApplication ?a w2] =>
      destruct (createJobApplication_final a w2) as [Hk|[k Hk]] end;
      cbn in Hk; unfold unique_pairs; rewrite Hk, H2, H1; [done|].
    eapply (pairs_unique_insert _ _ _ candidateId jobId); [done| |done].
    unfold same_pair. cbn. by rewrite !bool_decide_eq_true_2.
  - intros a Hfree.
    destruct (createJobApplication_final a w) as [Hk|[k Hk]];
      cbn zeta in Hk; unfold unique_pairs; rewrite Hk; [done|].
    intros c j k1 k2 a1 a2. cbn [rows]. rewrite !lookup_insert.
    repeat case_decide; subst; try done.
    + intros [= <-] H2 H1' H2'. exfalso.
      assert (same_pair c j a = true) as Ha by exact H1'.
      pose proof (Hfree c j k2 a2 Ha H2). congruence.
    + intros H1 [= <-] H1' H2'. exfalso.
      assert (same_pair c j a = true) as Ha by exact H2'.
      pose proof (Hfree c j k1 a1 Ha H1). congruence.
    + apply Hu.
Qed.

(** The theorem at work.  With the compound index declared,
    [applyCandidateToJob(10, 1)] on the store that has job 1 stores one
    application, and the same call again is turned down by the check;
    the pairs are unique after each.  On the schema as declared the call
    is rejected before it writes.  [createJobApplication], for a pair
    that is free, stores its row. *)
Lemma checked_inserts_keep_pairs_unique_witness :
  let w := world_of one_job_store in
  let w1 := final (applyCandidateToJob_on with_pair_index (KNum 10) (KNum 1) w) in
  let w2 := final (createJobApplication application_7_1 w) in
  unique_pairs (db w)
  ∧ (∃ app, applyCandidateToJob_on with_pair_index (KNum 10) (KNum 1) w = Ok app w1
            ∧ rows (jobApplications (db w1)) = {[ KNum 1 := app ]}
            ∧ same_pair (KNum 10) (KNum 1) app = true)
  ∧ unique_pairs (db w1)
  ∧ applyCandidateToJob_on with_pair_index (KNum 10) (KNum 1) w1 = Fail AlreadyApplied w1
  ∧ unique_pairs (db (final (applyCandidateToJob_on with_pair_index (KNum 10) (KNum 1) w1)))
  ∧ unique_pairs (db (final (applyCandidateToJob (KNum 10) (KNum 1) w)))
  ∧ pair_free application_7_1 (db w)
  ∧ (∃ app, createJobApplication application_7_1 w = Ok app w2
            ∧ rows (jobApplications (db w2)) = {[ KNum 1 := app ]}
            ∧ same_pair (KNum 7) (KNum 1) app = true)
  ∧ unique_pairs (db w2).
Proof.
  intros w w1 w2.
  assert (unique_pairs (db w)) as Hu.
  { intros c j k1 k2 a1 a2 H1. cbn in H1. by rewrite lookup_empty in H1. }
  assert (pair_free application_7_1 (db w)) as Hfree.
  { intros c j k r _ H1. cbn in H1. by rewrite lookup_empty in H1. }
  destruct (checked_inserts_keep_pairs_unique w Hu) as [Happly Hcreate].
  pose proof (Happly with_pair_index (KNum 10) (KNum 1)) as Hu1. fold w1 in Hu1.
  destruct (checked_inserts_keep_pairs_unique w1 Hu1) as [Happly1 _].
  split; [exact Hu|].
  split; [eexists; split; [reflexivity|]; split; reflexivity|].
  split; [exact Hu1|].
  split; [reflexivity|].
  split; [exact (Happly1 with_pair_index (KNum 10) (KNum 1))|].
  split; [exact (Happly (t_indexes T_jobApplications) (KNum 10) (KNum 1))|].
  split; [exact Hfree|].
  split; [eexists; split; [reflexivity|]; split; reflexivity|].
  exact (Hcreate application_7_1 Hfree).
Defined.

(** The key generator hands out a key that is free. *)
Lemma max_num_key_ge {R} (m : gmap key R) (n : Z) (r : R) :
  m !! KNum n = Some r → n ≤ max_num_key m.
Proof.
  intros H. apply elem_of_map_to_list in H. unfold max_num_key.
  induction (map_to_list m) as [|[k x] l IH]; [by apply elem_of_nil in H|].
  apply elem_of_cons in H as [[= <- <-]|H]; cbn.
  - lia.
  - specialize (IH H). destruct k; cbn; lia.
Qed.

Lemma fresh_num_free {R} (t : Table R) : rows t !! KNum (fresh_num t) = None.
Proof.
  destruct (rows t !! KNum (fresh_num t)) as [r|] eqn:E; [|done].
  apply max_num_key_ge in E. unfold fresh_num in E. lia.
Qed.

Lemma where_first_None_2 {R} (t : Table R) (hit : R → bool) :
  (∀ k r, rows t !! k = Some r → hit r = false) →
  head (filter (λ r, hit r = true) (table_list t)) = None.
Proof.
  intros H. destruct (head _) as [r|] eqn:E; [|done].
  apply where_first_Some in E as [Hr [k Hk]]. apply H in Hk. congruence.
Qed.

Lemma where_first_Some_2 {R} (t : Table R) (hit : R → bool) (k : key) (r : R) :
  rows t !! k = Some r → hit r = true →
  is_Some (head (filter (λ r, hit r = true) (table_list t))).
Proof.
  intros Hk Hr. destruct (head _) as [x|] eqn:E; [by eexists|].
  pose proof (where_first_None _ _ E _ _ Hk). congruence.
Qed.

(** ** [applyCandidateToJob] *)

(** The job does not resolve: ['Job not found'], nothing written. *)
Lemma applyCandidateToJob_job_missing declared (candidateId jobId : key) (w : World) :
  fuse w = None → rows (jobs (db w)) !! jobId = None →
  applyCandidateToJob_on declared candidateId jobId w = Fail JobNotFound w.
Proof.
  intros Hf Hj. unfold applyCandidateToJob_on.
  rewrite bind_run, tbl_get_quiet by done. cbn. by rewrite Hj.
Qed.

(** The job resolves: the duplicate check queries the index
    [[candidateId+jobId]], which [stores()] does not declare for
    [jobApplications] (database.js:23), and the query is rejected. *)
Lemma applyCandidateToJob_query_rejected (candidateId jobId : key) (w : World) (job : Job) :
  fuse w = None → rows (jobs (db w)) !! jobId = Some job →
  applyCandidateToJob candidateId jobId w
  = Fail (SchemaError "jobApplications" "[candidateId+jobId]") w.
Proof.
  intros Hf Hj. unfold applyCandidateToJob, applyCandidateToJob_on.
  rewrite bind_run, tbl_get_quiet by done. cbn. rewrite Hj.
  unfold tbl_where_first. rewrite !bind_run, tick_quiet by done. reflexivity.
Qed.

(** Had the schema declared the index, the method would behave as
    specified: a stored application for the pair is reported ... *)
Lemma applyCandidateToJob_indexed_duplicate declared (candidateId jobId : key)
    (w : World) (job : Job) (k : key) (a : JobApplication) :
  fuse w = None → "[candidateId+jobId]" ∈ declared →
  rows (jobs (db w)) !! jobId = Some job →
  rows (jobApplications (db w)) !! k = Some a → same_pair candidateId jobId a = true →
  applyCandidateToJob_on declared candidateId jobId w = Fail AlreadyApplied w.
Proof.
  intros Hf Hd Hj Hk Ha. unfold applyCandidateToJob_on.
  rewrite bind_run, tbl_get_quiet by done. cbn. rewrite Hj.
  rewrite bind_run, tbl_where_first_quiet by (done || by apply bool_decide_eq_true_2).
  cbn. by destruct (where_first_Some_2 _ _ _ _ Hk Ha) as [x ->].
Qed.

(** ... and otherwise one application with status ["applied"] is stored
    under a fresh key, and one [job_application] event of the candidate is
    appended. *)
Lemma applyCandidateToJob_indexed_fresh declared (candidateId jobId : key)
    (w : World) (job : Job) :
  fuse w = None → "[candidateId+jobId]" ∈ declared →
  rows (jobs (db w)) !! jobId = Some job →
  (∀ k a, rows (jobApplications (db w)) !! k = Some a → same_pair candidateId jobId a = false) →
  let ka := KNum (fresh_num (jobApplications (db w))) in
  let ke := KNum (fresh_num (timelineEvents (db w))) in
  ∃ app ev w',
    applyCandidateToJob_on declared candidateId jobId w = Ok app w'
    ∧ app = mkApplication (Some ka) (Some candidateId) (Some jobId) (job_title job)
                          "applied" "" None None
    ∧ rows (jobApplications (db w)) !! ka = None
    ∧ rows (jobApplications (db w')) = <[ka := app]> (rows (jobApplications (db w)))
    ∧ rows (timelineEvents (db w)) !! ke = None
    ∧ rows (timelineEvents (db w')) = <[ke := ev]> (rows (timelineEvents (db w)))
    ∧ ev_type ev = "job_application" ∧ ev_candidateId ev = Some candidateId.
Proof.
  intros Hf Hd Hj Hfree ka ke. unfold applyCandidateToJob_on.
  rewrite bind_run, tbl_get_quiet by done. cbn. rewrite Hj.
  rewrite bind_run, tbl_where_first_quiet by (done || by apply bool_decide_eq_true_2).
  cbn. rewrite (where_first_None_2 _ _ Hfree).
  unfold createJobApplication. rewrite bind_run, tbl_add_quiet by done.
  cbn. unfold createTimelineEvent. rewrite !bind_run, tbl_add_quiet by done.
  cbn. eexists _, _, _. split; [reflexivity|].
  split; [reflexivity|]. split; [apply fresh_num_free|].
  split; [reflexivity|]. split; [apply fresh_num_free|].
  split; [reflexivity|]. split; reflexivity.
Qed.

(** C5 (the code departs from the claim): job 1 exists and candidate 10
    has no application for it, yet [applyCandidateToJob(10, 1)] fails: the
    duplicate check is rejected with a schema error, and no application and
    no timeline event is written. *)
Theorem applyCandidateToJob_fails_on_declared_schema :
  is_Some (rows (jobs one_job_store) !! KNum 1)
  ∧ rows (jobApplications one_job_store) = ∅
  ∧ applyCandidateToJob (KNum 10) (KNum 1) (world_of one_job_store)
    = Fail (SchemaError "jobApplications" "[candidateId+jobId]") (world_of one_job_store).
Proof. split; [by eexists|]. split; reflexivity. Qed.

(** ** Stage changes on the timeline *)

Lemma truthy_str_true (s : string) : s ≠ "" → truthy_str s = true.
Proof. intros H. unfold truthy_str. by apply negb_true_iff, String.eqb_neq. Qed.

Lemma updateCandidate_quiet (id : key) (updates : CandidatePatch) (w : World) :
  fuse w = None →
  updateCandidate id updates w
  = Ok (rows (candidates (db (candidate_updated id updates w))) !! id)
       (candidate_updated id updates w).
Proof.
  intros Hf. unfold updateCandidate, candidate_updated.
  rewrite bind_run, tbl_get_quiet by done.
  rewrite bind_run, tbl_update_quiet by done.
  pose proof (fuse_was_updated T_candidates id updates w) as Hu.
  cbn [t_view T_candidates] in *.
  destruct (stage_changes updates (rows (candidates (db w)) !! id)) as [s|].
  - unfold createTimelineEvent. rewrite !bind_run, tbl_add_quiet by congruence.
    cbn [added t_id T_timelineEvents createTimelineEvent_factory stage_event ev_id].
    unfold mret, M_ret. rewrite tbl_get_quiet by (cbn; congruence). reflexivity.
  - rewrite bind_run. unfold mret, M_ret. rewrite tbl_get_quiet by congruence.
    reflexivity.
Qed.

Lemma fuse_candidate_updated id updates w :
  fuse (candidate_updated id updates w) = fuse w.
Proof.
  unfold candidate_updated.
  destruct (stage_changes _ _); cbn; apply (fuse_was_updated T_candidates).
Qed.

(** [was_updated] on [candidates] leaves the timeline alone. *)
Lemma timeline_was_updated id updates w :
  timelineEvents (db (was_updated T_candidates id updates w)) = timelineEvents (db w).
Proof. unfold was_updated. destruct (rows _ !! id); [|done]. by case_decide. Qed.

(** What one call of [updateCandidate] does to the timeline: one event,
    under a fresh key, when the stage test passes, and nothing otherwise. *)
Lemma timeline_candidate_updated (id : key) (updates : CandidatePatch) (w : World) :
  let old := rows (candidates (db w)) !! id in
  let t := timelineEvents (db w) in
  rows (timelineEvents (db (candidate_updated id updates w)))
  = match stage_changes updates old with
    | Some s =>
        <[KNum (fresh_num t) :=
            t_with_id T_timelineEvents (KNum (fresh_num t))
                      (stage_event id (stage_of old) s)]> (rows t)
    | None => rows t
    end.
Proof.
  cbn zeta. unfold candidate_updated.
  destruct (stage_changes _ _) as [s|]; cbn; by rewrite timeline_was_updated.
Qed.

(** C10: an id that resolves to no candidate, and a patch that sets a
    stage: [updateCandidate] raises nothing and returns [undefined]; the
    [candidates] table is unchanged; one [stage_change] event that
    references the missing candidate, with [fromStage] undefined, is
    appended. *)
Theorem updateCandidate_missing_candidate
    (id : key) (updates : CandidatePatch) (s : string) (w : World) :
  fuse w = None →
  rows (candidates (db w)) !! id = None →
  cp_stage updates = Some s → s ≠ "" →
  let ke := KNum (fresh_num (timelineEvents (db w))) in
  ∃ w', updateCandidate id updates w = Ok None w'
        ∧ candidates (db w') = candidates (db w)
        ∧ rows (timelineEvents (db w)) !! ke = None
        ∧ rows (timelineEvents (db w'))
          = <[ke := mkEvent (Some ke) (Some id) "stage_change"
                            ("Stage Changed to " +:+ s)
                            ("Candidate moved from undefined to " +:+ s)
                            [("fromStage", MUndefined); ("toStage", MStr s)] None]>
              (rows (timelineEvents (db w))).
Proof.
  intros Hf Hid Hs Hne ke. eexists. rewrite updateCandidate_quiet by done.
  assert (stage_changes updates None = Some s) as Hch.
  { unfold stage_changes. rewrite Hs, truthy_str_true by done. reflexivity. }
  assert (candidates (db (candidate_updated id updates w)) = candidates (db w)) as Hc.
  { unfold candidate_updated, was_updated. cbn [t_view T_candidates].
    rewrite Hid, Hch. reflexivity. }
  rewrite Hc, Hid. split; [reflexivity|]. split; [done|].
  split; [apply fresh_num_free|].
  rewrite timeline_candidate_updated, Hid, Hch. reflexivity.
Qed.

(** Candidate 77 is not in the sample store; the patch moves it to
    "screen". *)
Lemma updateCandidate_missing_candidate_witness :
  let w := world_of one_job_store in
  let updates := mkCandidatePatch None None (Some "screen") None None in
  fuse w = None
  ∧ rows (candidates (db w)) !! KNum 77 = None
  ∧ cp_stage updates = Some "screen" ∧ "screen" ≠ ""
  ∧ ∃ w', updateCandidate (KNum 77) updates w = Ok None w'
          ∧ candidates (db w') = candidates (db w)
          ∧ rows (timelineEvents (db w)) !! KNum 1 = None
          ∧ rows (timelineEvents (db w'))
            = <[KNum 1 := mkEvent (Some (KNum 1)) (Some (KNum 77)) "stage_change"
                            "Stage Changed to screen"
                            "Candidate moved from undefined to screen"
                            [("fromStage", MUndefined); ("toStage", MStr "screen")] None]>
                (rows (timelineEvents (db w))).
Proof.
  intros w updates.
  split; [reflexivity|]. split; [reflexivity|]. split; [reflexivity|].
  split; [discriminate|].
  apply (updateCandidate_missing_candidate (KNum 77) updates "screen" w);
    [reflexivity | reflexivity | reflexivity | discriminate].
Defined.

Lemma stage_change_count_insert (cid k : key) (e : TimelineEvent)
    (m : gmap key TimelineEvent) :
  m !! k = None →
  size (filter (λ kr : key * TimelineEvent, is_stage_change_of cid kr.2) (<[k := e]> m))
  = ((if bool_decide (is_stage_change_of cid e) then 1 else 0)
     + size (filter (λ kr : key * TimelineEvent, is_stage_change_of cid kr.2) m))%nat.
Proof.
  intros Hk. case_bool_decide as He.
  - rewrite map_filter_insert_True by done.
    rewrite map_size_insert_None; [done|].
    apply map_lookup_filter_None. by left.
  - rewrite map_filter_insert_False by done. by rewrite delete_id.
Qed.

Lemma createTimelineEvent_quiet (ev : TimelineEvent) (w : World) :
  fuse w = None → ev_id ev = None →
  let ke := KNum (fresh_num (timelineEvents (db w))) in
  createTimelineEvent ev w
  = Ok (t_with_id T_timelineEvents ke ev) (inserted T_timelineEvents ke ev w).
Proof.
  intros Hf Hid ke. unfold createTimelineEvent.
  rewrite bind_run, tbl_add_quiet by done. unfold added, createTimelineEvent_factory.
  change (t_id T_timelineEvents ev) with (ev_id ev). by rewrite Hid.
Qed.

(** Storing a candidate leaves the timeline alone, and the stored row has
    the stage of the object. *)
Lemma put_or_add_candidate_frame (obj : Candidate) (w wa : World) (id : key) :
  fuse w = None → put_or_add T_candidates obj w = Ok id wa →
  fuse wa = None ∧ timelineEvents (db wa) = timelineEvents (db w)
  ∧ ∃ r, rows (candidates (db wa)) !! id = Some r ∧ cand_stage r = cand_stage obj.
Proof.
  intros Hf. unfold put_or_add.
  destruct (t_id T_candidates obj) as [k|] eqn:Hid; [destruct (key_truthy k)|].
  - rewrite tbl_put_quiet by done. unfold was_put. rewrite Hid.
    destruct (rows _ !! k); intros [= <- <-]; (split; [done|]); (split; [done|]);
      eexists; (split; [cbn; apply lookup_insert_eq|reflexivity]).
  - rewrite tbl_add_quiet by done. unfold added. rewrite Hid.
    destruct (rows _ !! k); [done|]. intros [= <- <-]. split; [done|]. split; [done|].
    eexists. split; [cbn; apply lookup_insert_eq|reflexivity].
  - rewrite tbl_add_quiet by done. unfold added. rewrite Hid.
    intros [= <- <-]. split; [done|]. split; [done|].
    eexists. split; [cbn; apply lookup_insert_eq|reflexivity].
Qed.

(** The [candidates] rows after one [update]: the row is the patched one,
    also when the patch changed nothing. *)
Lemma candidates_was_updated (id : key) (updates : CandidatePatch) (w : World) :
  rows (candidates (db (was_updated T_candidates id updates w)))
  = match rows (candidates (db w)) !! id with
    | Some r => <[id := patch_candidate updates r]> (rows (candidates (db w)))
    | None => rows (candidates (db w))
    end.
Proof.
  unfold was_updated. cbn [t_view T_candidates].
  destruct (rows (candidates (db w)) !! id) as [r|] eqn:Hr; [|done].
  change (t_patch T_candidates updates r) with (patch_candidate updates r).
  case_decide as Hsame; [|done]. by rewrite Hsame, insert_id.
Qed.

Lemma candidates_candidate_updated (id : key) (updates : CandidatePatch) (w : World) :
  rows (candidates (db (candidate_updated id updates w)))
  = match rows (candidates (db w)) !! id with
    | Some r => <[id := patch_candidate updates r]> (rows (candidates (db w)))
    | None => rows (candidates (db w))
    end.
Proof.
  unfold candidate_updated.
  destruct (stage_changes _ _); cbn; apply candidates_was_updated.
Qed.

(** A history of [updateCandidate] calls on a store that holds candidate
    [cid]: every call completes and logs what its test selects, and the
    events of [cid] grow by what the calls tell. *)
Lemma run_updates_counted (cid : key) (calls : list (key * CandidatePatch))
    (r : Candidate) (w : World) :
  fuse w = None → rows (candidates (db w)) !! cid = Some r →
  ∃ w2, run_updates calls w = Ok () w2
        ∧ each_update_logged calls w
        ∧ stage_change_count cid (db w2)
          = (stage_change_count cid (db w) + logged_changes cid (cand_stage r) calls)%nat.
Proof.
  revert r w. induction calls as [|[id updates] rest IH]; intros r w Hf Hr.
  { exists w. cbn. split; [done|]. split; [done|]. lia. }
  cbn [run_updates logged_changes each_update_logged].
  rewrite bind_run, updateCandidate_quiet by done. cbn [final].
  set (w' := candidate_updated id updates w).
  assert (fuse w' = None) as Hf' by (unfold w'; by rewrite fuse_candidate_updated).
  pose proof (timeline_candidate_updated id updates w) as Ht. cbn zeta in Ht. fold w' in Ht.
  pose proof (candidates_candidate_updated id updates w) as Hc. fold w' in Hc.
  assert (∃ r', rows (candidates (db w')) !! cid = Some r'
                ∧ cand_stage r'
                  = if bool_decide (id = cid) then default (cand_stage r) (cp_stage updates)
                    else cand_stage r) as (r' & Hr' & Hstage).
  { rewrite Hc. case_bool_decide as Hid.
    - subst id. rewrite Hr, lookup_insert_eq. eexists. split; [reflexivity|]. reflexivity.
    - destruct (rows (candidates (db w)) !! id); [rewrite lookup_insert_ne by done|]; eauto. }
  destruct (IH r' w' Hf' Hr') as (w2 & Hrun & Hlog & Hcount).
  exists w2. split; [done|]. split; [split; [exact Ht|exact Hlog]|].
  rewrite Hcount, Hstage. unfold stage_change_count at 1. rewrite Ht.
  case_bool_decide as Hid.
  - subst id. rewrite Hr. unfold stage_changes. cbn [stage_of fmap option_fmap option_map].
    destruct (cp_stage updates) as [s|]; cbn [default from_option Datatypes.id];
      [|unfold stage_change_count; lia].
    assert (bool_decide (Some s = Some (cand_stage r)) = String.eqb s (cand_stage r)) as ->.
    { destruct (String.eqb_spec s (cand_stage r)) as [->|Hne];
        [by apply bool_decide_eq_true_2|apply bool_decide_eq_false_2; congruence]. }
    destruct (truthy_str s && negb (s =? cand_stage r)%string);
      [|unfold stage_change_count; lia].
    rewrite stage_change_count_insert by apply fresh_num_free.
    rewrite bool_decide_eq_true_2 by (by split). unfold stage_change_count. lia.
  - destruct (stage_changes _ _) as [s|]; [|unfold stage_change_count; lia].
    rewrite stage_change_count_insert by apply fresh_num_free.
    rewrite bool_decide_eq_false_2; [unfold stage_change_count; lia|].
    intros [_ Hc']. cbn in Hc'. congruence.
Qed.

(** C9, as stated, fails in two ways.  A second [createCandidate] with an
    id that the caller supplies replaces the candidate and appends a
    second "Application Submitted" event: two events after no update.
    And a patch whose stage is the empty string differs from the stored
    stage, and is stored, but logs nothing: the test at database.js:333
    asks [updates.stage] to be truthy. *)
Lemma stage_change_events_miscounted :
  (∃ c w2, (createCandidate ada_5;; createCandidate ada_5) (world_of empty_db) = Ok c w2
           ∧ cand_id c = Some (KNum 5)
           ∧ size (rows (candidates (db w2))) = 1%nat
           ∧ stage_change_count (KNum 5) (db w2) = 2%nat)
  ∧ (∃ c w1 r w2,
       createCandidate ada (world_of empty_db) = Ok c w1
       ∧ cand_id c = Some (KNum 1) ∧ cand_stage c = "applied"
       ∧ updateCandidate (KNum 1) (to_stage "") w1 = Ok (Some r) w2
       ∧ cand_stage r = ""
       ∧ stage_change_count (KNum 1) (db w2) = 1%nat).
Proof.
  split.
  - eexists _, _. split; [vm_compute; reflexivity|]. split; [reflexivity|].
    split; reflexivity.
  - eexists _, _, _, _. split; [vm_compute; reflexivity|]. split; [reflexivity|].
    split; [reflexivity|]. split; [vm_compute; reflexivity|]. split; reflexivity.
Qed.

(** C9 (amended): [createCandidate] appends exactly one [stage_change]
    event, titled "Application Submitted", to whatever the timeline held
    for the id; every later [updateCandidate] call completes and appends
    exactly one [stage_change] event, recording the stage read before the
    update and the new stage, when its patch carries a stage that is not
    empty and differs from the stored one, and none otherwise.  So the
    number of [stage_change] events that reference the candidate is the
    number before the creation, plus 1, plus the number of calls on the
    candidate whose stage is not empty and differs from the stage the
    candidate had then: the stage of the creation at first, and after a
    patch with a stage, that stage. *)
Theorem stage_change_events_counted
    (candidateData : Candidate) (calls : list (key * CandidatePatch))
    (w w1 : World) (c : Candidate) (cid : key) :
  fuse w = None →
  createCandidate candidateData w = Ok c w1 →
  cand_id c = Some cid →
  let t := timelineEvents (db w) in
  rows (timelineEvents (db w1))
  = <[KNum (fresh_num t) :=
        mkEvent (Some (KNum (fresh_num t))) (Some cid) "stage_change"
                "Application Submitted" "Candidate applied for the position"
                [("stage", MStr (cand_stage c))] None]> (rows t)
  ∧ rows t !! KNum (fresh_num t) = None
  ∧ stage_change_count cid (db w1) = (stage_change_count cid (db w) + 1)%nat
  ∧ (∃ r, rows (candidates (db w1)) !! cid = Some r ∧ cand_stage r = cand_stage c)
  ∧ ∃ w2, run_updates calls w1 = Ok () w2
          ∧ each_update_logged calls w1
          ∧ stage_change_count cid (db w2)
            = (stage_change_count cid (db w) + 1
               + logged_changes cid (cand_stage c) calls)%nat.
Proof.
  intros Hf Hrun Hid t. subst t. unfold createCandidate in Hrun.
  apply bind_Ok_inv in Hrun as (id & wa & Hput & Hrun).
  apply bind_Ok_inv in Hrun as (e & wb & Hev & Hret).
  injection Hret as <- <-. cbn in Hid. injection Hid as ->.
  destruct (put_or_add_candidate_frame _ _ _ _ Hf Hput) as (Hfa & Hta & r & Hr & Hstage).
  rewrite createTimelineEvent_quiet in Hev by done. injection Hev as _ <-.
  set (w1 := inserted T_timelineEvents (KNum (fresh_num (timelineEvents (db wa))))
               (submitted_event cid (cand_stage (createCandidate_factory candidateData))) wa).
  assert (rows (timelineEvents (db w1))
          = <[KNum (fresh_num (timelineEvents (db w))) :=
                mkEvent (Some (KNum (fresh_num (timelineEvents (db w))))) (Some cid)
                        "stage_change"
                        "Application Submitted" "Candidate applied for the position"
                        [("stage", MStr (cand_stage (createCandidate_factory candidateData)))]
                        None]> (rows (timelineEvents (db w)))) as Ht.
  { cbn. by rewrite Hta. }
  split; [exact Ht|]. split; [apply fresh_num_free|].
  assert (stage_change_count cid (db w1) = (stage_change_count cid (db w) + 1)%nat) as H1.
  { unfold stage_change_count. rewrite Ht.
    rewrite stage_change_count_insert by apply fresh_num_free.
    rewrite bool_decide_eq_true_2; [lia|]. by split. }
  split; [exact H1|].
  assert (rows (candidates (db w1)) !! cid = Some r) as Hr1 by exact Hr.
  split; [by exists r|].
  destruct (run_updates_counted cid calls r w1 Hfa Hr1) as (w2 & Hr2 & Hlog & Hcount).
  exists w2. split; [exact Hr2|]. split; [exact Hlog|].
  rewrite Hcount, H1, Hstage. reflexivity.
Qed.

(** The history of Ada: created, then four updates of which two change
    the stage; three [stage_change] events in the end. *)
Lemma stage_change_events_counted_witness :
  let w := world_of empty_db in
  let w1 := final (createCandidate ada w) in
  let c := mkCandidate (Some (KNum 1)) "Ada" "ada@example.com" "applied" None None None in
  fuse w = None
  ∧ createCandidate ada w = Ok c w1
  ∧ cand_id c = Some (KNum 1)
  ∧ rows (timelineEvents (db w1))
    = <[KNum 1 := mkEvent (Some (KNum 1)) (Some (KNum 1)) "stage_change"
                    "Application Submitted" "Candidate applied for the position"
                    [("stage", MStr "applied")] None]> ∅
  ∧ stage_change_count (KNum 1) (db w1) = 1%nat
  ∧ ∃ w2, run_updates ada_history w1 = Ok () w2
          ∧ each_update_logged ada_history w1
          ∧ stage_change_count (KNum 1) (db w2) = 3%nat.
Proof.
  intros w w1 c.
  split; [reflexivity|]. split; [reflexivity|]. split; [reflexivity|].
  destruct (stage_change_events_counted ada ada_history w w1 c (KNum 1)
              eq_refl eq_refl eq_refl) as (Ht & _ & H1 & _ & w2 & Hrun & Hlog & Hcount).
  split; [exact Ht|]. split; [exact H1|].
  exists w2. split; [exact Hrun|]. split; [exact Hlog|exact Hcount].
Defined.

(** ** Slugs *)

Lemma elem_of_stored_slugs (t : Table Job) (s : string) :
  s ∈ stored_slugs t ↔ ∃ k j, rows t !! k = Some j ∧ job_slug j = s.
Proof.
  unfold stored_slugs. rewrite list_elem_of_fmap. split.
  - intros (j & -> & Hj). apply elem_of_table_list in Hj as [k Hk]. eauto.
  - intros (k & j & Hk & <-). exists j. split; [done|]. apply elem_of_table_list. eauto.
Qed.

Lemma length_stored_slugs (t : Table Job) : length (stored_slugs t) = size (rows t).
Proof.
  unfold stored_slugs, table_list. rewrite !length_fmap.
  rewrite merge_sort_Permutation. by rewrite length_map_to_list.
Qed.

Lemma isSlugUnique_quiet (slug : string) (w : World) :
  fuse w = None →
  isSlugUnique slug None w = Ok (bool_decide (slug ∉ stored_slugs (jobs (db w)))) w.
Proof.
  intros Hf. unfold isSlugUnique.
  rewrite bind_run, tbl_where_first_quiet by done. cbn [t_view T_jobs].
  unfold mret, M_ret. f_equal.
  destruct (head _) as [j|] eqn:E.
  - apply where_first_Some in E as [Hj [k Hk]]. apply String.eqb_eq in Hj.
    rewrite bool_decide_eq_false_2; [done|]. intros Hn. apply Hn.
    apply elem_of_stored_slugs. eauto.
  - rewrite bool_decide_eq_true_2; [done|]. intros Hin.
    apply elem_of_stored_slugs in Hin as (k & j & Hk & Hs).
    pose proof (where_first_None _ _ E _ _ Hk) as Hno. cbn in Hno.
    apply String.eqb_neq in Hno. done.
Qed.

Lemma numbered_inj (baseSlug : string) : Inj (=) (=) (numbered baseSlug).
Proof.
  intros a b H. unfold numbered in H.
  apply (inj (String.app baseSlug)) in H. apply (inj (String.app "-")) in H.
  by apply (inj pretty) in H.
Qed.

(** The loop returns the first probe that is not stored, when there is one
    within the budget. *)
Lemma probe_slug_first_free (budget : nat) (baseSlug : string) (counter : N)
    (slug : string) (w : World) :
  fuse w = None →
  (∃ i, (i < budget)%nat ∧ (probe_at baseSlug slug counter i ∉ stored_slugs (jobs (db w)))) →
  ∃ i, (i < budget)%nat
       ∧ probe_slug budget baseSlug counter slug w = Ok (probe_at baseSlug slug counter i) w
       ∧ (probe_at baseSlug slug counter i ∉ stored_slugs (jobs (db w)))
       ∧ ∀ i', (i' < i)%nat → probe_at baseSlug slug counter i' ∈ stored_slugs (jobs (db w)).
Proof.
  intros Hf. revert counter slug.
  induction budget as [|b IH]; intros counter slug (i0 & Hi0 & Hfree); [lia|].
  cbn [probe_slug]. rewrite bind_run, isSlugUnique_quiet by done.
  case_bool_decide as Hs.
  - exists 0%nat. split; [lia|]. split; [done|]. split; [done|]. intros; lia.
  - destruct i0 as [|i0]; [done|].
    destruct (IH (counter + 1)%N (baseSlug +:+ "-" +:+ pretty counter)) as (i & Hi & Hrun & Hnot & Hbefore).
    { exists i0. split; [lia|]. destruct i0 as [|i0]; cbn in *.
      - by rewrite N.add_0_r in Hfree.
      - by replace (counter + 1 + N.of_nat i0)%N with (counter + N.pos (Pos.of_succ_nat i0))%N by lia. }
    assert (∀ j, probe_at baseSlug (baseSlug +:+ "-" +:+ pretty counter) (counter + 1) j
                 = probe_at baseSlug slug counter (S j)) as Hshift.
    { intros [|j]; cbn.
      - by rewrite N.add_0_r.
      - unfold numbered. do 3 f_equal. lia. }
    exists (S i). split; [lia|]. rewrite Hrun, <- Hshift. split; [done|]. split; [done|].
    intros [|i'] Hlt; [done|]. rewrite <- Hshift. apply Hbefore. lia.
Qed.

(** Among the first [n + 1] numbered slugs one is not stored when [n] jobs
    are stored. *)
Lemma numbered_free_exists (baseSlug : string) (t : Table Job) :
  ∃ i, (i ≤ size (rows t))%nat
       ∧ (numbered baseSlug (1 + N.of_nat i) ∉ stored_slugs t).
Proof.
  set (cands := (λ i, numbered baseSlug (1 + N.of_nat i)) <$> seq 0 (S (size (rows t)))).
  destruct (decide (Forall (λ s, s ∈ stored_slugs t) cands)) as [Hall|Hnot].
  - exfalso.
    assert (NoDup cands) as Hnd.
    { apply NoDup_fmap_2; [|apply NoDup_seq].
      intros a b H. apply numbered_inj in H. lia. }
    assert (cands ⊆+ stored_slugs t) as Hsub.
    { apply NoDup_submseteq; [done|]. by apply Forall_forall. }
    apply submseteq_length in Hsub.
    rewrite length_stored_slugs in Hsub. unfold cands in Hsub.
    rewrite length_fmap, length_seq in Hsub. lia.
  - apply not_Forall_Exists in Hnot; [|apply _].
    apply Exists_exists in Hnot as (s & Hin & Hs).
    apply list_elem_of_fmap in Hin as (i & -> & Hi).
    apply elem_of_seq in Hi. exists i. split; [lia|done].
Qed.

(** The budget of [createJob] is never exhausted: whatever slug the loop
    starts from, it returns within [2 + n] probes when [n] jobs are
    stored. *)
Lemma probe_slug_budget_suffices (slug0 : string) (w : World) :
  fuse w = None →
  ∃ s, probe_slug (2 + size (rows (jobs (db w)))) slug0 1 slug0 w = Ok s w.
Proof.
  intros Hf.
  destruct (probe_slug_first_free (2 + size (rows (jobs (db w)))) slug0 1 slug0 w Hf)
    as (i & _ & Hrun & _).
  - destruct (numbered_free_exists slug0 (jobs (db w))) as (i & Hi & Hfree).
    exists (S i). split; [lia|]. exact Hfree.
  - eauto.
Qed.

Lemma generateSlug_title_truthy (title : string) :
  generateSlug title ≠ "" → truthy_str title = true.
Proof. intros H. destruct title; [done|reflexivity]. Qed.

(** Storing an object whose id, if it has one, is not in use. *)
Lemma put_or_add_new (obj : Job) (w : World) :
  fuse w = None → new_id obj w →
  ∃ k, rows (jobs (db w)) !! k = None
       ∧ put_or_add T_jobs obj w = Ok k (inserted T_jobs k obj w).
Proof.
  intros Hf Hnew. unfold put_or_add, new_id in *.
  change (t_id T_jobs obj) with (job_id obj).
  destruct (job_id obj) as [k|] eqn:Hid; [destruct (key_truthy k)|].
  - exists k. split; [done|]. rewrite tbl_put_quiet by done. unfold was_put.
    change (t_id T_jobs obj) with (job_id obj). cbn [t_view T_jobs]. by rewrite Hid, Hnew.
  - exists k. split; [done|]. rewrite tbl_add_quiet by done. unfold added.
    change (t_id T_jobs obj) with (job_id obj). cbn [t_view T_jobs]. by rewrite Hid, Hnew.
  - exists (KNum (fresh_num (jobs (db w)))). split; [apply fresh_num_free|].
    rewrite tbl_add_quiet by done. unfold added.
    change (t_id T_jobs obj) with (job_id obj). by rewrite Hid.
Qed.

(** One call of [createJob] with a title and no slug, that stores a new
    job: the slug is the first of [base], [base-1], [base-2], ... that no
    stored job has. *)
Lemma createJob_quiet (jobData : Job) (w : World) :
  fuse w = None → job_slug jobData = "" → new_id jobData w →
  generateSlug (job_title jobData) ≠ "" →
  let base := generateSlug (job_title jobData) in
  let before := stored_slugs (jobs (db w)) in
  ∃ i job w',
    createJob jobData w = Ok job w'
    ∧ fuse w' = None
    ∧ job_slug job = probe_at base base 1 i
    ∧ (job_slug job ∉ before)
    ∧ (∀ i', (i' < i)%nat → probe_at base base 1 i' ∈ before)
    ∧ (∀ s, s ∈ stored_slugs (jobs (db w')) ↔ s = job_slug job ∨ s ∈ before).
Proof.
  intros Hf Hslug Hid Hbase base before. unfold createJob.
  rewrite Hslug, (generateSlug_title_truthy _ Hbase). cbn [truthy_str String.eqb negb andb].
  fold base. rewrite (truthy_str_true base Hbase).
  destruct (probe_slug_first_free (2 + size (rows (jobs (db w)))) base 1 base w Hf)
    as (i & Hi & Hrun & Hfree & Hbefore).
  { destruct (numbered_free_exists base (jobs (db w))) as (i & Hi & Hfree).
    exists (S i). split; [lia|]. exact Hfree. }
  set (s := probe_at base base 1 i) in *.
  rewrite !bind_run. unfold gets at 1. cbn [table_of t_view T_jobs].
  rewrite Hrun.
  destruct (put_or_add_new (createJob_factory (with_slug s jobData)) w Hf)
    as (knew & Hknew & Hput); [exact Hid|].
  rewrite bind_run, Hput. eexists i, _, _. split; [reflexivity|].
  split; [done|]. split; [reflexivity|]. split; [exact Hfree|]. split; [exact Hbefore|].
  intros s'. rewrite !elem_of_stored_slugs. cbn [inserted db set_db db_insert t_store t_view T_jobs jobs rows].
  split.
  - intros (k & j & Hk & Hj). rewrite lookup_insert in Hk. case_decide.
    + injection Hk as <-. left. by rewrite <- Hj.
    + right. apply elem_of_stored_slugs. eauto.
  - intros [-> | Hin].
    + eexists _, _. split; [apply lookup_insert_eq|]. reflexivity.
    + apply elem_of_stored_slugs in Hin as (k & j & Hk & Hj).
      exists k, j. split; [|done]. rewrite lookup_insert_ne; [done|].
      intros <-. congruence.
Qed.

Lemma app_cons (a : ascii) (s t : string) : String a s +:+ t = String a (s +:+ t).
Proof. reflexivity. Qed.

Lemma app_empty_r (s : string) : s +:+ "" = s.
Proof. induction s as [|a s IH]; [done|]. by rewrite app_cons, IH. Qed.

Lemma strip_prefix_app (p s : string) : strip_prefix p (p +:+ s) = Some s.
Proof.
  induction p as [|a p IH]; [done|]. rewrite app_cons. cbn [strip_prefix].
  by rewrite Ascii.eqb_refl.
Qed.

Lemma pretty_N_char_digit (x : N) : is_digit (pretty_N_char x) = true.
Proof.
  assert (x = 0 ∨ x = 1 ∨ x = 2 ∨ x = 3 ∨ x = 4 ∨ x = 5 ∨ x = 6 ∨ x = 7 ∨ x = 8
          ∨ 9 ≤ x)%N as H by lia.
  destruct H as [->|[->|[->|[->|[->|[->|[->|[->|[->|H]]]]]]]]]; try reflexivity.
  destruct x as [|[[[[]|[]|]|[[]|[]|]|]|[[[]|[]|]|[[]|[]|]|]|]]; try reflexivity; lia.
Qed.

Lemma pretty_N_go_digits (x : N) (s : string) :
  all_digits s = true → all_digits (pretty_N_go x s) = true.
Proof.
  revert s. induction (N.lt_wf_0 x) as [x _ IH]; intros s Hs.
  destruct (decide (x = 0)%N) as [->|Hx]; [by rewrite pretty_N_go_0|].
  rewrite pretty_N_go_step by lia. apply IH.
  - apply N.div_lt; lia.
  - cbn. by rewrite pretty_N_char_digit.
Qed.

Lemma pretty_N_go_nonempty (x : N) (s : string) : s ≠ "" → pretty_N_go x s ≠ "".
Proof.
  revert s. induction (N.lt_wf_0 x) as [x _ IH]; intros s Hs.
  destruct (decide (x = 0)%N) as [->|Hx]; [by rewrite pretty_N_go_0|].
  rewrite pretty_N_go_step by lia. apply IH; [apply N.div_lt; lia | done].
Qed.

Lemma pretty_N_digits (x : N) :
  truthy_str (pretty x) = true ∧ all_digits (pretty x) = true.
Proof.
  unfold pretty, pretty_N. case_decide as Hx; [done|]. split.
  - apply truthy_str_true. rewrite pretty_N_go_step by lia.
    by apply pretty_N_go_nonempty.
  - by apply pretty_N_go_digits.
Qed.

Lemma matches_base (baseSlug : string) : matches_slug_pattern baseSlug baseSlug = true.
Proof.
  unfold matches_slug_pattern.
  by rewrite <- (app_empty_r baseSlug) at 2; rewrite strip_prefix_app.
Qed.

Lemma matches_numbered (baseSlug : string) (k : N) :
  matches_slug_pattern baseSlug (numbered baseSlug k) = true.
Proof.
  unfold matches_slug_pattern, numbered. rewrite strip_prefix_app.
  destruct (pretty_N_digits k) as [H1 H2].
  change ("-" +:+ pretty k) with (String "-" (pretty k)). cbv beta iota.
  change (is_hyphen "-") with true. by rewrite H1, H2.
Qed.

Lemma numbered_ne_base (baseSlug : string) (k : N) : numbered baseSlug k ≠ baseSlug.
Proof.
  unfold numbered. intros H. rewrite <- (app_empty_r baseSlug) in H at 2.
  by apply (inj (String.app baseSlug)) in H.
Qed.

Lemma matches_probe (baseSlug : string) (counter : N) (i : nat) :
  matches_slug_pattern baseSlug (probe_at baseSlug baseSlug counter i) = true.
Proof. destruct i; [apply matches_base | apply matches_numbered]. Qed.

Lemma create_all_distinct (title : string) (calls : list Job) (w : World) :
  fuse w = None → Forall (plain_call title) calls → all_new calls w →
  generateSlug title ≠ "" →
  ∃ slugs w',
    create_all calls w = Ok slugs w'
    ∧ length slugs = length calls
    ∧ NoDup slugs
    ∧ Forall (λ s, (s ∉ stored_slugs (jobs (db w)))
                   ∧ matches_slug_pattern (generateSlug title) s = true) slugs.
Proof.
  intros Hf Hall Hnew Hbase. revert w Hf Hnew.
  induction Hall as [|d rest (Ht & Hs) _ IH]; intros w Hf Hnews.
  { exists [], w. repeat split; constructor. }
  destruct Hnews as [Hi Hrest']. rewrite <- Ht in Hbase.
  destruct (createJob_quiet d w Hf Hs Hi Hbase) as (i & job & w1 & Hrun & Hf1 & Hslug & Hnew & _ & Hstored).
  rewrite Hrun in Hrest'. cbn [final] in Hrest'.
  destruct (IH w1 Hf1 Hrest') as (slugs & w2 & Hrest & Hlen & Hnd & Hfa).
  exists (job_slug job :: slugs), w2. cbn [create_all].
  rewrite bind_run, Hrun, bind_run, Hrest. split; [done|].
  split; [cbn; by rewrite Hlen|].
  rewrite Forall_forall in Hfa.
  split; [|apply Forall_cons; split].
  - apply NoDup_cons. split; [|done]. intros Hin. destruct (Hfa _ Hin) as [Hn _].
    apply Hn, Hstored. by left.
  - split; [done|]. rewrite Hslug, <- Ht. apply matches_probe.
  - apply Forall_forall. intros s Hin. destruct (Hfa _ Hin) as [Hn Hm].
    split; [|done]. intros Hw. apply Hn, Hstored. by right.
Qed.

(** When the stored slugs hold [base] and [base-1] ... [base-(i-1)] and no
    other numbered slug, the calls return [base-i], [base-(i+1)], ... *)
Lemma create_all_exact (title : string) (calls : list Job) (i : nat) (w : World) :
  fuse w = None → Forall (plain_call title) calls → all_new calls w →
  generateSlug title ≠ "" →
  let base := generateSlug title in
  (base ∈ stored_slugs (jobs (db w)) ↔ (0 < i)%nat) →
  (∀ m : N, numbered base m ∈ stored_slugs (jobs (db w)) ↔ (1 ≤ m < N.of_nat i)%N) →
  ∃ w', create_all calls w = Ok (nth_slug base <$> seq i (length calls)) w'.
Proof.
  intros Hf Hall Hnews Hbase base. revert i w Hf Hnews.
  induction Hall as [|d rest (Ht & Hs) _ IH]; intros i w Hf Hnews Hb Hn.
  { by exists w. }
  destruct Hnews as [Hi Hrest'].
  assert (generateSlug (job_title d) ≠ "") as Hbase' by by rewrite Ht.
  destruct (createJob_quiet d w Hf Hs Hi Hbase')
    as (j & job & w1 & Hrun & Hf1 & Hslug & Hnew & Hbefore & Hstored).
  rewrite Hrun in Hrest'. cbn [final] in Hrest'.
  rewrite Ht in Hslug, Hbefore. fold base in Hslug, Hbefore.
  assert (job_slug job = nth_slug base i) as Hexact.
  { rewrite Hslug. rewrite Hslug in Hnew. destruct i as [|i0].
    - destruct j as [|j0]; [done|]. exfalso.
      specialize (Hbefore 0%nat ltac:(lia)). cbn in Hbefore. apply Hb in Hbefore. lia.
    - destruct j as [|j0]; [exfalso; apply Hnew; cbn; apply Hb; lia|].
      cbn [probe_at nth_slug] in *. f_equal.
      assert (¬ (1 ≤ 1 + N.of_nat j0 < N.of_nat (S i0))%N) as H1 by (by rewrite <- Hn).
      destruct (decide (j0 = i0)) as [->|Hne]; [lia|]. exfalso.
      specialize (Hbefore (S i0) ltac:(lia)). cbn in Hbefore.
      apply Hn in Hbefore. lia. }
  destruct (IH (S i) w1 Hf1 Hrest') as (w2 & Hrest).
  - rewrite Hstored, Hexact, Hb. split; [lia|]. intros _.
    destruct i; [by left|right; lia].
  - intros m. rewrite Hstored, Hexact, Hn. destruct i as [|i0]; cbn [nth_slug].
    + split; [|lia]. intros [H|H]; [|lia]. by apply numbered_ne_base in H.
    + split.
      * intros [H|H]; [apply numbered_inj in H|]; lia.
      * intros H. destruct (decide (m = N.of_nat (S i0))) as [->|Hne]; [by left|right; lia].
  - exists w2. cbn [create_all length seq fmap list_fmap].
    rewrite bind_run, Hrun, bind_run, Hrest. unfold mret, M_ret. by rewrite Hexact.
Qed.

(** C4, as stated, fails.  A title whose base slug is empty skips the
    uniqueness loop ([if (jobData.slug)], database.js:157): two jobs titled
    "!!!" both get the empty slug.  And when the caller pins the id, each
    call replaces the job of the call before, which frees its slug: the
    third job titled "Backend Engineer" gets the slug of the first. *)
Lemma createJob_slugs_repeat :
  (∃ w', create_all [punctuation_job; punctuation_job] (world_of empty_db)
         = Ok [""; ""] w')
  ∧ (∃ w', create_all [pinned_job; pinned_job; pinned_job] (world_of empty_db)
           = Ok ["backend-engineer"; "backend-engineer-1"; "backend-engineer"] w').
Proof. split; eexists; vm_compute; reflexivity. Qed.

(** The scenario of spec 8 on the empty store. *)
Lemma backend_engineer_scenario :
  ∃ w', create_all [backend_job; backend_job; backend_job] (world_of empty_db)
        = Ok ["backend-engineer"; "backend-engineer-1"; "backend-engineer-2"] w'.
Proof. eexists; vm_compute; reflexivity. Qed.

(** C4 (amended): for a title whose base slug is not empty, a sequence of
    [createJob] calls with that title and without a slug, each of which
    stores a new job (no id of the caller's, or one that is not in use),
    completes; the slugs it yields are pairwise distinct and each matches
    [^{base}(-\d+)?$]; and when no stored slug matches that pattern
    beforehand, they are [base], [base-1], [base-2], ... in that order. *)
Theorem createJob_same_title_slugs (title : string) (calls : list Job) (w : World) :
  fuse w = None → Forall (plain_call title) calls → all_new calls w →
  generateSlug title ≠ "" →
  ∃ slugs w',
    create_all calls w = Ok slugs w'
    ∧ length slugs = length calls
    ∧ NoDup slugs
    ∧ Forall (λ s, matches_slug_pattern (generateSlug title) s = true) slugs
    ∧ ((∀ s, s ∈ stored_slugs (jobs (db w)) →
             matches_slug_pattern (generateSlug title) s = false) →
       slugs = nth_slug (generateSlug title) <$> seq 0 (length calls)).
Proof.
  intros Hf Hall Hnew Hbase.
  destruct (create_all_distinct title calls w Hf Hall Hnew Hbase)
    as (slugs & w' & Hrun & Hlen & Hnd & Hfa).
  exists slugs, w'. split; [done|]. split; [done|]. split; [done|]. split.
  - eapply Forall_impl; [exact Hfa|]. by intros s [_ ?].
  - intros Hnone.
    destruct (create_all_exact title calls 0 w Hf Hall Hnew Hbase) as (w2 & Hex).
    + split; [|lia]. intros Hin. apply Hnone in Hin. by rewrite matches_base in Hin.
    + intros m. split; [|lia]. intros Hin. apply Hnone in Hin.
      by rewrite matches_numbered in Hin.
    + rewrite Hrun in Hex. by injection Hex as ->.
Qed.

(** Three jobs titled "Backend Engineer" on the empty store. *)
Lemma createJob_same_title_slugs_witness :
  let calls := [backend_job; backend_job; backend_job] in
  let w := world_of empty_db in
  fuse w = None
  ∧ Forall (plain_call "Backend Engineer") calls
  ∧ all_new calls w
  ∧ generateSlug "Backend Engineer" ≠ ""
  ∧ ∃ slugs w',
      create_all calls w = Ok slugs w'
      ∧ length slugs = 3%nat
      ∧ NoDup slugs
      ∧ Forall (λ s, matches_slug_pattern "backend-engineer" s = true) slugs
      ∧ ((∀ s, s ∈ stored_slugs (jobs (db w)) →
               matches_slug_pattern "backend-engineer" s = false) →
         slugs = ["backend-engineer"; "backend-engineer-1"; "backend-engineer-2"]).
Proof.
  intros calls w.
  assert (Forall (plain_call "Backend Engineer") calls) as Hall.
  { repeat constructor. }
  assert (generateSlug "Backend Engineer" ≠ "") as Hbase by discriminate.
  assert (all_new calls w) as Hnew.
  { unfold calls. cbn [all_new]. unfold new_id. cbn [backend_job job_id]. done. }
  split; [reflexivity|]. split; [exact Hall|]. split; [exact Hnew|]. split; [exact Hbase|].
  exact (createJob_same_title_slugs "Backend Engineer" calls w eq_refl Hall Hnew Hbase).
Defined.

(** ** Listing jobs *)

Global Instance job_entry_le_total : Total job_entry_le.
Proof.
  intros a b. unfold job_entry_le.
  destruct (Z.lt_trichotomy (job_order a.2) (job_order b.2)) as [?|[?|?]]; [by left; left| |by right; left].
  destruct (total key_le a.1 b.1); [left|right]; right; split; congruence || done.
Qed.

Global Instance job_entry_le_trans : Transitive job_entry_le.
Proof.
  intros a b c [H1|[H1 K1]] [H2|[H2 K2]]; unfold job_entry_le.
  - left. lia.
  - left. lia.
  - left. lia.
  - right. split; [lia|]. by etrans.
Qed.

Lemma StronglySorted_sublist {A} (R : relation A) (l1 l2 : list A) :
  l1 `sublist_of` l2 → StronglySorted R l2 → StronglySorted R l1.
Proof.
  induction 1 as [|x l1 l2 Hsub IH|x l1 l2 Hsub IH]; intros Hs.
  - constructor.
  - apply StronglySorted_cons in Hs as [Hall Hs]. constructor; [by apply IH|].
    apply Forall_forall. intros y Hy. rewrite Forall_forall in Hall.
    apply Hall. by eapply elem_of_sublist.
  - apply StronglySorted_cons in Hs as [_ Hs]. by apply IH.
Qed.

Lemma ordered_jobs_sorted (t : Table Job) : StronglySorted by_order (ordered_jobs t).
Proof.
  unfold ordered_jobs.
  apply (StronglySorted_fmap snd job_entry_le by_order).
  - intros a b [H|[H _]]; unfold by_order; lia.
  - apply StronglySorted_merge_sort; apply _.
Qed.

Lemma ordered_jobs_Permutation (t : Table Job) :
  ordered_jobs t ≡ₚ snd <$> map_to_list (rows t).
Proof. unfold ordered_jobs. by rewrite merge_sort_Permutation. Qed.

Lemma js_slice_sublist {A} (l : list A) (start stop : Z) :
  js_slice l start stop `sublist_of` l.
Proof.
  unfold js_slice. etrans; [apply sublist_take | apply sublist_drop].
Qed.

(** For a page number and a page size of at least one the slice is the
    page: [pageSize] elements from position [(page - 1) * pageSize]. *)
Lemma js_slice_page {A} (l : list A) (page pageSize : Z) :
  1 ≤ page → 1 ≤ pageSize →
  js_slice l ((page - 1) * pageSize) ((page - 1) * pageSize + pageSize)
  = take (Z.to_nat pageSize) (drop (Z.to_nat ((page - 1) * pageSize)) l).
Proof.
  intros Hp Hs. unfold js_slice, clamp_index.
  set (len := Z.of_nat (length l)). set (off := (page - 1) * pageSize).
  assert (0 ≤ off) by (unfold off; nia).
  assert (0 ≤ len) by (unfold len; lia).
  destruct (off <? 0) eqn:E1; [lia|]. destruct (off + pageSize <? 0) eqn:E2; [lia|].
  destruct (decide (off + pageSize ≤ len)).
  - rewrite !Z.min_l by lia. f_equal. lia.
  - rewrite Z.min_r by lia. destruct (decide (off ≤ len)).
    + rewrite Z.min_l by lia.
      rewrite !take_ge; [done|rewrite length_drop; unfold len in *; lia..].
    + rewrite Z.min_r by lia. rewrite !drop_ge by (unfold len in *; lia).
      by rewrite !take_nil.
Qed.

Lemma ceil_div_spec (a b : Z) :
  0 < b → (ceil_div a b - 1) * b < a ≤ ceil_div a b * b.
Proof.
  intros Hb. unfold ceil_div.
  pose proof (Z.div_mod (- a) b ltac:(lia)) as Hdm.
  pose proof (Z.mod_pos_bound (- a) b Hb) as Hm. nia.
Qed.

(** C7, as stated, fails on the shape of the page object: the counters
    are not properties of the returned object but of its [pagination]
    property. *)
Lemma getJobs_page_is_nested :
  ∃ data pagination w',
    getJobs first_page (world_of one_job_store) = Ok (JobPage data pagination) w'
    ∧ page_keys (JobPage data pagination) = ["data"; "pagination"]
    ∧ page_keys (JobPage data pagination)
      ≠ ["data"; "page"; "pageSize"; "total"; "totalPages"; "hasMore"].
Proof. eexists _, _, _. split; [vm_compute; reflexivity|]. split; [reflexivity|discriminate]. Qed.

Lemma jobs_orderBy_order_quiet (w : World) :
  fuse w = None → jobs_orderBy_order w = Ok (ordered_jobs (jobs (db w))) w.
Proof.
  intros Hf. unfold jobs_orderBy_order. rewrite bind_run, tick_quiet by done.
  reflexivity.
Qed.

(** C7 (amended): [getJobs] selects the stored jobs that pass the filters
    and lists them by ascending [order], whatever the filters.  Without
    pagination options it returns that list.  With both options present
    (and not zero) it returns [{ data, pagination }], where
    [pagination = { page, pageSize, total, totalPages, hasMore }], [total]
    is the length of the list, [totalPages] is [ceil(total / pageSize)],
    [hasMore] is [(page - 1) * pageSize + pageSize < total], and [data] is
    the slice of the list from [(page - 1) * pageSize] of length
    [pageSize]. *)
Theorem getJobs_ordered_pages (filters : JobFilters) (w : World) :
  fuse w = None →
  ∃ all : list Job,
    StronglySorted by_order all
    ∧ all ≡ₚ filter (λ j, job_matches filters j = true)
                    (snd <$> map_to_list (rows (jobs (db w))))
    ∧ match paging filters with
      | None => getJobs filters w = Ok (JobList all) w
      | Some (page, pageSize) =>
          let offset := (page - 1) * pageSize in
          let total := Z.of_nat (length all) in
          ∃ data totalPages hasMore,
            getJobs filters w
            = Ok (JobPage data (mkPagination page pageSize total totalPages hasMore)) w
            ∧ page_keys (JobPage data (mkPagination page pageSize total totalPages hasMore))
              = ["data"; "pagination"]
            ∧ data = js_slice all offset (offset + pageSize)
            ∧ (1 ≤ page → 1 ≤ pageSize →
               data = take (Z.to_nat pageSize) (drop (Z.to_nat offset) all))
            ∧ StronglySorted by_order data
            ∧ totalPages = ceil_div total pageSize
            ∧ (0 < pageSize → (totalPages - 1) * pageSize < total ≤ totalPages * pageSize)
            ∧ (hasMore = true ↔ offset + pageSize < total)
      end.
Proof.
  intros Hf.
  set (all := filter (λ j, job_matches filters j = true) (ordered_jobs (jobs (db w)))).
  exists all. split; [|split].
  - eapply StronglySorted_sublist; [apply sublist_filter; apply _ | apply ordered_jobs_sorted].
  - unfold all. by rewrite ordered_jobs_Permutation.
  - unfold paging, getJobs. rewrite bind_run, jobs_orderBy_order_quiet by done.
    fold all.
    destruct (f_page filters) as [page|]; [|done].
    destruct (f_pageSize filters) as [pageSize|]; [|done].
    destruct (truthy_num page && truthy_num pageSize); [|done].
    cbn zeta. eexists _, _, _. split; [reflexivity|]. split; [reflexivity|].
    split; [reflexivity|]. split; [apply js_slice_page|].
    split; [eapply StronglySorted_sublist; [apply js_slice_sublist|];
            eapply StronglySorted_sublist; [apply sublist_filter; apply _ | apply ordered_jobs_sorted]|].
    split; [reflexivity|]. split; [apply ceil_div_spec|]. apply Z.ltb_lt.
Qed.

(** The first page of two of the three sample jobs. *)
Lemma getJobs_ordered_pages_witness :
  let w := world_of three_jobs_store in
  let filters := mkFilters "" [] "" (Some 1) (Some 2) in
  fuse w = None
  ∧ ∃ all : list Job,
      StronglySorted by_order all
      ∧ all ≡ₚ filter (λ j, job_matches filters j = true)
                      (snd <$> map_to_list (rows (jobs (db w))))
      ∧ ∃ data totalPages hasMore,
          getJobs filters w
          = Ok (JobPage data (mkPagination 1 2 (Z.of_nat (length all)) totalPages hasMore)) w
          ∧ page_keys (JobPage data (mkPagination 1 2 (Z.of_nat (length all))
                                                  totalPages hasMore))
            = ["data"; "pagination"]
          ∧ data = js_slice all 0 2
          ∧ (1 ≤ 1 → 1 ≤ 2 → data = take 2 (drop 0 all))
          ∧ StronglySorted by_order data
          ∧ totalPages = ceil_div (Z.of_nat (length all)) 2
          ∧ (0 < 2 → (totalPages - 1) * 2 < Z.of_nat (length all) ≤ totalPages * 2)
          ∧ (hasMore = true ↔ 0 + 2 < Z.of_nat (length all)).
Proof.
  intros w filters. split; [reflexivity|].
  exact (getJobs_ordered_pages filters w eq_refl).
Defined.

(** The run of the witness, computed: two of the three jobs, lowest
    [order] first, one more page to come. *)
Lemma getJobs_first_page_of_three :
  ∃ a b w',
    getJobs (mkFilters "" [] "" (Some 1) (Some 2)) (world_of three_jobs_store)
    = Ok (JobPage [a; b] (mkPagination 1 2 3 2 true)) w'
    ∧ job_title a = "UX Designer" ∧ job_title b = "QA Engineer".
Proof. eexists _, _, _. split; [vm_compute; reflexivity|]. split; reflexivity. Qed.

(** ** Reordering jobs *)

Lemma elem_of_ordered_jobs (t : Table Job) (j : Job) :
  j ∈ ordered_jobs t ↔ ∃ k, rows t !! k = Some j.
Proof.
  rewrite ordered_jobs_Permutation, list_elem_of_fmap. split.
  - intros ([k j'] & -> & Hin). apply elem_of_map_to_list in Hin. eauto.
  - intros [k Hk]. exists (k, j). split; [done|]. by apply elem_of_map_to_list.
Qed.

Lemma find_ordered_jobs (t : Table Job) (p : Job → bool) (j : Job) :
  ids_inbound t → List.find p (ordered_jobs t) = Some j →
  p j = true ∧ ∃ k, job_id j = Some k ∧ rows t !! k = Some j.
Proof.
  intros Hin Hfind. apply find_some in Hfind as [Hj Hp]. split; [done|].
  apply list_elem_of_In, elem_of_ordered_jobs in Hj as [k Hk].
  exists k. split; [by apply (Hin k j)|done].
Qed.

Lemma update_job_of_quiet (t : Table Job) (j : Job) (k : key) (mods : JobPatch) (w : World) :
  fuse w = None → job_id j = Some k →
  update_job_of j mods w = Ok () (was_updated T_jobs k mods w).
Proof. intros Hf Hk. unfold update_job_of. rewrite Hk. by apply tbl_update_quiet. Qed.

(** One [update] of [order], when no request is rejected: the row is the
    job with the new [order], also when the order was that already. *)
Lemma order_was_updated (k : key) (o : Z) (r : Job) (w : World) :
  rows (jobs (db w)) !! k = Some r →
  let w' := was_updated T_jobs k (order_patch o) w in
  rows (jobs (db w')) = <[k := moved r o]> (rows (jobs (db w)))
  ∧ next (jobs (db w')) = next (jobs (db w))
  ∧ db w' = t_store T_jobs (jobs (db w')) (db w)
  ∧ fuse w' = fuse w.
Proof.
  intros Hr. cbn zeta. unfold was_updated. cbn [t_view T_jobs]. rewrite Hr.
  change (t_patch T_jobs (order_patch o) r) with (moved r o).
  case_decide as Hsame.
  - rewrite Hsame, insert_id by done. by destruct w as [[] ? ? ?].
  - cbn. done.
Qed.

(** C8: a failed [reorderJobs] leaves the database as it was.  When no
    request is rejected the call completes and returns the jobs by
    [order]; if a job holds [fromOrder] and a job holds [toOrder] (the first
    such in the listing), the first gets [order = toOrder] and the second
    [order = fromOrder], and every other field of the two ([updatedAt]
    included), every other job and every other table is unchanged; if
    either order value matches no job, the whole database is unchanged. *)
Theorem reorderJobs_swaps_order (fromOrder toOrder : Z) (w : World) :
  ids_inbound (jobs (db w)) →
  (∀ e w', reorderJobs fromOrder toOrder w = Fail e w' → db w' = db w)
  ∧ (fuse w = None →
     let listed := ordered_jobs (jobs (db w)) in
     ∃ w',
       reorderJobs fromOrder toOrder w = Ok (ordered_jobs (jobs (db w'))) w'
       ∧ match List.find (λ j, job_order j =? fromOrder) listed,
               List.find (λ j, job_order j =? toOrder) listed with
         | Some fromJob, Some toJob =>
             ∃ kf kt,
               rows (jobs (db w)) !! kf = Some fromJob
               ∧ rows (jobs (db w)) !! kt = Some toJob
               ∧ (∀ k, rows (jobs (db w')) !! k
                       = if decide (k = kt) then Some (moved toJob fromOrder)
                         else if decide (k = kf) then Some (moved fromJob toOrder)
                         else rows (jobs (db w)) !! k)
               ∧ db w' = t_store T_jobs (jobs (db w')) (db w)
               ∧ next (jobs (db w')) = next (jobs (db w))
         | _, _ => db w' = db w
         end).
Proof.
  intros Hin. split.
  { unfold reorderJobs, transaction. intros e w'.
    match goal with |- match ?m with _ => _ end = _ → _ =>
      destruct m as [a w1|e1 w1] end; [done|]. by intros [= _ <-]. }
  intros Hf listed. unfold reorderJobs, transaction.
  rewrite bind_run, jobs_orderBy_order_quiet by done. fold listed.
  destruct (List.find (λ j, job_order j =? fromOrder) listed) as [f|] eqn:Ef;
    [destruct (List.find (λ j, job_order j =? toOrder) listed) as [t|] eqn:Et|].
  - apply (find_ordered_jobs _ _ _ Hin) in Ef as (Hof & kf & Hidf & Hkf).
    apply (find_ordered_jobs _ _ _ Hin) in Et as (Hot & kt & Hidt & Hkt).
    apply Z.eqb_eq in Hof, Hot.
    rewrite !bind_run, (update_job_of_quiet (jobs (db w)) f kf) by done.
    destruct (order_was_updated kf toOrder f w Hkf) as (Hr1 & Hn1 & Hd1 & Hf1).
    set (w1 := was_updated T_jobs kf (order_patch toOrder) w) in *.
    assert (∃ t1, rows (jobs (db w1)) !! kt = Some t1
                  ∧ moved t1 fromOrder
                    = if decide (kf = kt) then moved f fromOrder else moved t fromOrder)
      as (t1 & Hkt1 & Ht1).
    { rewrite Hr1, lookup_insert. destruct (decide (kf = kt)); eauto. }
    rewrite (update_job_of_quiet (jobs (db w1)) t kt) by congruence.
    destruct (order_was_updated kt fromOrder t1 w1 Hkt1) as (Hr2 & Hn2 & Hd2 & Hf2).
    set (w2 := was_updated T_jobs kt (order_patch fromOrder) w1) in *.
    rewrite jobs_orderBy_order_quiet by congruence.
    exists w2. split; [reflexivity|]. exists kf, kt.
    split; [done|]. split; [done|]. split; [|split].
    + intros k. rewrite Hr2, Hr1, Ht1, !lookup_insert.
      destruct (decide (k = kt)) as [->|Hk].
      * rewrite decide_True by done. destruct (decide (kf = kt)) as [->|]; [|done].
        assert (f = t) as -> by congruence. done.
      * rewrite (decide_False (P := kt = k)) by congruence.
        destruct (decide (k = kf)) as [->|Hk']; [by rewrite decide_True|].
        by rewrite decide_False by congruence.
    + rewrite Hd2, Hd1. by destruct (db w).
    + congruence.
  - rewrite !bind_run. unfold mret at 1, M_ret.
    rewrite jobs_orderBy_order_quiet by done.
    exists w. split; [reflexivity|]. by destruct w.
  - rewrite !bind_run. unfold mret at 1, M_ret.
    rewrite jobs_orderBy_order_quiet by done.
    exists w. split; [reflexivity|]. by destruct w.
Qed.

(** Swapping the two sample jobs: the orders change places, and
    [updatedAt] stays at 10 and 11. *)
Lemma reorderJobs_swaps_order_witness :
  let w := world_of two_jobs_store in
  ids_inbound (jobs (db w))
  ∧ fuse w = None
  ∧ ∃ w' fromJob toJob,
      reorderJobs 1 2 w = Ok (ordered_jobs (jobs (db w'))) w'
      ∧ rows (jobs (db w)) !! KNum 1 = Some fromJob
      ∧ rows (jobs (db w)) !! KNum 2 = Some toJob
      ∧ rows (jobs (db w')) !! KNum 1 = Some (moved fromJob 2)
      ∧ rows (jobs (db w')) !! KNum 2 = Some (moved toJob 1)
      ∧ job_updatedAt (moved fromJob 2) = Some 10
      ∧ job_updatedAt (moved toJob 1) = Some 11
      ∧ next (jobs (db w')) = next (jobs (db w)).
Proof.
  intros w.
  assert (ids_inbound (jobs (db w))) as Hin.
  { apply (bool_decide_unpack _). by vm_compute. }
  split; [exact Hin|]. split; [reflexivity|].
  destruct (reorderJobs_swaps_order 1 2 w Hin) as [_ H].
  destruct (H eq_refl) as (w' & Hrun & Hm).
  set (l := ordered_jobs (jobs (db w))) in Hm. vm_compute in l. subst l.
  cbn [List.find job_order Z.eqb Pos.eqb] in Hm.
  destruct Hm as (kf & kt & Hkf & Hkt & Hrows & _ & Hnext).
  assert (kf = KNum 1) as ->.
  { destruct (decide (kf = KNum 1)) as [|Hne]; [done|]. exfalso.
    destruct (decide (kf = KNum 2)) as [->|Hne2]; [discriminate Hkf|].
    cbn in Hkf. by rewrite !lookup_insert_ne, lookup_empty in Hkf by congruence. }
  assert (kt = KNum 2) as ->.
  { destruct (decide (kt = KNum 2)) as [|Hne]; [done|]. exfalso.
    destruct (decide (kt = KNum 1)) as [->|Hne1]; [discriminate Hkt|].
    cbn in Hkt. by rewrite !lookup_insert_ne, lookup_empty in Hkt by congruence. }
  eexists w', _, _. split; [exact Hrun|]. split; [exact Hkf|]. split; [exact Hkt|].
  split; [by rewrite (Hrows (KNum 1))|]. split; [by rewrite (Hrows (KNum 2))|].
  split; [reflexivity|]. split; [reflexivity|]. exact Hnext.
Defined.

(** ** Time stamps *)

(** [timelineEvents], [assessmentResponses] and [jobApplications] have no
    hooks, and [updateJobApplicationStatus] writes [updatedAt] itself,
    through the update object it builds (database.js:736-740). *)
Lemma updatedAt_written_without_hook :
  t_creating T_timelineEvents = None
  ∧ t_creating T_jobApplications = None
  ∧ t_updating T_jobApplications = None
  ∧ ∃ before after w',
      rows (jobApplications one_application_store) !! KNum 5 = Some before
      ∧ updateJobApplicationStatus (KNum 5) "screen" "" (world_of one_application_store)
        = Ok (Some after) w'
      ∧ rows (jobApplications (db w')) !! KNum 5 = Some after
      ∧ app_updatedAt before = Some 14
      ∧ app_updatedAt after = Some 100.
Proof.
  split; [reflexivity|]. split; [reflexivity|]. split; [reflexivity|].
  eexists _, _, _. split; [reflexivity|]. split; [vm_compute; reflexivity|].
  split; [reflexivity|]. split; reflexivity.
Qed.

Lemma stored_as_new {R P} (T : TableSpec R P) (obj : R) (w w' : World) (k : key) :
  fuse w = None → stored_as T obj w k w' → rows (t_view T (db w)) !! k = None →
  w' = inserted T k obj w.
Proof.
  intros Hf [H|H] Hk.
  - rewrite tbl_add_quiet in H by done. unfold added in H.
    destruct (t_id T obj) as [k'|].
    + destruct (rows _ !! k') eqn:E; [done|]. by injection H as <- <-.
    + by injection H as <- <-.
  - rewrite tbl_put_quiet in H by done. unfold was_put in H.
    destruct (t_id T obj) as [k'|].
    + destruct (rows _ !! k') eqn:E; injection H as <- <-; [congruence|done].
    + by injection H as <- <-.
Qed.

(** On [jobs], [candidates], [assessments] and [notes] the creating hook
    stamps [createdAt] and [updatedAt] of every inserted record with the
    clock readings of the insert; the other tables have no hooks. *)
Lemma creating_hooks_stamp (w : World) :
  fuse w = None →
  let c := clock w (reads w) in
  let u := clock w (S (reads w)) in
  (∀ obj k w', stored_as T_jobs obj w k w' → rows (jobs (db w)) !! k = None →
     ∃ r, rows (jobs (db w')) !! k = Some r
          ∧ job_createdAt r = Some c ∧ job_updatedAt r = Some u)
  ∧ (∀ obj k w', stored_as T_candidates obj w k w' → rows (candidates (db w)) !! k = None →
     ∃ r, rows (candidates (db w')) !! k = Some r
          ∧ cand_createdAt r = Some c ∧ cand_updatedAt r = Some u)
  ∧ (∀ obj k w', stored_as T_assessments obj w k w' → rows (assessments (db w)) !! k = None →
     ∃ r, rows (assessments (db w')) !! k = Some r
          ∧ asm_createdAt r = Some c ∧ asm_updatedAt r = Some u)
  ∧ (∀ obj k w', stored_as T_notes obj w k w' → rows (notes (db w)) !! k = None →
     ∃ r, rows (notes (db w')) !! k = Some r
          ∧ note_createdAt r = Some c ∧ note_updatedAt r = Some u)
  ∧ t_creating T_timelineEvents = None ∧ t_updating T_timelineEvents = None
  ∧ t_creating T_assessmentResponses = None ∧ t_updating T_assessmentResponses = None
  ∧ t_creating T_jobApplications = None ∧ t_updating T_jobApplications = None.
Proof.
  intros Hf c u.
  repeat lazymatch goal with
         | |- _ ∧ _ => split
         | |- t_creating _ = None => reflexivity
         | |- t_updating _ = None => reflexivity
         end.
  all: intros obj k w' Hs Hk; rewrite (stored_as_new _ _ _ _ _ Hf Hs Hk);
       eexists; cbn; rewrite lookup_insert_eq; split; [reflexivity|]; split; reflexivity.
Qed.

(** An update of a stored row of [jobs], [candidates], [assessments] or
    [notes] leaves [updatedAt] and [createdAt] as they were, unless the
    update object itself carries an [updatedAt]: what the updating hook
    assigns is lost. *)
Lemma updates_keep_updatedAt (w : World) :
  fuse w = None →
  (∀ k mods old, rows (jobs (db w)) !! k = Some old → jp_updatedAt mods = None →
     ∃ w' r, tbl_update T_jobs k mods w = Ok () w'
             ∧ rows (jobs (db w')) !! k = Some r
             ∧ job_updatedAt r = job_updatedAt old
             ∧ job_createdAt r = job_createdAt old)
  ∧ (∀ k mods old, rows (candidates (db w)) !! k = Some old → cp_updatedAt mods = None →
     ∃ w' r, tbl_update T_candidates k mods w = Ok () w'
             ∧ rows (candidates (db w')) !! k = Some r
             ∧ cand_updatedAt r = cand_updatedAt old
             ∧ cand_createdAt r = cand_createdAt old)
  ∧ (∀ k mods old, rows (assessments (db w)) !! k = Some old → ap_updatedAt mods = None →
     ∃ w' r, tbl_update T_assessments k mods w = Ok () w'
             ∧ rows (assessments (db w')) !! k = Some r
             ∧ asm_updatedAt r = asm_updatedAt old
             ∧ asm_createdAt r = asm_createdAt old)
  ∧ (∀ k mods old, rows (notes (db w)) !! k = Some old → np_updatedAt mods = None →
     ∃ w' r, tbl_update T_notes k mods w = Ok () w'
             ∧ rows (notes (db w')) !! k = Some r
             ∧ note_updatedAt r = note_updatedAt old
             ∧ note_createdAt r = note_createdAt old).
Proof.
  intros Hf. repeat split.
  all: intros k mods old Hk Hm; rewrite tbl_update_quiet by done; unfold was_updated;
       cbn [t_view T_jobs T_candidates T_assessments T_notes]; rewrite Hk;
       case_decide;
       [ by exists w, old
       | eexists _, _; split; [reflexivity|]; cbn; rewrite lookup_insert_eq;
         split; [reflexivity|]; cbn; rewrite Hm; split; reflexivity ].
Qed.

(** C6 (the code departs from the claim): the updating hook of [jobs] is
    registered and assigns [updatedAt] to the modifications object it is
    handed (database.js:33-35), but it returns nothing, so the assignment
    never reaches the stored job: [updateJob(1, { status: 'archived' })]
    changes the status, the hook reads the clock, and [updatedAt] stays
    at 10. *)
Theorem updating_hook_stamps_nothing :
  t_updating T_jobs = Some job_updating
  ∧ (∀ u mods, jp_updatedAt (job_updating u mods) = Some u)
  ∧ ∃ before after w',
      rows (jobs one_job_store) !! KNum 1 = Some before
      ∧ updateJob (KNum 1) (mkJobPatch None None (Some "archived") None None)
                  (world_of one_job_store) = Ok (Some after) w'
      ∧ rows (jobs (db w')) !! KNum 1 = Some after
      ∧ job_status before = "active" ∧ job_status after = "archived"
      ∧ reads (world_of one_job_store) = 0%nat ∧ reads w' = 1%nat
      ∧ job_updatedAt before = Some 10 ∧ job_updatedAt after = Some 10.
Proof.
  split; [reflexivity|]. split; [reflexivity|].
  eexists _, _, _. split; [reflexivity|]. split; [vm_compute; reflexivity|].
  repeat (split; [reflexivity|]). reflexivity.
Qed.
(** * Further properties *)

(** ** Slugs are made of lower-case letters, digits and single hyphens *)

Lemma all_chars_rev_app (p : ascii → bool) (s a : string) :
  all_chars p (String.rev_app s a) = all_chars p s && all_chars p a.
Proof.
  revert a. induction s as [|c s IH]; intros a; [done|].
  cbn. rewrite IH. cbn. destruct (p c), (all_chars p s); reflexivity.
Qed.

Lemma rev_app_rev_app (s a b : string) :
  String.rev_app (String.rev_app s a) b = String.rev_app a (s +:+ b).
Proof.
  revert a. induction s as [|c s IH]; intros a; [done|].
  cbn. rewrite IH. reflexivity.
Qed.

Lemma rev_involutive (s : string) : String.rev (String.rev s) = s.
Proof. unfold String.rev. rewrite rev_app_rev_app. cbn. apply app_empty_r. Qed.

Lemma trim_start_no_space (s : string) :
  all_chars (λ c, negb (is_space c)) s = true → trim_start s = s.
Proof. destruct s as [|c s]; [done|]. cbn. by destruct (is_space c). Qed.

Lemma js_trim_no_space (s : string) :
  all_chars (λ c, negb (is_space c)) s = true → js_trim s = s.
Proof.
  intros H. unfold js_trim. rewrite (trim_start_no_space s H).
  rewrite trim_start_no_space; [apply rev_involutive|].
  unfold String.rev. rewrite all_chars_rev_app, H. reflexivity.
Qed.

Lemma all_chars_impl (p q : ascii → bool) (s : string) :
  (∀ c, p c = true → q c = true) → all_chars p s = true → all_chars q s = true.
Proof.
  intros Hpq. induction s as [|c s IH]; [done|]. cbn.
  intros [Hc Hs]%andb_true_iff. by rewrite (Hpq c Hc), IH.
Qed.

Lemma all_chars_keep (p : ascii → bool) (s : string) : all_chars p (keep_chars p s) = true.
Proof.
  induction s as [|c s IH]; [done|]. cbn.
  destruct (p c) eqn:E; [cbn; by rewrite E|done].
Qed.

Lemma is_hyphen_eq (c : ascii) : is_hyphen c = true → c = "-"%char.
Proof.
  unfold is_hyphen. intros H%Nat.eqb_eq.
  rewrite <- (ascii_nat_embedding c), H. reflexivity.
Qed.

Lemma slug_char_hyphen : slug_char "-" = true.
Proof. reflexivity. Qed.
Lemma replace_runs_space_chars (b : bool) (s : string) :
  all_chars (λ c, is_lower_alnum c || is_space c || is_hyphen c) s = true →
  all_chars slug_char (replace_runs is_space "-" b s) = true.
Proof.
  revert b. induction s as [|c s IH]; intros b; [done|].
  cbn [all_chars replace_runs]. intros [Hc Hs]%andb_true_iff.
  destruct (is_space c) eqn:Esp.
  - destruct b; cbn [all_chars]; by rewrite IH.
  - cbn [all_chars]. rewrite IH by done. unfold slug_char.
    rewrite orb_false_r in Hc. by rewrite Hc.
Qed.

Lemma replace_runs_hyphen_chars (p : ascii → bool) (b : bool) (s : string) :
  p "-"%char = true → all_chars p s = true →
  all_chars p (replace_runs is_hyphen "-" b s) = true.
Proof.
  intros Hp. revert b. induction s as [|c s IH]; intros b; [done|].
  cbn [all_chars replace_runs]. intros [Hc Hs]%andb_true_iff.
  destruct (is_hyphen c); [destruct b|]; cbn [all_chars];
    rewrite ?Hp, ?Hc, IH by done; reflexivity.
Qed.

Ltac char_codes H :=
  rewrite ?orb_true_iff, ?andb_true_iff, ?Nat.leb_le, ?Nat.eqb_eq in H.

Lemma slug_char_no_space (c : ascii) : slug_char c = true → negb (is_space c) = true.
Proof.
  unfold slug_char, is_lower_alnum, is_hyphen, is_space.
  generalize (nat_of_ascii c). intros n H.
  apply negb_true_iff, not_true_is_false. intros H'.
  char_codes H. char_codes H'. lia.
Qed.

(** The string that [generateSlug] hands to [trim]. *)
Lemma generateSlug_untrimmed_chars (title : string) :
  all_chars slug_char
    (replace_runs is_hyphen "-" false
       (replace_runs is_space "-" false
          (keep_chars (λ c, is_lower_alnum c || is_space c || is_hyphen c)
             (toLowerCase title)))) = true.
Proof.
  apply replace_runs_hyphen_chars; [reflexivity|].
  apply replace_runs_space_chars, all_chars_keep.
Qed.

(** [trim] finds no white space to remove: the slug is the string as the
    three [replace] calls left it. *)
Lemma generateSlug_untrimmed (title : string) :
  generateSlug title
  = replace_runs is_hyphen "-" false
      (replace_runs is_space "-" false
         (keep_chars (λ c, is_lower_alnum c || is_space c || is_hyphen c)
            (toLowerCase title))).
Proof.
  unfold generateSlug. apply js_trim_no_space.
  eapply all_chars_impl; [apply slug_char_no_space|apply generateSlug_untrimmed_chars].
Qed.

(** X1: every character of a generated slug is a lower-case letter, a
    digit or a hyphen, whatever the title. *)
Theorem generateSlug_chars (title : string) :
  all_chars slug_char (generateSlug title) = true.
Proof. rewrite generateSlug_untrimmed. apply generateSlug_untrimmed_chars. Qed.

Lemma replace_runs_single (b : bool) (s : string) :
  single_hyphens (replace_runs is_hyphen "-" b s) = true
  ∧ (b = true → match replace_runs is_hyphen "-" b s with
                | String c _ => is_hyphen c = false
                | EmptyString => True
                end).
Proof.
  revert b. induction s as [|c s IH]; intros b; [done|]. cbn.
  destruct (is_hyphen c) eqn:Ec.
  - destruct b.
    + apply IH.
    + split; [|done]. destruct (IH true) as [H1 H2]. specialize (H2 eq_refl).
      cbn. destruct (replace_runs is_hyphen "-" true s) as [|c' s']; [done|].
      rewrite H2. cbn. exact H1.
  - split; [|by intros _]. destruct (IH false) as [H1 _].
    cbn. destruct (replace_runs is_hyphen "-" false s) as [|c' s']; [done|].
    rewrite Ec. cbn. exact H1.
Qed.

(** X2: a generated slug never has two hyphens in a row. *)
Theorem generateSlug_single_hyphens (title : string) :
  single_hyphens (generateSlug title) = true.
Proof. rewrite generateSlug_untrimmed. apply replace_runs_single. Qed.

Lemma lower_ascii_slug_char (c : ascii) : slug_char c = true → lower_ascii c = c.
Proof.
  unfold slug_char, is_lower_alnum, is_hyphen, lower_ascii.
  generalize (nat_of_ascii c). intros n H.
  destruct ((65 <=? n)%nat && (n <=? 90)%nat) eqn:E; [|done].
  char_codes H. char_codes E. lia.
Qed.

Lemma toLowerCase_slug (s : string) : all_chars slug_char s = true → toLowerCase s = s.
Proof.
  induction s as [|c s IH]; [done|]. cbn. intros [Hc Hs]%andb_true_iff.
  by rewrite lower_ascii_slug_char, IH.
Qed.

Lemma keep_chars_all (p : ascii → bool) (s : string) :
  all_chars p s = true → keep_chars p s = s.
Proof.
  induction s as [|c s IH]; [done|]. cbn. intros [Hc Hs]%andb_true_iff.
  by rewrite Hc, IH.
Qed.

Lemma replace_runs_none (p : ascii → bool) (r : ascii) (s : string) :
  all_chars (λ c, negb (p c)) s = true → replace_runs p r false s = s.
Proof.
  induction s as [|c s IH]; [done|]. cbn. intros [Hc Hs]%andb_true_iff.
  apply negb_true_iff in Hc. by rewrite Hc, IH.
Qed.

Lemma replace_runs_single_id (b : bool) (s : string) :
  single_hyphens s = true →
  (b = true → match s with String c _ => is_hyphen c = false | EmptyString => True end) →
  replace_runs is_hyphen "-" b s = s.
Proof.
  revert b. induction s as [|c s IH]; intros b Hs Hb; [done|]. cbn.
  destruct (is_hyphen c) eqn:Ec.
  - destruct b; [by specialize (Hb eq_refl)|].
    rewrite (is_hyphen_eq c Ec). f_equal. apply IH.
    + cbn in Hs. destruct s; [done|]. by apply andb_prop in Hs as [_ ?].
    + intros _. cbn in Hs. destruct s as [|c' s']; [done|].
      apply andb_prop in Hs as [Hs _]. rewrite Ec in Hs. cbn in Hs.
      by apply negb_true_iff in Hs.
  - f_equal. apply IH; [|done].
    cbn in Hs. destruct s; [done|]. by apply andb_prop in Hs as [_ ?].
Qed.

(** X3: generating a slug from a generated slug changes nothing. *)
Theorem generateSlug_idempotent (title : string) :
  generateSlug (generateSlug title) = generateSlug title.
Proof.
  pose proof (generateSlug_untrimmed_chars title) as Hc.
  pose proof (proj1 (replace_runs_single false
    (replace_runs is_space "-" false
       (keep_chars (λ c, is_lower_alnum c || is_space c || is_hyphen c)
          (toLowerCase title))))) as Hs.
  rewrite (generateSlug_untrimmed title).
  match type of Hc with all_chars _ ?u = true => generalize dependent u end.
  intros s Hc Hs.
  rewrite generateSlug_untrimmed, (toLowerCase_slug s Hc).
  rewrite keep_chars_all.
  2:{ eapply all_chars_impl; [|exact Hc]. intros c. unfold slug_char.
      destruct (is_lower_alnum c), (is_hyphen c), (is_space c); done. }
  rewrite (replace_runs_none is_space).
  2:{ eapply all_chars_impl; [apply slug_char_no_space|exact Hc]. }
  apply replace_runs_single_id; [exact Hs|done].
Qed.

(** X4: [trim('-')] removes no hyphen: a title that starts with white
    space or a hyphen gets a slug that starts with a hyphen. *)
Theorem generateSlug_keeps_leading_hyphen (c : ascii) (rest : string) :
  is_space c || is_hyphen c = true →
  ∃ s, generateSlug (String c rest) = String "-" s.
Proof.
  intros H. rewrite generateSlug_untrimmed.
  assert (lower_ascii c = c) as Hl.
  { revert H. unfold is_space, is_hyphen, lower_ascii.
    generalize (nat_of_ascii c). intros n H.
    destruct ((65 <=? n)%nat && (n <=? 90)%nat) eqn:E; [|done].
    char_codes H. char_codes E. lia. }
  cbn [toLowerCase keep_chars]. rewrite Hl.
  destruct (is_space c) eqn:Esp.
  - rewrite orb_true_r. cbn [orb keep_chars replace_runs]. rewrite Esp.
    cbn [replace_runs]. change (is_hyphen "-") with true. cbn iota. eauto.
  - cbn [orb] in H. rewrite H, orb_true_r. cbn [replace_runs]. rewrite Esp.
    cbn [replace_runs]. rewrite H. eauto.
Qed.

Lemma generateSlug_keeps_leading_hyphen_witness :
  is_space " " || is_hyphen " " = true
  ∧ ∃ s, generateSlug " Backend  Engineer" = String "-" s.
Proof. split; [reflexivity|]. apply (generateSlug_keeps_leading_hyphen " "). reflexivity. Defined.
(** ** Reading never writes *)

Lemma reads_bind {A B} (m : M A) (f : A → M B) :
  reads_only m → (∀ a, reads_only (f a)) → reads_only (m ≫= f).
Proof.
  intros Hm Hf w. rewrite final_bind. specialize (Hm w).
  destruct (m w) as [a w1|e w1]; cbn in Hm; [by rewrite Hf|done].
Qed.

Lemma reads_ret {A} (a : A) : reads_only (mret a).
Proof. by intros w. Qed.

Lemma reads_throw {A} (e : error) : reads_only (throw (A := A) e).
Proof. by intros w. Qed.

Lemma reads_gets {A} (f : World → A) : reads_only (gets f).
Proof. by intros w. Qed.

Lemma reads_new_Date : reads_only new_Date.
Proof. by intros w. Qed.

Lemma reads_tick : reads_only tick.
Proof. intros w. apply tick_db. Qed.

Lemma reads_use_index {R P} (T : TableSpec R P) (idx : string) :
  reads_only (use_index T idx).
Proof. intros w. unfold use_index. by case_bool_decide. Qed.

Ltac reads_step :=
  lazymatch goal with
  | |- reads_only (_ ≫= _) => apply reads_bind; [|intros ?]
  | |- reads_only (mret _) => apply reads_ret
  | |- reads_only (throw _) => apply reads_throw
  | |- reads_only (gets _) => apply reads_gets
  | |- reads_only new_Date => apply reads_new_Date
  | |- reads_only tick => apply reads_tick
  | |- reads_only (use_index _ _) => apply reads_use_index
  | |- reads_only (match ?x with _ => _ end) => destruct x
  end.

Lemma reads_tbl_get {R P} (T : TableSpec R P) (k : key) : reads_only (tbl_get T k).
Proof. unfold tbl_get. repeat reads_step. Qed.

Lemma reads_tbl_get_ref {R P} (T : TableSpec R P) (ref : option key) :
  reads_only (tbl_get_ref T ref).
Proof. destruct ref; [apply reads_tbl_get|apply reads_throw]. Qed.

Lemma reads_tbl_where_first {R P} (T : TableSpec R P) idx hit :
  reads_only (tbl_where_first T idx hit).
Proof. unfold tbl_where_first. repeat reads_step. Qed.

Lemma reads_tbl_where_toArray {R P} (T : TableSpec R P) idx hit :
  reads_only (tbl_where_toArray T idx hit).
Proof. unfold tbl_where_toArray. repeat reads_step. Qed.

Lemma reads_tbl_toArray {R P} (T : TableSpec R P) : reads_only (tbl_toArray T).
Proof. unfold tbl_toArray. repeat reads_step. Qed.

Lemma reads_tbl_count {R P} (T : TableSpec R P) : reads_only (tbl_count T).
Proof. unfold tbl_count. repeat reads_step. Qed.

Lemma reads_all_of {A B} (f : A → M B) (l : list A) :
  (∀ a, reads_only (f a)) → reads_only (all_of f l).
Proof.
  intros Hf. induction l as [|x l IH]; cbn [all_of]; [apply reads_ret|].
  repeat reads_step; [apply Hf|apply IH].
Qed.

Lemma reads_isSlugUnique slug excludeId : reads_only (isSlugUnique slug excludeId).
Proof. unfold isSlugUnique. reads_step; [apply reads_tbl_where_first|apply reads_ret]. Qed.

Lemma reads_probe_slug budget baseSlug counter slug :
  reads_only (probe_slug budget baseSlug counter slug).
Proof.
  revert counter slug. induction budget as [|n IH]; intros counter slug;
    cbn [probe_slug]; [apply reads_throw|].
  reads_step; [apply reads_isSlugUnique|]. destruct a; [apply reads_ret|apply IH].
Qed.

Lemma reads_probe_slug_except budget id baseSlug counter slug :
  reads_only (probe_slug_except budget id baseSlug counter slug).
Proof.
  revert counter slug. induction budget as [|n IH]; intros counter slug;
    cbn [probe_slug_except]; [apply reads_throw|].
  reads_step; [apply reads_isSlugUnique|]. destruct a; [apply reads_ret|apply IH].
Qed.

Lemma reads_getStats : reads_only getStats.
Proof. unfold getStats. repeat reads_step; apply reads_tbl_count. Qed.

Lemma reads_getCandidateJobApplications candidateId :
  reads_only (getCandidateJobApplications candidateId).
Proof.
  unfold getCandidateJobApplications. reads_step; [apply reads_tbl_where_toArray|].
  apply reads_all_of. intros app. unfold with_job.
  reads_step; [apply reads_tbl_get_ref|apply reads_ret].
Qed.

Ltac reads_go :=
  repeat first
    [ reads_step
    | apply reads_tbl_get | apply reads_tbl_get_ref | apply reads_tbl_where_first
    | apply reads_tbl_where_toArray | apply reads_tbl_toArray | apply reads_tbl_count
    | apply reads_isSlugUnique | apply reads_getStats
    | apply reads_getCandidateJobApplications
    | apply reads_all_of; intros ? ].

(** X5: no read method of the service changes the database, whether it
    returns or throws. *)
Theorem queries_read_only (q : query) (w : World) : db (ask q w) = db w.
Proof.
  destruct q; cbn [ask]; revert w;
    match goal with |- ∀ w, db (final (?m w)) = db w => change (reads_only m) end.
  - unfold getJobs, jobs_orderBy_order. reads_go.
  - unfold getJobById. reads_go.
  - unfold getJobBySlug. reads_go.
  - reads_go.
  - unfold debugJobById. reads_go.
  - unfold getCandidates. reads_go.
  - unfold getCandidateById. reads_go.
  - unfold debugCandidateById. reads_go.
  - unfold getAssessments. reads_go.
  - unfold getAssessmentByJobId. reads_go.
  - unfold getAssessmentResponse. reads_go.
  - reads_go.
  - reads_go.
  - unfold getJobApplicationsByStatus, with_details. reads_go.
  - unfold getCandidateJobStatus. reads_go.
Qed.
(** ** What the commands keep *)

Lemma keeps_reads {A} (I : DB → Prop) (m : M A) : reads_only m → keeps I m.
Proof. intros H w HI. by rewrite H. Qed.

Lemma keeps_bind {A B} (I : DB → Prop) (m : M A) (f : A → M B) :
  keeps I m → (∀ a, keeps I (f a)) → keeps I (m ≫= f).
Proof.
  intros Hm Hf w HI. rewrite final_bind. specialize (Hm w HI).
  destruct (m w) as [a w1|e w1]; cbn in Hm; [by apply Hf|done].
Qed.

Lemma keeps_transaction {A} (I : DB → Prop) (m : M A) : keeps I m → keeps I (transaction m).
Proof.
  intros Hm w HI. specialize (Hm w HI). unfold transaction.
  destruct (m w) as [a w1|e w1]; cbn in *; done.
Qed.

Lemma keeps_try_catch (I : DB → Prop) (m : M unit) : keeps I m → keeps I (try_catch m).
Proof.
  intros Hm w HI. specialize (Hm w HI). unfold try_catch.
  destruct (m w) as [a w1|e w1]; cbn in *; done.
Qed.

Lemma keeps_for_each {A B} (I : DB → Prop) (f : A → M B) (l : list A) :
  (∀ a, keeps I (f a)) → keeps I (for_each f l).
Proof.
  intros Hf. induction l as [|x l IH]; cbn [for_each]; [apply keeps_reads, reads_ret|].
  apply keeps_bind; [apply Hf|intros _; apply IH].
Qed.

Section keeps_engine.
Context {R P : Type} `{!EqDecision R} (T : TableSpec R P) (I : DB → Prop).

Lemma keeps_tbl_add (obj : R) :
  (∀ d k o, I d → rows (t_view T d) !! k = None → I (db_insert T k o d)) →
  keeps I (tbl_add T obj).
Proof.
  intros Hins w HI. rewrite tbl_add_eq.
  destruct (tick w) as [[] w1|e w1] eqn:E.
  - apply tick_Ok in E. unfold added.
    destruct (t_id T obj) as [k|]; [destruct (rows _ !! k) eqn:Ek|]; cbn.
    + by rewrite E.
    + apply Hins; [by rewrite E|done].
    + apply Hins; [by rewrite E|apply fresh_num_free].
  - apply tick_Fail in E as [E _]. cbn. by rewrite E.
Qed.

Lemma keeps_tbl_put (obj : R) :
  (∀ d k o, I d → rows (t_view T d) !! k = None → I (db_insert T k o d)) →
  (∀ d k, I d → is_Some (rows (t_view T d) !! k) →
          I (db_set T k (t_with_id T k obj) d)) →
  keeps I (tbl_put T obj).
Proof.
  intros Hins Hset w HI. rewrite tbl_put_eq.
  destruct (tick w) as [[] w1|e w1] eqn:E.
  - apply tick_Ok in E. unfold was_put.
    destruct (t_id T obj) as [k|]; [destruct (rows _ !! k) eqn:Ek|]; cbn.
    + apply Hset; [by rewrite E|by rewrite Ek].
    + apply Hins; [by rewrite E|done].
    + apply Hins; [by rewrite E|apply fresh_num_free].
  - apply tick_Fail in E as [E _]. cbn. by rewrite E.
Qed.

Lemma keeps_tbl_update (k : key) (mods : P) :
  (∀ d r, I d → rows (t_view T d) !! k = Some r →
          I (db_set T k (t_patch T mods r) d)) →
  keeps I (tbl_update T k mods).
Proof.
  intros Hset w HI. rewrite tbl_update_eq.
  destruct (tick w) as [[] w1|e w1] eqn:E.
  - apply tick_Ok in E. cbn. unfold was_updated.
    destruct (rows _ !! k) eqn:Ek; cbn; [|by rewrite E].
    case_decide; cbn; [by rewrite E|].
    apply Hset; [by rewrite E|done].
  - apply tick_Fail in E as [E _]. cbn. by rewrite E.
Qed.

Lemma keeps_tbl_delete (k : key) :
  (∀ d, I d → I (db_delete T k d)) → keeps I (tbl_delete T k).
Proof.
  intros Hdel w HI. pose proof (step_tbl_delete T k w) as H.
  destruct (tbl_delete T k w) as [a w1|e w1]; cbn; rewrite H; auto.
Qed.

Lemma keeps_tbl_where_delete (idx : string) (hit : R → bool) :
  (∀ d, I d → I (db_where_delete T hit d)) → keeps I (tbl_where_delete T idx hit).
Proof.
  intros Hdel w HI. pose proof (step_tbl_where_delete T idx hit w) as H.
  destruct (tbl_where_delete T idx hit w) as [a w1|e w1]; cbn.
  - destruct H as [_ ->]. auto.
  - by rewrite H.
Qed.

Lemma keeps_tbl_clear :
  (∀ d, I d → I (t_store T (mkTable ∅ (next (t_view T d))) d)) → keeps I (tbl_clear T).
Proof.
  intros Hclr w HI. unfold tbl_clear. rewrite final_bind.
  destruct (tick w) as [[] w1|e w1] eqn:E.
  - apply tick_Ok in E. mrun. unfold table_of. rewrite E. by apply Hclr.
  - apply tick_Fail in E as [E _]. by rewrite E.
Qed.

End keeps_engine.

(** One step of a proof that a method keeps a property: [side] settles
    what a write has to respect. *)
Ltac keeps_step side :=
  lazymatch goal with
  | |- keeps _ (let _ := _ in _) => cbv zeta
  | |- keeps _ (_ ≫= _) => apply keeps_bind; [|intros ?]
  | |- keeps _ (mret _) => apply keeps_reads, reads_ret
  | |- keeps _ (throw _) => apply keeps_reads, reads_throw
  | |- keeps _ (gets _) => apply keeps_reads, reads_gets
  | |- keeps _ new_Date => apply keeps_reads, reads_new_Date
  | |- keeps _ (transaction _) => apply keeps_transaction
  | |- keeps _ (try_catch _) => apply keeps_try_catch
  | |- keeps _ (for_each _ _) => apply keeps_for_each; intros ?
  | |- keeps _ (tbl_get _ _) => apply keeps_reads, reads_tbl_get
  | |- keeps _ (tbl_where_first _ _ _) => apply keeps_reads, reads_tbl_where_first
  | |- keeps _ (probe_slug _ _ _ _) => apply keeps_reads, reads_probe_slug
  | |- keeps _ (probe_slug_except _ _ _ _ _) => apply keeps_reads, reads_probe_slug_except
  | |- keeps _ jobs_orderBy_order => apply keeps_reads; unfold jobs_orderBy_order; reads_go
  | |- keeps _ getStats => apply keeps_reads, reads_getStats
  | |- keeps _ (tbl_add _ _) => apply keeps_tbl_add; side
  | |- keeps _ (tbl_put _ _) => apply keeps_tbl_put; side
  | |- keeps _ (tbl_update _ _ _) => apply keeps_tbl_update; side
  | |- keeps _ (tbl_delete _ _) => apply keeps_tbl_delete; side
  | |- keeps _ (tbl_where_delete _ _ _) => apply keeps_tbl_where_delete; side
  | |- keeps _ (tbl_clear _) => apply keeps_tbl_clear; side
  | |- keeps _ (put_or_add _ _) => unfold put_or_add
  | |- keeps _ (update_job_of _ _) => unfold update_job_of
  | |- keeps _ (createJob _) => unfold createJob
  | |- keeps _ (updateJob _ _) => unfold updateJob
  | |- keeps _ (deleteJob _) => unfold deleteJob
  | |- keeps _ (reorderJobs _ _) => unfold reorderJobs
  | |- keeps _ (createTimelineEvent _) => unfold createTimelineEvent
  | |- keeps _ (createCandidate _) => unfold createCandidate
  | |- keeps _ (updateCandidate _ _) => unfold updateCandidate
  | |- keeps _ (deleteCandidate _) => unfold deleteCandidate
  | |- keeps _ (createNote _) => unfold createNote
  | |- keeps _ (updateNote _ _) => unfold updateNote
  | |- keeps _ (deleteNote _) => unfold deleteNote
  | |- keeps _ (createAssessment _) => unfold createAssessment
  | |- keeps _ (updateAssessment _ _) => unfold updateAssessment
  | |- keeps _ (deleteAssessment _) => unfold deleteAssessment
  | |- keeps _ (createAssessmentResponse _) => unfold createAssessmentResponse
  | |- keeps _ clearAllData => unfold clearAllData
  | |- keeps _ (createJobApplication _) => unfold createJobApplication
  | |- keeps _ (updateJobApplication _ _) => unfold updateJobApplication
  | |- keeps _ (applyCandidateToJob _ _) => unfold applyCandidateToJob
  | |- keeps _ (applyCandidateToJob_on _ _ _) => unfold applyCandidateToJob_on
  | |- keeps _ (updateJobApplicationStatus _ _ _) => unfold updateJobApplicationStatus
  | |- keeps _ (initializeData _ _) => unfold initializeData
  | |- keeps _ (match ?x with _ => _ end) => destruct x
  end.

(** A command as a goal about the method it runs. *)
Ltac as_keeps I :=
  match goal with
  | w : World |- context [final (?m ?w')] =>
      constr_eq w w'; revert w; change (keeps I m)
  end.

(** *** Stored jobs carry their key *)

Lemma ids_inbound_insert (d : DB) (k : key) (o : Job) :
  ids_inbound (jobs d) → ids_inbound (jobs (db_insert T_jobs k o d)).
Proof. intros H. by apply map_Forall_insert_2. Qed.

Lemma ids_inbound_set (d : DB) (k : key) (j : Job) :
  ids_inbound (jobs d) → job_id j = Some k → ids_inbound (jobs (db_set T_jobs k j d)).
Proof. intros H Hj. by apply map_Forall_insert_2. Qed.

Lemma ids_inbound_delete (d : DB) (k : key) :
  ids_inbound (jobs d) → ids_inbound (jobs (db_delete T_jobs k d)).
Proof. intros H. by apply map_Forall_delete. Qed.

Ltac side_inbound :=
  intros;
  first
    [ assumption
    | apply ids_inbound_insert; assumption
    | apply ids_inbound_delete; assumption
    | apply ids_inbound_set; [assumption|];
      first [ reflexivity
            | match goal with
              | HI : ids_inbound _, Hk : rows _ !! _ = Some _ |- _ =>
                  cbn; exact (HI _ _ Hk)
              end ]
    | apply map_Forall_empty ].

(** X6: every command leaves each stored job with its primary key in
    [id], whether it returns or throws. *)
Theorem commands_keep_ids_inbound (c : command) (w : World) :
  ids_inbound (jobs (db w)) → ids_inbound (jobs (db (perform c w))).
Proof.
  destruct c; cbn [perform]; as_keeps (λ d, ids_inbound (jobs d));
    repeat keeps_step side_inbound.
Qed.
(** *** The timeline is append-only *)

Lemma event_kept_insert (d : DB) (k k' : key) (e o : TimelineEvent) :
  rows (timelineEvents d) !! k = Some e →
  rows (timelineEvents d) !! k' = None →
  rows (timelineEvents (db_insert T_timelineEvents k' o d)) !! k = Some e.
Proof.
  intros He Hk'. cbn. rewrite lookup_insert_ne; [done|]. intros ->. congruence.
Qed.

Ltac side_events :=
  intros; first [ assumption | apply event_kept_insert; assumption ].

(** X7: a stored timeline event stays as it is under every command except
    [deleteCandidate] and [clearAllData]: no other method updates or
    deletes an event, whether it returns or throws. *)
Theorem timeline_is_append_only (c : command) (w : World) (k : key) (e : TimelineEvent) :
  removes_events c = false →
  rows (timelineEvents (db w)) !! k = Some e →
  rows (timelineEvents (db (perform c w))) !! k = Some e.
Proof.
  intros Hc. destruct c; try discriminate Hc; clear Hc; cbn [perform];
    as_keeps (λ d, rows (timelineEvents d) !! k = Some e);
    repeat keeps_step side_events.
Qed.

Lemma timeline_is_append_only_witness :
  removes_events (DeleteJob (KNum 1)) = false
  ∧ rows (timelineEvents (db (world_of one_candidate_store))) !! KNum 1
    = Some (submitted_event (KNum 1) "applied")
  ∧ rows (timelineEvents (db (perform (DeleteJob (KNum 1)) (world_of one_candidate_store))))
      !! KNum 1
    = Some (submitted_event (KNum 1) "applied").
Proof.
  split; [reflexivity|]. split; [reflexivity|].
  apply (timeline_is_append_only (DeleteJob (KNum 1))); reflexivity.
Defined.

(** *** Job applications are never removed *)

Lemma application_kept_insert (d : DB) (k k' : key) (o : JobApplication) :
  is_Some (rows (jobApplications d) !! k) →
  is_Some (rows (jobApplications (db_insert T_jobApplications k' o d)) !! k).
Proof. intros H. cbn. rewrite lookup_insert_is_Some. destruct (decide (k' = k)); auto. Qed.

Lemma application_kept_set (d : DB) (k k' : key) (a : JobApplication) :
  is_Some (rows (jobApplications d) !! k) →
  is_Some (rows (jobApplications (db_set T_jobApplications k' a d)) !! k).
Proof. intros H. cbn. rewrite lookup_insert_is_Some. destruct (decide (k' = k)); auto. Qed.

Ltac side_applications :=
  intros;
  first [ assumption
        | apply application_kept_insert; assumption
        | apply application_kept_set; assumption ].

(** X8: no command removes a job application: a key of [jobApplications]
    that is in use stays in use under every command, [deleteJob],
    [deleteCandidate] and [clearAllData] included. *)
Theorem job_applications_are_never_removed (c : command) (w : World) (k : key) :
  is_Some (rows (jobApplications (db w)) !! k) →
  is_Some (rows (jobApplications (db (perform c w))) !! k).
Proof.
  destruct c; cbn [perform];
    as_keeps (λ d, is_Some (rows (jobApplications d) !! k));
    repeat keeps_step side_applications.
Qed.

Lemma job_applications_are_never_removed_witness :
  is_Some (rows (jobApplications (db (world_of one_candidate_store))) !! KNum 5)
  ∧ is_Some (rows (jobApplications (db (perform ClearAllData (world_of one_candidate_store))))
               !! KNum 5).
Proof.
  split; [by eexists|].
  apply (job_applications_are_never_removed ClearAllData). by eexists.
Defined.

Lemma commands_keep_ids_inbound_witness :
  ids_inbound (jobs (db (world_of two_jobs_store)))
  ∧ ids_inbound (jobs (db (perform (ReorderJobs 1 2) (world_of two_jobs_store)))).
Proof.
  assert (ids_inbound (jobs (db (world_of two_jobs_store)))) as Hin.
  { apply (bool_decide_unpack _). by vm_compute. }
  split; [exact Hin|]. exact (commands_keep_ids_inbound (ReorderJobs 1 2) _ Hin).
Defined.
(** *** Slugs stay distinct *)

Lemma slugs_distinct_insert (t : Table Job) (k : key) (j : Job) (n : Z) :
  slugs_distinct t →
  (job_slug j = "" ∨ ∀ k' j', rows t !! k' = Some j' → job_slug j' = job_slug j → k' = k) →
  slugs_distinct (mkTable (<[k := j]> (rows t)) n).
Proof.
  intros Hd Hj k1 k2 j1 j2 H1 H2 Hs Hne. cbn in H1, H2.
  destruct (decide (k1 = k)) as [->|N1], (decide (k2 = k)) as [->|N2]; [done| | |].
  - rewrite lookup_insert_eq in H1. rewrite lookup_insert_ne in H2 by done.
    injection H1 as <-. destruct Hj as [Hj|Hj]; [done|]. symmetry. by apply (Hj k2 j2).
  - rewrite lookup_insert_ne in H1 by done. rewrite lookup_insert_eq in H2.
    injection H2 as <-. destruct Hj as [Hj|Hj]; [congruence|]. by apply (Hj k1 j1).
  - rewrite lookup_insert_ne in H1, H2 by done. by apply (Hd k1 k2 j1 j2).
Qed.

Lemma slugs_distinct_delete (t : Table Job) (k : key) (n : Z) :
  slugs_distinct t → slugs_distinct (mkTable (delete k (rows t)) n).
Proof.
  intros Hd k1 k2 j1 j2 H1 H2. cbn in H1, H2.
  apply lookup_delete_Some in H1 as [_ H1], H2 as [_ H2]. by apply Hd.
Qed.

(** A job rewritten with the slug it had. *)
Lemma slugs_distinct_same_slug (t : Table Job) (k : key) (r j : Job) (n : Z) :
  slugs_distinct t → rows t !! k = Some r → job_slug j = job_slug r →
  slugs_distinct (mkTable (<[k := j]> (rows t)) n).
Proof.
  intros Hd Hr Hs. apply slugs_distinct_insert; [done|].
  destruct (decide (job_slug j = "")) as [|Hne]; [by left|right].
  intros k' j' Hk' Hs'. apply (Hd k' k j' r); congruence.
Qed.

(** What a call of [isSlugUnique] that returns tells about the table. *)
Lemma isSlugUnique_Ok (slug : string) (excludeId : option key) (b : bool) (w w' : World) :
  isSlugUnique slug excludeId w = Ok b w' →
  db w' = db w
  ∧ (b = true → ∀ k j, rows (jobs (db w)) !! k = Some j → job_slug j = slug →
                       ∃ k0 j0 e, rows (jobs (db w)) !! k0 = Some j0 ∧ job_slug j0 = slug
                                  ∧ excludeId = Some e ∧ job_id j0 = Some e).
Proof.
  intros H. split.
  { pose proof (reads_isSlugUnique slug excludeId w) as Hr. by rewrite H in Hr. }
  unfold isSlugUnique in H. apply bind_Ok_inv in H as (r & w1 & Hq & Hret).
  injection Hret as <- <-.
  apply (step_Ok _ _ _ _ _ (step_tbl_where_first T_jobs _ _)) in Hq as (_ & _ & ->).
  destruct (head _) as [j0|] eqn:Eh.
  - apply where_first_Some in Eh as [Hhit [k0 Hk0]]. apply String.eqb_eq in Hhit.
    destruct excludeId as [e|]; [|done].
    intros Hb%bool_decide_eq_true k j _ _. by exists k0, j0, e.
  - intros _ k j Hk Hs. pose proof (where_first_None _ _ Eh k j Hk) as Hhit.
    cbn in Hhit. apply String.eqb_neq in Hhit. done.
Qed.

Lemma numbered_nonempty (baseSlug : string) (counter : N) : numbered baseSlug counter ≠ "".
Proof. unfold numbered. destruct baseSlug; [rewrite app_cons|rewrite app_cons]; discriminate. Qed.

(** The slug that the loop of [createJob] settles on is not in the
    table. *)
Lemma probe_slug_Ok (budget : nat) (baseSlug : string) (counter : N) (slug s : string)
    (w w' : World) :
  probe_slug budget baseSlug counter slug w = Ok s w' →
  db w' = db w
  ∧ (slug ≠ "" → s ≠ "")
  ∧ ∀ k j, rows (jobs (db w)) !! k = Some j → job_slug j ≠ s.
Proof.
  revert counter slug w. induction budget as [|n IH]; intros counter slug w; [done|].
  cbn [probe_slug]. intros H. apply bind_Ok_inv in H as (b & w1 & Hu & H).
  apply isSlugUnique_Ok in Hu as [Hdb Hfree]. destruct b.
  - injection H as <- <-. split; [done|]. split; [done|].
    intros k j Hk Hs. destruct (Hfree eq_refl k j Hk Hs) as (? & ? & ? & _ & _ & [=] & _).
  - apply IH in H as (Hdb' & Hne & H). rewrite Hdb in Hdb', H. split; [done|].
    split; [|done]. intros _. apply Hne, numbered_nonempty.
Qed.

(** The slug that the loop of [updateJob] settles on is used by no job
    other than the one that is updated. *)
Lemma probe_slug_except_Ok (budget : nat) (id : key) (baseSlug : string) (counter : N)
    (slug s : string) (w w' : World) :
  probe_slug_except budget id baseSlug counter slug w = Ok s w' →
  ids_inbound (jobs (db w)) → slugs_distinct (jobs (db w)) → slug ≠ "" →
  db w' = db w
  ∧ s ≠ ""
  ∧ ∀ k j, rows (jobs (db w)) !! k = Some j → job_slug j = s → k = id.
Proof.
  revert counter slug w. induction budget as [|n IH]; intros counter slug w; [done|].
  cbn [probe_slug_except]. intros H Hin Hd Hne.
  apply bind_Ok_inv in H as (b & w1 & Hu & H).
  apply isSlugUnique_Ok in Hu as [Hdb Hfree]. destruct b.
  - injection H as <- <-. split; [done|]. split; [done|].
    intros k j Hk Hs.
    destruct (Hfree eq_refl k j Hk Hs) as (k0 & j0 & e & Hk0 & Hs0 & [= <-] & Hid).
    rewrite (Hin k0 j0 Hk0) in Hid. injection Hid as <-.
    apply (Hd k k0 j j0); congruence.
  - apply IH in H as (Hdb' & Hne' & H); rewrite ?Hdb; [|done|done|apply numbered_nonempty].
    rewrite Hdb in Hdb', H. done.
Qed.

Lemma final_bind_ret {A B} (m : M A) (g : A → B) (w : World) :
  final ((m ≫= λ a, mret (g a)) w) = final (m w).
Proof. rewrite final_bind. by destruct (m w). Qed.

(** What a write of one row leads to. *)
Section leads_engine.
Context {R P : Type} `{!EqDecision R} (T : TableSpec R P) (Pre Post : DB → Prop).

Lemma tbl_add_leads (obj : R) (w : World) :
  (∀ d, Pre d → Post d) →
  (∀ d k w0, Pre d → rows (t_view T d) !! k = None →
             Post (db_insert T k (creating_at T w0 obj) d)) →
  Pre (db w) → Post (db (final (tbl_add T obj w))).
Proof.
  intros Hsame Hins HI. rewrite tbl_add_eq.
  destruct (tick w) as [[] w1|e w1] eqn:E.
  - apply tick_Ok in E. unfold added.
    destruct (t_id T obj) as [k|]; [destruct (rows _ !! k) eqn:Ek|]; cbn.
    + rewrite E. auto.
    + rewrite E in *. by apply Hins.
    + rewrite E. apply Hins; [done|apply fresh_num_free].
  - apply tick_Fail in E as [E _]. cbn. rewrite E. auto.
Qed.

Lemma tbl_put_leads (obj : R) (w : World) :
  (∀ d, Pre d → Post d) →
  (∀ d k w0, Pre d → rows (t_view T d) !! k = None →
             Post (db_insert T k (creating_at T w0 obj) d)) →
  (∀ d k, Pre d → is_Some (rows (t_view T d) !! k) →
          Post (db_set T k (t_with_id T k obj) d)) →
  Pre (db w) → Post (db (final (tbl_put T obj w))).
Proof.
  intros Hsame Hins Hset HI. rewrite tbl_put_eq.
  destruct (tick w) as [[] w1|e w1] eqn:E.
  - apply tick_Ok in E. unfold was_put.
    destruct (t_id T obj) as [k|]; [destruct (rows _ !! k) eqn:Ek|]; cbn.
    + rewrite E in *. apply Hset; [done|by rewrite Ek].
    + rewrite E in *. by apply Hins.
    + rewrite E. apply Hins; [done|apply fresh_num_free].
  - apply tick_Fail in E as [E _]. cbn. rewrite E. auto.
Qed.

Lemma tbl_update_leads (k : key) (mods : P) (w : World) :
  (∀ d, Pre d → Post d) →
  (∀ d r, Pre d → rows (t_view T d) !! k = Some r →
          Post (db_set T k (t_patch T mods r) d)) →
  Pre (db w) → Post (db (final (tbl_update T k mods w))).
Proof.
  intros Hsame Hset HI. rewrite tbl_update_eq.
  destruct (tick w) as [[] w1|e w1] eqn:E.
  - apply tick_Ok in E. cbn. unfold was_updated.
    destruct (rows _ !! k) eqn:Ek; [case_decide|]; cbn; rewrite E in *; auto.
  - apply tick_Fail in E as [E _]. cbn. rewrite E. auto.
Qed.

End leads_engine.
Lemma jobs_sound_store (d : DB) (k : key) (j : Job) (n : Z) :
  jobs_sound d → job_id j = Some k →
  (job_slug j = ""
   ∨ ∀ k' j', rows (jobs d) !! k' = Some j' → job_slug j' = job_slug j → k' = k) →
  jobs_sound (t_store T_jobs (mkTable (<[k := j]> (rows (jobs d))) n) d).
Proof.
  intros [Hin Hd] Hid Hs. split.
  - by apply map_Forall_insert_2.
  - by apply slugs_distinct_insert.
Qed.

Lemma jobs_sound_same_slug (d : DB) (k : key) (r j : Job) :
  jobs_sound d → rows (jobs d) !! k = Some r →
  job_slug j = job_slug r → job_id j = job_id r →
  jobs_sound (db_set T_jobs k j d).
Proof.
  intros [Hin Hd] Hk Hs Hid. apply jobs_sound_store; [done| |].
  - rewrite Hid. exact (Hin k r Hk).
  - destruct (decide (job_slug j = "")) as [|Hne]; [by left|right].
    intros k' j' Hk' Hs'. apply (Hd k' k j' r); congruence.
Qed.

Lemma jobs_sound_delete (d : DB) (k : key) :
  jobs_sound d → jobs_sound (db_delete T_jobs k d).
Proof.
  intros [Hin Hd]. split; [by apply map_Forall_delete|by apply slugs_distinct_delete].
Qed.

Lemma jobs_sound_clear (d : DB) (n : Z) :
  jobs_sound (t_store T_jobs (mkTable ∅ n) d).
Proof. split; [apply map_Forall_empty|]. intros k1 k2 j1 j2 H. by cbn in H. Qed.

Lemma truthy_str_false (s : string) : truthy_str s = false → s = "".
Proof. unfold truthy_str. intros H%negb_false_iff. by apply String.eqb_eq. Qed.

Lemma final_bind_reads {A B} (m : M A) (f : A → M B) (w : World) :
  (∀ a, reads_only (f a)) → db (final ((m ≫= f) w)) = db (final (m w)).
Proof. intros Hf. rewrite final_bind. destruct (m w) as [a w1|e w1]; [apply Hf|done]. Qed.

Lemma createJob_keeps_sound (jobData : Job) : keeps jobs_sound (createJob jobData).
Proof.
  intros w Hs. unfold createJob. cbv zeta.
  set (slug0 := if negb (truthy_str (job_slug jobData)) && truthy_str (job_title jobData)
                then generateSlug (job_title jobData) else job_slug jobData).
  rewrite final_bind.
  match goal with
  | |- context [match ?m with Ok _ _ => _ | Fail _ _ => _ end] =>
      destruct m as [s w1|e w1] eqn:E
  end.
  - assert (db w1 = db w
            ∧ (s = "" ∨ ∀ k j, rows (jobs (db w)) !! k = Some j → job_slug j ≠ s))
      as [Hdb Hfree].
    { destruct (truthy_str slug0) eqn:Et.
      - apply bind_Ok_inv in E as (t & w0 & [= <- <-] & Hp).
        apply probe_slug_Ok in Hp as (Hdb & _ & Hfree). auto.
      - injection E as <- <-. split; [done|left]. by apply truthy_str_false. }
    rewrite final_bind_ret. rewrite <- Hdb in Hs, Hfree. clear Hdb E.
    set (job := createJob_factory (with_slug s jobData)).
    assert (∀ d (k : key) (j : Job) (n : Z),
              jobs_sound d
              ∧ (s = "" ∨ ∀ k j, rows (jobs d) !! k = Some j → job_slug j ≠ s) →
              job_id j = Some k → job_slug j = s →
              jobs_sound (t_store T_jobs (mkTable (<[k := j]> (rows (jobs d))) n) d))
      as Hstore.
    { intros d k j n [Hd Hf] Hid Hslug. apply jobs_sound_store; [done|done|].
      rewrite Hslug. destruct Hf as [Hf|Hf]; [by left|right].
      intros k' j' Hk' Hs'. by destruct (Hf k' j' Hk'). }
    unfold put_or_add.
    destruct (t_id T_jobs job) as [k|]; [destruct (key_truthy k)|].
    + apply (tbl_put_leads T_jobs
               (λ d, jobs_sound d
                     ∧ (s = "" ∨ ∀ k j, rows (jobs d) !! k = Some j → job_slug j ≠ s)));
        [tauto| | |done]; intros; by apply Hstore.
    + apply (tbl_add_leads T_jobs
               (λ d, jobs_sound d
                     ∧ (s = "" ∨ ∀ k j, rows (jobs d) !! k = Some j → job_slug j ≠ s)));
        [tauto| |done]; intros; by apply Hstore.
    + apply (tbl_add_leads T_jobs
               (λ d, jobs_sound d
                     ∧ (s = "" ∨ ∀ k j, rows (jobs d) !! k = Some j → job_slug j ≠ s)));
        [tauto| |done]; intros; by apply Hstore.
  - assert (reads_only (if truthy_str slug0
                        then t ← gets (table_of T_jobs);
                             probe_slug (2 + size (rows t)) slug0 1 slug0
                        else mret slug0)) as Hr.
    { destruct (truthy_str slug0); [|apply reads_ret].
      apply reads_bind; [apply reads_gets|intros t; apply reads_probe_slug]. }
    specialize (Hr w). rewrite E in Hr. cbn in Hr. by rewrite Hr.
Qed.

Lemma updateJob_keeps_sound (id : key) (updates : JobPatch) :
  keeps jobs_sound (updateJob id updates).
Proof.
  intros w Hs. unfold updateJob. cbv zeta.
  set (slug0 := if truthy_field (jp_title updates) && negb (truthy_field (jp_slug updates))
                then Some (generateSlug (default "" (jp_title updates)))
                else jp_slug updates).
  rewrite final_bind.
  match goal with
  | |- context [match ?m with Ok _ _ => _ | Fail _ _ => _ end] =>
      destruct m as [slug w1|e w1] eqn:E
  end.
  - assert (db w1 = db w
            ∧ match slug with
              | None => True
              | Some s => s = "" ∨ ∀ k j, rows (jobs (db w)) !! k = Some j →
                                          job_slug j = s → k = id
              end) as [Hdb Hfree].
    { destruct (truthy_field slug0) eqn:Et.
      - apply bind_Ok_inv in E as (t & w0 & [= <- <-] & E).
        apply bind_Ok_inv in E as (s & w2 & Hp & [= <- <-]).
        destruct Hs as [Hin Hd].
        apply probe_slug_except_Ok in Hp as (Hdb & _ & Hfree); [auto|done|done|].
        destruct slug0 as [s0|]; [|done]. cbn in Et |- *. intros ->. done.
      - injection E as <- <-. split; [done|].
        destruct slug0 as [s0|]; [|done]. left. by apply truthy_str_false. }
    rewrite final_bind_reads by (intros; apply reads_tbl_get).
    rewrite <- Hdb in Hs, Hfree. clear Hdb E.
    apply (tbl_update_leads T_jobs
             (λ d, jobs_sound d
                   ∧ match slug with
                     | None => True
                     | Some s => s = "" ∨ ∀ k j, rows (jobs d) !! k = Some j →
                                                 job_slug j = s → k = id
                     end)); [tauto| |done].
    intros d r [Hd Hf] Hr. destruct slug as [s|].
    + apply jobs_sound_store; [done| |exact Hf].
      destruct Hd as [Hin _]. exact (Hin id r Hr).
    + by apply (jobs_sound_same_slug d id r).
  - assert (reads_only (if truthy_field slug0
                        then t ← gets (table_of T_jobs);
                             s ← probe_slug_except (2 + size (rows t)) id (default "" slug0) 1
                                                   (default "" slug0);
                             mret (Some s)
                        else mret slug0)) as Hr.
    { destruct (truthy_field slug0); [|apply reads_ret].
      apply reads_bind; [apply reads_gets|intros t].
      apply reads_bind; [apply reads_probe_slug_except|intros s; apply reads_ret]. }
    specialize (Hr w). rewrite E in Hr. cbn in Hr. by rewrite Hr.
Qed.

Ltac side_sound :=
  intros;
  first
    [ assumption
    | apply jobs_sound_delete; assumption
    | apply jobs_sound_clear
    | eapply jobs_sound_same_slug; [eassumption|eassumption|reflexivity|reflexivity] ].

Lemma commands_keep_jobs_sound (c : command) (w : World) :
  jobs_sound (db w) → jobs_sound (db (perform c w)).
Proof.
  destruct c; cbn [perform]; as_keeps jobs_sound;
    repeat first [ apply createJob_keeps_sound | apply updateJob_keeps_sound
                 | keeps_step side_sound ].
Qed.

(** X9: when every stored job carries its key and no two jobs share a
    non-empty slug, the same holds after every command, whether it returns
    or throws. *)
Theorem commands_keep_slugs_distinct (c : command) (w : World) :
  ids_inbound (jobs (db w)) → slugs_distinct (jobs (db w)) →
  slugs_distinct (jobs (db (perform c w))).
Proof. intros Hin Hd. by apply (commands_keep_jobs_sound c w). Qed.

Lemma commands_keep_slugs_distinct_witness :
  ids_inbound (jobs (db (world_of one_job_store)))
  ∧ slugs_distinct (jobs (db (world_of one_job_store)))
  ∧ slugs_distinct (jobs (db (perform (CreateJob backend_job) (world_of one_job_store)))).
Proof.
  assert (ids_inbound (jobs (db (world_of one_job_store)))) as Hin.
  { apply (bool_decide_unpack _). by vm_compute. }
  assert (slugs_distinct (jobs (db (world_of one_job_store)))) as Hd.
  { intros k1 k2 j1 j2 H1 H2 _ _. cbn in H1, H2.
    apply lookup_singleton_Some in H1 as [<- _], H2 as [<- _]. reflexivity. }
  split; [exact Hin|]. split; [exact Hd|].
  exact (commands_keep_slugs_distinct (CreateJob backend_job) _ Hin Hd).
Defined.
(** ** Creating a job, and reading it back *)

Lemma probe_slug_quiet (budget : nat) (baseSlug : string) (counter : N) (slug s : string)
    (w w' : World) :
  fuse w = None → probe_slug budget baseSlug counter slug w = Ok s w' → w' = w.
Proof.
  intros Hf. revert counter slug. induction budget as [|n IH]; intros counter slug; [done|].
  cbn [probe_slug]. rewrite bind_run, isSlugUnique_quiet by done.
  case_bool_decide; [by intros [= _ <-]|apply IH].
Qed.

Lemma where_first_unique {R} (t : Table R) (hit : R → bool) (k : key) (r : R) :
  rows t !! k = Some r → hit r = true →
  (∀ k' r', rows t !! k' = Some r' → hit r' = true → k' = k) →
  head (filter (λ r, hit r = true) (table_list t)) = Some r.
Proof.
  intros Hk Hr Huniq.
  destruct (where_first_Some_2 t hit k r Hk Hr) as [r0 E]. rewrite E.
  apply where_first_Some in E as [Hhit [k0 Hk0]].
  rewrite (Huniq k0 r0 Hk0 Hhit) in Hk0. congruence.
Qed.

(** A call of [createJob] that stores a new job: the key is free before,
    the job goes in under it with the stamps of the creating hook, and its
    slug, when it is not empty, is the slug of no job stored before. *)
Lemma createJob_new (jobData job : Job) (w w' : World) :
  fuse w = None → new_id jobData w → createJob jobData w = Ok job w' →
  ∃ k, rows (jobs (db w)) !! k = None
       ∧ job_id job = Some k
       ∧ w' = inserted T_jobs k job w
       ∧ (job_slug job ≠ "" →
          ∀ k' j', rows (jobs (db w)) !! k' = Some j' → job_slug j' ≠ job_slug job).
Proof.
  intros Hf Hnew H. unfold createJob in H. cbv zeta in H.
  apply bind_Ok_inv in H as (s & w1 & Hs & H).
  apply bind_Ok_inv in H as (k & w2 & Hput & [= <- <-]).
  assert (w1 = w ∧ (s ≠ "" → ∀ k' j', rows (jobs (db w)) !! k' = Some j' → job_slug j' ≠ s))
    as [-> Hfree].
  { destruct (truthy_str _) eqn:Et in Hs.
    - apply bind_Ok_inv in Hs as (t & w0 & [= <- <-] & Hp).
      pose proof (probe_slug_quiet _ _ _ _ _ _ _ Hf Hp) as ->.
      apply probe_slug_Ok in Hp as (_ & _ & Hp). auto.
    - injection Hs as <- <-. split; [done|]. intros Hne.
      by apply truthy_str_false in Et. }
  destruct (put_or_add_new (createJob_factory (with_slug s jobData)) w Hf Hnew)
    as (k0 & Hk0 & Hput').
  rewrite Hput' in Hput. injection Hput as <- <-.
  exists k0. split; [done|]. split; [reflexivity|]. split; [reflexivity|]. exact Hfree.
Qed.

(** X10: a job that [createJob] stored under a new key is what
    [getJobById] returns for the id of the returned job: the returned job
    with [createdAt] and [updatedAt] as the creating hook assigned them. *)
Theorem createJob_then_getJobById (jobData job : Job) (w w' : World) :
  fuse w = None → new_id jobData w → createJob jobData w = Ok job w' →
  ∃ k, job_id job = Some k
       ∧ getJobById k w'
         = Ok (Some (job_creating (clock w (reads w)) (clock w (S (reads w))) job)) w'.
Proof.
  intros Hf Hnew H. destruct (createJob_new _ _ _ _ Hf Hnew H) as (k & _ & Hid & -> & _).
  exists k. split; [done|]. unfold getJobById. rewrite tbl_get_quiet by done.
  f_equal. cbn. rewrite lookup_insert_eq. destruct job. cbn in Hid. by rewrite Hid.
Qed.

Lemma createJob_then_getJobById_witness :
  let w := world_of one_job_store in
  let job := mkJob (Some (KNum 2)) "Backend Engineer" "backend-engineer-1" None []
                   "active" 0 None None in
  let w' := final (createJob backend_job w) in
  fuse w = None ∧ new_id backend_job w ∧ createJob backend_job w = Ok job w'
  ∧ ∃ k, job_id job = Some k
         ∧ getJobById k w' = Ok (Some (job_creating 100 101 job)) w'.
Proof.
  intros w job w'.
  assert (createJob backend_job w = Ok job w') as H by (vm_compute; reflexivity).
  split; [reflexivity|]. split; [exact I|]. split; [exact H|].
  exact (createJob_then_getJobById backend_job job w w' eq_refl I H).
Defined.

(** X11: a job that [createJob] stored under a new key with a slug that
    is not empty is what [getJobBySlug] returns for that slug. *)
Theorem createJob_then_getJobBySlug (jobData job : Job) (w w' : World) :
  fuse w = None → new_id jobData w → createJob jobData w = Ok job w' →
  job_slug job ≠ "" →
  getJobBySlug (job_slug job) w'
  = Ok (Some (job_creating (clock w (reads w)) (clock w (S (reads w))) job)) w'.
Proof.
  intros Hf Hnew H Hne.
  destruct (createJob_new _ _ _ _ Hf Hnew H) as (k & Hk & Hid & -> & Hfree).
  specialize (Hfree Hne).
  unfold getJobBySlug. rewrite tbl_where_first_quiet by done. f_equal.
  apply (where_first_unique _ _ k).
  - cbn. rewrite lookup_insert_eq. destruct job. cbn in Hid. by rewrite Hid.
  - cbn. apply String.eqb_refl.
  - intros k' j' Hk' Hhit. cbn in Hk'. apply String.eqb_eq in Hhit.
    destruct (decide (k' = k)) as [|Hn]; [done|].
    rewrite lookup_insert_ne in Hk' by done. by destruct (Hfree k' j' Hk').
Qed.

Lemma createJob_then_getJobBySlug_witness :
  let w := world_of one_job_store in
  let job := mkJob (Some (KNum 2)) "Backend Engineer" "backend-engineer-1" None []
                   "active" 0 None None in
  let w' := final (createJob backend_job w) in
  fuse w = None ∧ new_id backend_job w ∧ createJob backend_job w = Ok job w'
  ∧ job_slug job ≠ ""
  ∧ getJobBySlug "backend-engineer-1" w' = Ok (Some (job_creating 100 101 job)) w'.
Proof.
  intros w job w'.
  assert (createJob backend_job w = Ok job w') as H by (vm_compute; reflexivity).
  split; [reflexivity|]. split; [exact I|]. split; [exact H|]. split; [discriminate|].
  exact (createJob_then_getJobBySlug backend_job job w w' eq_refl I H ltac:(discriminate)).
Defined.
(** ** Updating a job *)

Lemma isSlugUnique_free (slug : string) (excludeId : option key) (w : World) :
  fuse w = None → (slug ∉ stored_slugs (jobs (db w))) →
  isSlugUnique slug excludeId w = Ok true w.
Proof.
  intros Hf Hfree. unfold isSlugUnique.
  rewrite bind_run, tbl_where_first_quiet by done.
  rewrite where_first_None_2; [done|].
  intros k j Hk. cbn. apply String.eqb_neq. intros Hs. apply Hfree.
  apply elem_of_stored_slugs. eauto.
Qed.

Lemma isSlugUnique_returns (slug : string) (excludeId : option key) (w : World) :
  fuse w = None → ∃ b, isSlugUnique slug excludeId w = Ok b w.
Proof.
  intros Hf. unfold isSlugUnique.
  rewrite bind_run, tbl_where_first_quiet by done. eauto.
Qed.

(** The loop of [updateJob] returns within the budget, as the loop of
    [createJob] does. *)
Lemma probe_slug_except_returns (budget : nat) (id : key) (baseSlug : string) (counter : N)
    (slug : string) (w : World) :
  fuse w = None →
  (∃ i, (i < budget)%nat ∧ (probe_at baseSlug slug counter i ∉ stored_slugs (jobs (db w)))) →
  ∃ s, probe_slug_except budget id baseSlug counter slug w = Ok s w.
Proof.
  intros Hf. revert counter slug.
  induction budget as [|b IH]; intros counter slug (i0 & Hi0 & Hfree); [lia|].
  cbn [probe_slug_except]. rewrite bind_run.
  destruct (isSlugUnique_returns slug (Some id) w Hf) as [free Hu]. rewrite Hu.
  destruct free; [eauto|].
  destruct i0 as [|i0].
  { cbn in Hfree. rewrite (isSlugUnique_free _ _ _ Hf Hfree) in Hu. discriminate. }
  apply IH. exists i0. split; [lia|]. destruct i0 as [|i0]; cbn in *.
  - by rewrite N.add_0_r in Hfree.
  - by replace (counter + 1 + N.of_nat i0)%N with (counter + N.pos (Pos.of_succ_nat i0))%N by lia.
Qed.

(** [updateJob] when no request is rejected: it returns, with the job as
    one [update] of the table left it. *)
Lemma updateJob_quiet (id : key) (updates : JobPatch) (w : World) :
  fuse w = None →
  ∃ slug,
    let w' := was_updated T_jobs id (with_patch_slug slug updates) w in
    updateJob id updates w = Ok (rows (jobs (db w')) !! id) w'.
Proof.
  intros Hf. unfold updateJob. cbv zeta.
  set (slug0 := if truthy_field (jp_title updates) && negb (truthy_field (jp_slug updates))
                then Some (generateSlug (default "" (jp_title updates)))
                else jp_slug updates).
  assert (∃ slug, (if truthy_field slug0
                   then t ← gets (table_of T_jobs);
                        s ← probe_slug_except (2 + size (rows t)) id (default "" slug0) 1
                                              (default "" slug0);
                        mret (Some s)
                   else mret slug0) w = Ok slug w) as [slug Hslug].
  { destruct (truthy_field slug0); [|by exists slug0].
    destruct (probe_slug_except_returns (2 + size (rows (jobs (db w)))) id
                (default "" slug0) 1 (default "" slug0) w Hf) as [s Hs].
    { destruct (numbered_free_exists (default "" slug0) (jobs (db w))) as (i & Hi & Hfree).
      exists (S i). split; [lia|]. exact Hfree. }
    exists (Some s). rewrite bind_run. unfold gets at 1. cbn [table_of t_view T_jobs].
    by rewrite bind_run, Hs. }
  exists slug. cbv zeta. rewrite bind_run, Hslug, bind_run, tbl_update_quiet by done.
  rewrite tbl_get_quiet; [done|]. by rewrite fuse_was_updated.
Qed.

(** X12: [updateJob] on an id that is not stored returns [undefined] and
    changes nothing: no error tells the caller that no job was updated. *)
Theorem updateJob_missing_job (id : key) (updates : JobPatch) (w : World) :
  fuse w = None → rows (jobs (db w)) !! id = None →
  updateJob id updates w = Ok None w.
Proof.
  intros Hf Hid. destruct (updateJob_quiet id updates w Hf) as [slug H].
  cbv zeta in H. rewrite H. unfold was_updated. cbn [t_view T_jobs].
  by rewrite !Hid.
Qed.

Lemma updateJob_missing_job_witness :
  let w := world_of one_job_store in
  let updates := mkJobPatch (Some "Backend Engineer") None None None None in
  fuse w = None ∧ rows (jobs (db w)) !! KNum 7 = None
  ∧ updateJob (KNum 7) updates w = Ok None w.
Proof.
  intros w updates. split; [reflexivity|]. split; [reflexivity|].
  exact (updateJob_missing_job (KNum 7) updates w eq_refl eq_refl).
Defined.

Lemma isSlugUnique_own (id : key) (r : Job) (w : World) :
  fuse w = None → ids_inbound (jobs (db w)) → slugs_distinct (jobs (db w)) →
  rows (jobs (db w)) !! id = Some r → job_slug r ≠ "" →
  isSlugUnique (job_slug r) (Some id) w = Ok true w.
Proof.
  intros Hf Hin Hd Hr Hne. unfold isSlugUnique.
  rewrite bind_run, tbl_where_first_quiet by done.
  rewrite (where_first_unique _ _ id r Hr).
  - unfold mret, M_ret. f_equal. apply bool_decide_eq_true_2. exact (Hin id r Hr).
  - apply String.eqb_refl.
  - intros k' r' Hk' Hs%String.eqb_eq. apply (Hd k' id r' r); congruence.
Qed.

(** X13: [updateJob] with a title whose slug is the one the job has keeps
    the slug: the job that is updated is excluded from the uniqueness
    test, so no suffix is appended (as [createJob] would for a second job
    of that title).  The title is stored, and [updatedAt] is the one of
    the update object when it has one and stays as it was otherwise: the
    updating hook adds no timestamp. *)
Theorem updateJob_keeps_own_slug
    (id : key) (title : string) (updates : JobPatch) (r : Job) (w : World) :
  fuse w = None → ids_inbound (jobs (db w)) → slugs_distinct (jobs (db w)) →
  rows (jobs (db w)) !! id = Some r →
  jp_title updates = Some title → truthy_field (jp_slug updates) = false →
  generateSlug title = job_slug r → job_slug r ≠ "" →
  ∃ r' w', updateJob id updates w = Ok (Some r') w'
           ∧ rows (jobs (db w')) !! id = Some r'
           ∧ job_slug r' = job_slug r
           ∧ job_title r' = title
           ∧ job_updatedAt r' = match jp_updatedAt updates with
                                | Some u => Some u
                                | None => job_updatedAt r
                                end.
Proof.
  intros Hf Hin Hd Hr Ht Hs Hgen Hne. unfold updateJob. cbv zeta.
  rewrite Ht, Hs. cbn [truthy_field from_option Datatypes.id negb andb].
  assert (truthy_str title = true) as ->.
  { apply generateSlug_title_truthy. by rewrite Hgen. }
  cbn [andb truthy_field from_option Datatypes.id]. rewrite Hgen, (truthy_str_true _ Hne).
  rewrite !bind_run. unfold gets at 1. cbn [table_of t_view T_jobs Nat.add probe_slug_except].
  rewrite !bind_run, (isSlugUnique_own id r w) by done.
  unfold mret at 1 2, M_ret at 1 2. rewrite bind_run, tbl_update_quiet by done.
  rewrite tbl_get_quiet by (by rewrite fuse_was_updated).
  set (mods := with_patch_slug (Some (job_slug r)) updates).
  assert (job_slug (patch_job mods r) = job_slug r
          ∧ job_title (patch_job mods r) = title
          ∧ job_updatedAt (patch_job mods r)
            = match jp_updatedAt updates with
              | Some u => Some u
              | None => job_updatedAt r
              end) as (Hp1 & Hp2 & Hp3).
  { cbn. rewrite Ht. split; [done|]. split; [done|]. by destruct (jp_updatedAt updates). }
  unfold was_updated. cbn [t_view T_jobs]. rewrite Hr.
  change (t_patch T_jobs mods r) with (patch_job mods r).
  case_decide as Hsame.
  - rewrite Hr. exists r, w. rewrite Hsame in Hp1, Hp2, Hp3. done.
  - cbn. rewrite lookup_insert_eq. eexists _, _. split; [reflexivity|].
    split; [apply lookup_insert_eq|]. done.
Qed.

(** Job 1, titled "Backend Engineer", is renamed to "BACKEND ENGINEER":
    the slug and [updatedAt] stay. *)
Lemma updateJob_keeps_own_slug_witness :
  let w := world_of one_job_store in
  let updates := mkJobPatch (Some "BACKEND ENGINEER") None None None None in
  ∃ r r' w',
    rows (jobs (db w)) !! KNum 1 = Some r
    ∧ job_title r = "Backend Engineer" ∧ job_slug r = "backend-engineer"
    ∧ job_updatedAt r = Some 10
    ∧ updateJob (KNum 1) updates w = Ok (Some r') w'
    ∧ rows (jobs (db w')) !! KNum 1 = Some r'
    ∧ job_slug r' = "backend-engineer"
    ∧ job_title r' = "BACKEND ENGINEER"
    ∧ job_updatedAt r' = Some 10.
Proof.
  intros w updates.
  assert (ids_inbound (jobs (db w))) as Hin.
  { apply (bool_decide_unpack _). by vm_compute. }
  assert (slugs_distinct (jobs (db w))) as Hd.
  { intros k1 k2 j1 j2 H1 H2 _ _. cbn in H1, H2.
    apply lookup_singleton_Some in H1 as [<- _], H2 as [<- _]. reflexivity. }
  destruct (updateJob_keeps_own_slug (KNum 1) "BACKEND ENGINEER" updates _ w
              eq_refl Hin Hd eq_refl eq_refl eq_refl eq_refl ltac:(discriminate))
    as (r' & w' & Hrun & Hrow & Hs & Ht & Hu).
  eexists _, r', w'. split; [reflexivity|]. split; [reflexivity|].
  split; [reflexivity|]. split; [reflexivity|]. split; [exact Hrun|].
  split; [exact Hrow|]. split; [exact Hs|]. split; [exact Ht|exact Hu].
Defined.
(** ** Deleting a job, deleting an assessment *)

(** X14: a [deleteJob] that returns removed the job, exactly the
    candidates and the assessments of the job, and nothing else: the
    timeline events, notes, assessment responses and job applications stay,
    those of the removed candidates included. *)
Theorem deleteJob_effect (id : key) (w w' : World) :
  deleteJob id w = Ok () w' →
  rows (jobs (db w')) = delete id (rows (jobs (db w)))
  ∧ (∀ k c, rows (candidates (db w')) !! k = Some c
            ↔ rows (candidates (db w)) !! k = Some c ∧ cand_jobId c ≠ Some id)
  ∧ (∀ k a, rows (assessments (db w')) !! k = Some a
            ↔ rows (assessments (db w)) !! k = Some a ∧ asm_jobId a ≠ Some id)
  ∧ timelineEvents (db w') = timelineEvents (db w)
  ∧ notes (db w') = notes (db w)
  ∧ assessmentResponses (db w') = assessmentResponses (db w)
  ∧ jobApplications (db w') = jobApplications (db w).
Proof.
  intros H. unfold deleteJob in H.
  apply bind_Ok_inv in H as ([] & w1 & H1 & H).
  apply bind_Ok_inv in H as ([] & w2 & H2 & H3).
  apply (step_Ok _ _ _ _ _ (step_tbl_delete T_jobs id)) in H1.
  apply (step_Ok _ _ _ _ _ (step_tbl_where_delete T_candidates _ _)) in H2 as [_ H2].
  apply (step_Ok _ _ _ _ _ (step_tbl_where_delete T_assessments _ _)) in H3 as [_ H3].
  rewrite H3, H2, H1. cbn. split; [done|]. split; [|split; [|done]].
  - intros k c. rewrite map_lookup_filter_Some. cbn.
    rewrite bool_decide_eq_false. done.
  - intros k a. rewrite map_lookup_filter_Some. cbn.
    rewrite bool_decide_eq_false. done.
Qed.

Lemma deleteJob_effect_witness :
  let w := world_of one_job_store in
  let w' := final (deleteJob (KNum 1) w) in
  deleteJob (KNum 1) w = Ok () w'
  ∧ rows (jobs (db w')) = delete (KNum 1) (rows (jobs (db w)))
  ∧ jobApplications (db w') = jobApplications (db w).
Proof.
  intros w w'. assert (deleteJob (KNum 1) w = Ok () w') as H by reflexivity.
  split; [exact H|].
  destruct (deleteJob_effect (KNum 1) w w' H) as (Hj & _ & _ & _ & _ & _ & Ha).
  split; [exact Hj|exact Ha].
Defined.

(** X15: a [deleteAssessment] that returns removed the assessment and
    exactly the responses to it, and nothing else. *)
Theorem deleteAssessment_effect (id : key) (w w' : World) :
  deleteAssessment id w = Ok () w' →
  rows (assessments (db w')) = delete id (rows (assessments (db w)))
  ∧ (∀ k r, rows (assessmentResponses (db w')) !! k = Some r
            ↔ rows (assessmentResponses (db w)) !! k = Some r
              ∧ resp_assessmentId r ≠ Some id)
  ∧ jobs (db w') = jobs (db w)
  ∧ candidates (db w') = candidates (db w)
  ∧ timelineEvents (db w') = timelineEvents (db w)
  ∧ notes (db w') = notes (db w)
  ∧ jobApplications (db w') = jobApplications (db w).
Proof.
  intros H. unfold deleteAssessment in H.
  apply bind_Ok_inv in H as ([] & w1 & H1 & H2).
  apply (step_Ok _ _ _ _ _ (step_tbl_delete T_assessments id)) in H1.
  apply (step_Ok _ _ _ _ _ (step_tbl_where_delete T_assessmentResponses _ _)) in H2 as [_ H2].
  rewrite H2, H1. cbn. split; [done|]. split; [|done].
  intros k r. rewrite map_lookup_filter_Some. cbn.
  rewrite bool_decide_eq_false. done.
Qed.

Lemma deleteAssessment_effect_witness :
  let w := world_of one_candidate_store in
  let w' := final (deleteAssessment (KNum 3) w) in
  deleteAssessment (KNum 3) w = Ok () w'
  ∧ rows (assessmentResponses (db w')) !! KNum 1 = None
  ∧ timelineEvents (db w') = timelineEvents (db w).
Proof.
  intros w w'. assert (deleteAssessment (KNum 3) w = Ok () w') as H by reflexivity.
  split; [exact H|].
  destruct (deleteAssessment_effect (KNum 3) w w' H) as (_ & _ & _ & _ & He & _).
  split; [reflexivity|exact He].
Defined.

(** X16: [getAssessmentResponse] never returns.  It queries the index
    [[candidateId+assessmentId]], which the schema does not declare for
    [assessmentResponses]; the query is rejected, and the database is as it
    was. *)
Theorem getAssessmentResponse_always_throws (candidateId assessmentId : key) (w : World) :
  ∃ e w',
    getAssessmentResponse candidateId assessmentId w = Fail e w'
    ∧ db w' = db w
    ∧ (fuse w = None →
       e = SchemaError "assessmentResponses" "[candidateId+assessmentId]" ∧ w' = w).
Proof.
  unfold getAssessmentResponse, tbl_where_first. rewrite bind_run.
  destruct (tick w) as [[] w1|e w1] eqn:E.
  - exists (SchemaError "assessmentResponses" "[candidateId+assessmentId]"), w1.
    split; [reflexivity|]. split; [by apply tick_Ok in E|].
    intros Hf. rewrite tick_quiet in E by done. by injection E as <-.
  - exists e, w1. split; [reflexivity|]. apply tick_Fail in E as E'. split; [tauto|].
    intros Hf. rewrite tick_quiet in E by done. discriminate.
Qed.
(** ** Notes *)

(** [createNote] for a note without an id, when no request is rejected. *)
Lemma createNote_quiet (noteData : Note) (w : World) :
  fuse w = None → note_id noteData = None →
  let kn := KNum (fresh_num (notes (db w))) in
  let ke := KNum (fresh_num (timelineEvents (db w))) in
  createNote noteData w
  = Ok (t_with_id T_notes kn noteData)
       (inserted T_timelineEvents ke
          (mkEvent None (note_candidateId noteData) "note_added" "Note Added"
                   "A new note was added to the candidate" [("noteId", MKey kn)] None)
          (inserted T_notes kn noteData w)).
Proof.
  intros Hf Hid kn ke. unfold createNote, createNote_factory.
  rewrite bind_run, tbl_add_quiet by done. unfold added.
  change (t_id T_notes noteData) with (note_id noteData). rewrite Hid.
  cbn [t_view T_notes]. fold kn.
  rewrite bind_run, createTimelineEvent_quiet by done. reflexivity.
Qed.

(** X17: [createNote] for a note without an id stores the note under a
    new key with both stamps of the creating hook, and appends one
    [note_added] event that carries the key as [noteId] and the
    [candidateId] of the note. *)
Theorem createNote_effect (noteData : Note) (w : World) :
  fuse w = None → note_id noteData = None →
  let kn := KNum (fresh_num (notes (db w))) in
  let ke := KNum (fresh_num (timelineEvents (db w))) in
  ∃ note w',
    createNote noteData w = Ok note w'
    ∧ note_id note = Some kn
    ∧ note_candidateId note = note_candidateId noteData
    ∧ note_content note = note_content noteData
    ∧ rows (notes (db w)) !! kn = None
    ∧ rows (notes (db w'))
      = <[kn := mkNote (Some kn) (note_candidateId noteData) (note_content noteData)
                       (Some (clock w (reads w))) (Some (clock w (S (reads w))))]>
          (rows (notes (db w)))
    ∧ rows (timelineEvents (db w)) !! ke = None
    ∧ rows (timelineEvents (db w'))
      = <[ke := mkEvent (Some ke) (note_candidateId noteData) "note_added" "Note Added"
                        "A new note was added to the candidate" [("noteId", MKey kn)] None]>
          (rows (timelineEvents (db w))).
Proof.
  intros Hf Hid kn ke. eexists _, _. rewrite createNote_quiet by done.
  split; [reflexivity|]. do 3 (split; [reflexivity|]).
  split; [apply fresh_num_free|]. split; [reflexivity|].
  split; [apply fresh_num_free|reflexivity].
Qed.

Lemma createNote_effect_witness :
  let w := world_of one_candidate_store in
  let noteData := mkNote None (Some (KNum 1)) "second call" None None in
  fuse w = None ∧ note_id noteData = None
  ∧ ∃ note w', createNote noteData w = Ok note w'
          ∧ note_id note = Some (KNum 2)
          ∧ rows (notes (db w')) !! KNum 2
            = Some (mkNote (Some (KNum 2)) (Some (KNum 1)) "second call" (Some 100) (Some 101)).
Proof.
  intros w noteData. split; [reflexivity|]. split; [reflexivity|].
  destruct (createNote_effect noteData w eq_refl eq_refl)
    as (note & w' & Hrun & Hk & _ & _ & _ & Hn & _).
  exists note, w'. split; [exact Hrun|]. split; [exact Hk|]. rewrite Hn. apply lookup_insert_eq.
Defined.

(** X18: deleting the note that [createNote] just stored brings the rows
    of [notes] back to what they were, but the [note_added] event stays on
    the timeline and refers to a note that is gone. *)
Theorem createNote_then_deleteNote (noteData : Note) (w : World) :
  fuse w = None → note_id noteData = None →
  ∃ note k w1 w2,
    createNote noteData w = Ok note w1
    ∧ note_id note = Some k
    ∧ deleteNote k w1 = Ok () w2
    ∧ rows (notes (db w2)) = rows (notes (db w))
    ∧ ∃ ke e, rows (timelineEvents (db w2)) !! ke = Some e
              ∧ rows (timelineEvents (db w)) !! ke = None
              ∧ ev_type e = "note_added"
              ∧ ev_metadata e = [("noteId", MKey k)].
Proof.
  intros Hf Hid.
  eexists _, (KNum (fresh_num (notes (db w)))), _, _.
  split; [by apply createNote_quiet|]. split; [reflexivity|].
  unfold deleteNote. rewrite tbl_delete_quiet by done.
  split; [reflexivity|]. split.
  - cbn. apply delete_insert_id, fresh_num_free.
  - eexists (KNum (fresh_num (timelineEvents (db w)))), _.
    split; [cbn; apply lookup_insert_eq|]. split; [apply fresh_num_free|].
    split; reflexivity.
Qed.

Lemma createNote_then_deleteNote_witness :
  let w := world_of one_candidate_store in
  let noteData := mkNote None (Some (KNum 1)) "second call" None None in
  fuse w = None ∧ note_id noteData = None
  ∧ ∃ note k w1 w2,
      createNote noteData w = Ok note w1
      ∧ note_id note = Some k
      ∧ deleteNote k w1 = Ok () w2
      ∧ rows (notes (db w2)) = rows (notes (db w)).
Proof.
  intros w noteData. split; [reflexivity|]. split; [reflexivity|].
  destruct (createNote_then_deleteNote noteData w eq_refl eq_refl)
    as (note & k & w1 & w2 & H1 & H2 & H3 & H4 & _).
  exists note, k, w1, w2. auto.
Defined.
(** ** The status of a job application *)

(** X19: [updateJobApplicationStatus] on an id that is not stored throws
    'Application not found' and writes nothing. *)
Theorem updateJobApplicationStatus_missing
    (applicationId : key) (newStatus notes : string) (w : World) :
  fuse w = None → rows (jobApplications (db w)) !! applicationId = None →
  updateJobApplicationStatus applicationId newStatus notes w = Fail ApplicationNotFound w.
Proof.
  intros Hf Hid. unfold updateJobApplicationStatus.
  rewrite bind_run, tbl_get_quiet by done. cbn [t_view T_jobApplications]. by rewrite Hid.
Qed.

Lemma updateJobApplicationStatus_missing_witness :
  let w := world_of one_application_store in
  fuse w = None ∧ rows (jobApplications (db w)) !! KNum 6 = None
  ∧ updateJobApplicationStatus (KNum 6) "screen" "" w = Fail ApplicationNotFound w.
Proof.
  intros w. split; [reflexivity|]. split; [reflexivity|].
  exact (updateJobApplicationStatus_missing (KNum 6) "screen" "" w eq_refl eq_refl).
Defined.

(** X20: [updateJobApplicationStatus] on a stored application rewrites
    [status], [updatedAt] and, when [notes] is not empty, [notes]; with
    empty [notes] the stored notes stay.  Candidate, job, job title and
    [appliedAt] are as they were.  One [status_change] event with the old
    and the new status is appended. *)
Theorem updateJobApplicationStatus_effect
    (applicationId : key) (newStatus notes : string) (old : JobApplication) (w : World) :
  fuse w = None → rows (jobApplications (db w)) !! applicationId = Some old →
  let after :=
    mkApplication (app_id old) (app_candidateId old) (app_jobId old) (app_jobTitle old)
                  newStatus (if truthy_str notes then notes else app_notes old)
                  (app_appliedAt old) (Some (clock w (reads w))) in
  let ke := KNum (fresh_num (timelineEvents (db w))) in
  ∃ w',
    updateJobApplicationStatus applicationId newStatus notes w = Ok (Some after) w'
    ∧ rows (jobApplications (db w')) = <[applicationId := after]> (rows (jobApplications (db w)))
    ∧ rows (timelineEvents (db w)) !! ke = None
    ∧ rows (timelineEvents (db w'))
      = <[ke := mkEvent (Some ke) (app_candidateId old) "status_change"
                        ("Status changed to " +:+ newStatus)
                        ("Application status changed from " +:+ app_status old
                           +:+ " to " +:+ newStatus)
                        [("jobId", meta_key (app_jobId old));
                         ("applicationId", MKey applicationId);
                         ("oldStatus", MStr (app_status old));
                         ("newStatus", MStr newStatus);
                         ("notes", MStr notes)] None]>
          (rows (timelineEvents (db w))).
Proof.
  intros Hf Hold after ke. unfold updateJobApplicationStatus.
  rewrite bind_run, tbl_get_quiet by done. cbn [t_view T_jobApplications]. rewrite Hold.
  rewrite !bind_run. unfold new_Date at 1. unfold updateJobApplication.
  rewrite !bind_run, tbl_update_quiet by done. unfold was_updated.
  cbn [t_view T_jobApplications db]. rewrite Hold.
  match goal with |- context [decide (?p = old)] =>
    assert (p = after) as Hafter by reflexivity; rewrite !Hafter end.
  case_decide as Hsame.
  - rewrite tbl_get_quiet by done.
    rewrite bind_run, createTimelineEvent_quiet by done. rewrite tbl_get_quiet by done.
    unfold inserted. cbn. rewrite Hold, <- Hsame.
    eexists. split; [reflexivity|]. split; [|split; [apply fresh_num_free|reflexivity]].
    symmetry. apply insert_id. by rewrite Hsame.
  - rewrite tbl_get_quiet by done.
    rewrite bind_run, createTimelineEvent_quiet by done. rewrite tbl_get_quiet by done.
    unfold inserted. cbn. rewrite lookup_insert_eq.
    eexists. split; [reflexivity|]. split; [reflexivity|].
    split; [apply fresh_num_free|reflexivity].
Qed.

Lemma updateJobApplicationStatus_effect_witness :
  let w := world_of one_application_store in
  ∃ old after w',
    fuse w = None ∧ rows (jobApplications (db w)) !! KNum 5 = Some old
    ∧ updateJobApplicationStatus (KNum 5) "screen" "" w = Ok (Some after) w'
    ∧ app_status after = "screen" ∧ app_notes after = app_notes old.
Proof.
  intros w.
  destruct (updateJobApplicationStatus_effect (KNum 5) "screen" "" _ w eq_refl eq_refl)
    as (w' & Hrun & _).
  eexists _, _, w'. split; [reflexivity|]. split; [reflexivity|]. split; [exact Hrun|].
  split; reflexivity.
Defined.
(** ** Clearing the store, counting, seeding *)

Lemma tbl_clear_Ok {R P} (T : TableSpec R P) (w w' : World) :
  tbl_clear T w = Ok () w' →
  db w' = t_store T (mkTable ∅ (next (t_view T (db w)))) (db w).
Proof.
  unfold tbl_clear. intros H. apply bind_Ok_inv in H as ([] & w1 & Ht & H).
  apply tick_Ok in Ht. revert H. mrun. intros [= <-]. cbn. unfold table_of. by rewrite Ht.
Qed.

Lemma tbl_clear_quiet {R P} (T : TableSpec R P) (w : World) :
  fuse w = None →
  tbl_clear T w = Ok () (set_db (t_store T (mkTable ∅ (next (t_view T (db w)))) (db w)) w).
Proof. intros Hf. unfold tbl_clear. by rewrite bind_run, tick_quiet. Qed.

Lemma clearAllData_quiet (w : World) :
  fuse w = None → clearAllData w = Ok () (set_db (cleared (db w)) w).
Proof.
  intros Hf. unfold clearAllData, transaction.
  rewrite bind_run, tbl_clear_quiet by done.
  repeat (rewrite bind_run, tbl_clear_quiet by done).
  rewrite tbl_clear_quiet by done. reflexivity.
Qed.

(** X21: [clearAllData] is all or nothing.  When it throws, the database
    is as it was; when it returns, [jobs], [candidates], [assessments],
    [timelineEvents], [notes] and [assessmentResponses] are empty, their
    key generators are where they were, and [jobApplications] is
    untouched.  It returns when no request is rejected. *)
Theorem clearAllData_all_or_nothing (w : World) :
  (∀ e w', clearAllData w = Fail e w' → db w' = db w)
  ∧ (∀ w', clearAllData w = Ok () w' → db w' = cleared (db w))
  ∧ (fuse w = None → ∃ w', clearAllData w = Ok () w').
Proof.
  split; [|split].
  - intros e w'. unfold clearAllData, transaction.
    match goal with
    | |- context [match ?m with Ok _ _ => _ | Fail _ _ => _ end] =>
        destruct m as [a w1|e1 w1]
    end; [done|]. by intros [= _ <-].
  - intros w'. unfold clearAllData, transaction.
    match goal with
    | |- context [match ?m with Ok _ _ => _ | Fail _ _ => _ end] =>
        destruct m as [a w1|e1 w1] eqn:E
    end; [|done]. intros [= _ <-]. destruct a.
    apply bind_Ok_inv in E as ([] & w2 & H1 & E). apply tbl_clear_Ok in H1.
    apply bind_Ok_inv in E as ([] & w3 & H2 & E). apply tbl_clear_Ok in H2.
    apply bind_Ok_inv in E as ([] & w4 & H3 & E). apply tbl_clear_Ok in H3.
    apply bind_Ok_inv in E as ([] & w5 & H4 & E). apply tbl_clear_Ok in H4.
    apply bind_Ok_inv in E as ([] & w6 & H5 & H6). apply tbl_clear_Ok in H5.
    apply tbl_clear_Ok in H6.
    rewrite H6, H5, H4, H3, H2, H1. reflexivity.
  - intros Hf. rewrite clearAllData_quiet by done. eauto.
Qed.

Lemma tbl_count_quiet {R P} (T : TableSpec R P) (w : World) :
  fuse w = None → tbl_count T w = Ok (Z.of_nat (size (rows (t_view T (db w))))) w.
Proof. intros Hf. unfold tbl_count. by rewrite bind_run, tick_quiet. Qed.

Lemma getStats_quiet (w : World) :
  fuse w = None →
  getStats w = Ok (mkStats (Z.of_nat (size (rows (jobs (db w)))))
                          (Z.of_nat (size (rows (candidates (db w)))))
                          (Z.of_nat (size (rows (assessments (db w)))))) w.
Proof.
  intros Hf. unfold getStats.
  rewrite bind_run, tbl_count_quiet by done. cbv beta iota.
  rewrite bind_run, tbl_count_quiet by done. cbv beta iota.
  rewrite bind_run, tbl_count_quiet by done. reflexivity.
Qed.

(** X22: [getStats] right after [clearAllData] reports zero jobs,
    candidates and assessments, while the job applications are still
    stored. *)
Theorem clearAllData_then_getStats (w : World) :
  fuse w = None →
  ∃ w', (clearAllData;; getStats) w = Ok (mkStats 0 0 0) w'
        ∧ jobApplications (db w') = jobApplications (db w).
Proof.
  intros Hf. eexists.
  rewrite bind_run, clearAllData_quiet, getStats_quiet by done.
  split; reflexivity.
Qed.

Lemma clearAllData_then_getStats_witness :
  fuse (world_of one_candidate_store) = None
  ∧ ∃ w', (clearAllData;; getStats) (world_of one_candidate_store) = Ok (mkStats 0 0 0) w'
          ∧ size (rows (jobApplications (db w'))) = 1%nat.
Proof.
  split; [reflexivity|].
  destruct (clearAllData_then_getStats (world_of one_candidate_store) eq_refl)
    as (w' & Hrun & Ha).
  exists w'. split; [exact Hrun|]. rewrite Ha. reflexivity.
Defined.
Lemma final_try_catch (m : M unit) (w : World) : final (try_catch m w) = final (m w).
Proof. unfold try_catch. by destruct (m w). Qed.

Lemma size_jobs_zero (d : DB) : (Z.of_nat (size (rows (jobs d))) =? 0) = true ↔ rows (jobs d) = ∅.
Proof. rewrite Z.eqb_eq, <- map_size_empty_iff. lia. Qed.

(** With a job in the store and no rejected request, [initializeData]
    writes nothing. *)
Lemma initializeData_skips
    (seedData : SeedData) (seedApplications : list JobApplication) (w : World) :
  fuse w = None → rows (jobs (db w)) ≠ ∅ →
  initializeData seedData seedApplications w = Ok () w.
Proof.
  intros Hf Hne. unfold initializeData, try_catch.
  rewrite bind_run, getStats_quiet by done. cbn [st_jobs].
  destruct (_ =? 0) eqn:E; [|done]. by apply size_jobs_zero in E.
Qed.

(** X23: [initializeData] never throws, and it seeds only an empty store:
    when a job is stored and no request is rejected, it writes nothing. *)
Theorem initializeData_seeds_empty_store_only
    (seedData : SeedData) (seedApplications : list JobApplication) (w : World) :
  (∃ w', initializeData seedData seedApplications w = Ok () w')
  ∧ (fuse w = None → rows (jobs (db w)) ≠ ∅ →
     initializeData seedData seedApplications w = Ok () w).
Proof.
  split; [|apply initializeData_skips].
  unfold initializeData, try_catch.
  match goal with
  | |- context [match ?m with Ok _ _ => _ | Fail _ _ => _ end] => destruct m
  end; eauto.
Qed.

(** One [createJob] leaves the [jobs] table non-empty when no request is
    rejected. *)
Lemma createJob_quiet_nonempty (jobData : Job) (w : World) :
  fuse w = None → rows (jobs (db (final (createJob jobData w)))) ≠ ∅.
Proof.
  intros Hf. unfold createJob. cbv zeta.
  set (slug0 := if negb (truthy_str (job_slug jobData)) && truthy_str (job_title jobData)
                then generateSlug (job_title jobData) else job_slug jobData).
  assert (∃ s, (if truthy_str slug0
                then t ← gets (table_of T_jobs);
                     probe_slug (2 + size (rows t)) slug0 1 slug0
                else mret slug0) w = Ok s w) as [s Hs].
  { destruct (truthy_str slug0); [|by exists slug0].
    destruct (probe_slug_budget_suffices slug0 w Hf) as [s Hs]. exists s.
    rewrite bind_run. unfold gets at 1. cbn [table_of t_view T_jobs]. exact Hs. }
  rewrite final_bind, Hs, final_bind_ret.
  set (job := createJob_factory (with_slug s jobData)).
  unfold put_or_add. destruct (t_id T_jobs job) as [k|] eqn:Ek; [destruct (key_truthy k)|].
  - rewrite tbl_put_quiet by done. unfold was_put. rewrite Ek.
    destruct (rows _ !! k); cbn; apply insert_non_empty.
  - rewrite tbl_add_quiet by done. unfold added. rewrite Ek.
    destruct (rows _ !! k) eqn:E; cbn; [|apply insert_non_empty].
    intros Hempty. cbn in E. by rewrite Hempty in E.
  - rewrite tbl_add_quiet by done. unfold added. rewrite Ek. cbn. apply insert_non_empty.
Qed.

Lemma leads_bind {A B} (I : DB → Prop) (m : M A) (f : A → M B) (w : World) :
  I (db (final (m w))) → (∀ a, keeps I (f a)) → I (db (final ((m ≫= f) w))).
Proof.
  intros Hm Hf. rewrite final_bind. destruct (m w) as [a w1|e w1]; [by apply Hf|done].
Qed.

Ltac side_nonempty :=
  intros; first [ assumption | cbn; apply insert_non_empty ].

(** X24: seeding switches itself off.  After [initializeData] ran with at
    least one seed job and no rejected request, the [jobs] table is not
    empty, whatever else happened during seeding; so the next run finds a
    job and seeds nothing. *)
Theorem initializeData_leaves_jobs
    (seedData : SeedData) (seedApplications : list JobApplication) (w : World) :
  fuse w = None → seed_jobs seedData ≠ [] →
  rows (jobs (db (final (initializeData seedData seedApplications w)))) ≠ ∅.
Proof.
  intros Hf Hseed.
  destruct (decide (rows (jobs (db w)) = ∅)) as [Hempty|Hne].
  2:{ by rewrite (initializeData_skips seedData seedApplications w Hf Hne). }
  unfold initializeData. rewrite final_try_catch, final_bind, getStats_quiet by done.
  cbn [st_jobs]. rewrite (proj2 (size_jobs_zero (db w)) Hempty).
  destruct (seed_jobs seedData) as [|job rest]; [done|]. cbn [for_each].
  apply (leads_bind (λ d, rows (jobs d) ≠ ∅)).
  - apply (leads_bind (λ d, rows (jobs d) ≠ ∅)).
    + by apply createJob_quiet_nonempty.
    + intros _. repeat keeps_step side_nonempty.
  - intros _. repeat keeps_step side_nonempty.
Qed.

Lemma initializeData_leaves_jobs_witness :
  let seedData := mkSeedData [backend_job] [ada] [] in
  let w := world_of empty_db in
  fuse w = None ∧ seed_jobs seedData ≠ []
  ∧ rows (jobs (db (final (initializeData seedData [application_7_1] w)))) ≠ ∅.
Proof.
  intros seedData w. split; [reflexivity|]. split; [discriminate|].
  apply (initializeData_leaves_jobs seedData [application_7_1] w); [reflexivity|discriminate].
Defined.
(** ** The applications of a candidate, by status *)






(** ** Pages of jobs *)

Lemma pages_join {A} (l : list A) (ps n : nat) :
  mjoin ((λ i, take ps (drop (i * ps) l)) <$> seq 0 n) = take (n * ps) l.
Proof.
  induction n as [|n IH]; [done|].
  rewrite seq_S, fmap_app, join_app, IH. cbn. rewrite app_nil_r, take_take_drop.
  f_equal. lia.
Qed.

Lemma has_more_iff (page pageSize total : Z) :
  1 ≤ pageSize →
  ((page - 1) * pageSize + pageSize <? total) = bool_decide (page < ceil_div total pageSize).
Proof.
  intros Hps. pose proof (ceil_div_spec total pageSize ltac:(lia)) as [H1 H2].
  destruct (Z.ltb_spec ((page - 1) * pageSize + pageSize) total) as [H|H].
  - symmetry. apply bool_decide_eq_true_2. nia.
  - symmetry. apply bool_decide_eq_false_2. nia.
Qed.

(** X26: the pages of [getJobs] cover the list.  For a page size of at
    least one, page [p >= 1] holds the jobs from position [(p-1) * pageSize]
    on, at most [pageSize] of them; [hasMore] is true exactly on the pages
    before the last; and pages [1 .. totalPages] one after the other are
    the list that [getJobs] returns without pagination. *)
Theorem getJobs_pages_cover (filters : JobFilters) (pageSize : Z) (w : World) :
  fuse w = None → 1 ≤ pageSize →
  ∃ all totalPages,
    getJobs (unpaged filters) w = Ok (JobList all) w
    ∧ totalPages = ceil_div (Z.of_nat (length all)) pageSize
    ∧ (∀ page, 1 ≤ page →
         getJobs (on_page filters page pageSize) w
         = Ok (JobPage (take (Z.to_nat pageSize)
                             (drop (Z.to_nat ((page - 1) * pageSize)) all))
                       (mkPagination page pageSize (Z.of_nat (length all)) totalPages
                                     (bool_decide (page < totalPages)))) w)
    ∧ mjoin ((λ page, take (Z.to_nat pageSize)
                           (drop (Z.to_nat ((page - 1) * pageSize)) all))
               <$> page_numbers totalPages) = all.
Proof.
  intros Hf Hps.
  eexists (filter (λ j, job_matches filters j = true) (ordered_jobs (jobs (db w)))), _.
  split; [|split; [reflexivity|split]].
  - unfold getJobs. rewrite bind_run, jobs_orderBy_order_quiet by done. reflexivity.
  - intros page Hp. unfold getJobs.
    rewrite bind_run, jobs_orderBy_order_quiet by done. cbn [on_page f_page f_pageSize].
    assert (truthy_num page && truthy_num pageSize = true) as ->.
    { unfold truthy_num. apply andb_true_iff.
      split; apply negb_true_iff, Z.eqb_neq; lia. }
    unfold mret, M_ret. f_equal.
    change (job_matches (on_page filters page pageSize)) with (job_matches filters).
    rewrite js_slice_page by done. f_equal. f_equal. by apply has_more_iff.
  - set (all := filter _ _). unfold page_numbers.
    rewrite <- fmap_S_seq, <- !list_fmap_compose.
    rewrite (list_fmap_ext _ (λ i, take (Z.to_nat pageSize) (drop (i * Z.to_nat pageSize) all))).
    2:{ intros i x _. cbn. do 2 f_equal. lia. }
    rewrite pages_join. apply take_ge.
    pose proof (ceil_div_spec (Z.of_nat (length all)) pageSize ltac:(lia)) as [_ H]. nia.
Qed.

Lemma getJobs_pages_cover_witness :
  let w := world_of three_jobs_store in
  let filters := mkFilters "" [] "" None None in
  fuse w = None ∧ 1 ≤ 2
  ∧ ∃ all,
      getJobs filters w = Ok (JobList all) w
      ∧ mjoin [take 2 (drop 0 all); take 2 (drop 2 all)] = all.
Proof.
  intros w filters. split; [reflexivity|]. split; [lia|].
  destruct (getJobs_pages_cover filters 2 w eq_refl ltac:(lia))
    as (all & totalPages & Hall & Ht & _ & Hjoin).
  exists all. split; [exact Hall|].
  assert (length all = 3%nat) as Hlen.
  { assert (getJobs filters w = Ok (JobList all) w) as H by exact Hall.
    vm_compute in H. injection H as <-. reflexivity. }
  rewrite Hlen in Ht. vm_compute in Ht. subst totalPages.
  exact Hjoin.
Defined.
(** ** Candidates, newest first *)

Global Instance created_le_total : Total created_le.
Proof.
  intros [x [ka a]] [y [kb b]]. unfold created_le. cbn.
  destruct (Z.lt_trichotomy x y) as [?|[->|?]]; [auto| |auto].
  destruct (total key_le ka kb); auto.
Qed.

Global Instance created_le_trans : Transitive created_le.
Proof.
  intros [x [ka a]] [y [kb b]] [z [kc c]]. unfold created_le. cbn.
  intros [?|[-> Hab]] [?|[-> Hbc]]; auto; try (left; lia).
  right. split; [done|]. by transitivity kb.
Qed.

Lemma StronglySorted_fmap_impl {A B} (R : relation A) (R' : relation B) (f : A → B)
    (l : list A) :
  (∀ x y, x ∈ l → y ∈ l → R x y → R' (f x) (f y)) →
  StronglySorted R l → StronglySorted R' (f <$> l).
Proof.
  intros Hf Hs. induction Hs as [|x l Hs IH Hx]; [constructor|].
  cbn. constructor.
  - apply IH. intros a b Ha Hb. apply Hf; by right.
  - apply Forall_fmap, Forall_forall. intros y Hy. unfold compose.
    apply Hf; [apply elem_of_cons; by left|apply elem_of_cons; by right|].
    by apply (proj1 (Forall_forall _ _) Hx).
Qed.

Lemma StronglySorted_reverse {A} (R : relation A) (l : list A) :
  StronglySorted R l → StronglySorted (flip R) (reverse l).
Proof.
  induction 1 as [|x l Hs IH Hx]; [constructor|].
  rewrite reverse_cons. apply StronglySorted_app. split; [|split].
  - intros a b Ha ->%list_elem_of_singleton. unfold flip.
    rewrite elem_of_reverse in Ha. by apply (proj1 (Forall_forall _ _) Hx).
  - exact IH.
  - repeat constructor.
Qed.

Lemma created_entry_Some (kc : key * Candidate) (e : Z * (key * Candidate)) :
  created_entry kc = Some e → e.2 = kc ∧ cand_createdAt kc.2 = Some e.1.
Proof.
  unfold created_entry. destruct (cand_createdAt kc.2); [|done]. by intros [= <-].
Qed.

Lemma created_entries_candidates (l : list (key * Candidate)) :
  (λ e : Z * (key * Candidate), e.2.2) <$> omap created_entry l
  = filter (λ c, is_Some (cand_createdAt c)) (snd <$> l).
Proof.
  induction l as [|[k c] l IH]; [done|].
  rewrite fmap_cons, filter_cons. cbn [snd].
  change (omap created_entry ((k, c) :: l))
    with (match created_entry (k, c) with
          | Some y => y :: omap created_entry l
          | None => omap created_entry l
          end).
  unfold created_entry at 1. cbn [snd]. destruct (cand_createdAt c) eqn:E.
  - rewrite decide_True by done. rewrite fmap_cons. cbn [snd]. by rewrite IH.
  - rewrite decide_False by (by intros [? ?]). exact IH.
Qed.

(** X27: [getCandidates] lists the candidates that carry [createdAt] and
    pass the filters, each once, newest first.  A candidate without
    [createdAt] is not in the index that the query runs on and is never
    listed. *)
Theorem getCandidates_newest_first (filters : CandidateFilters) (w : World) :
  fuse w = None →
  ∃ l, getCandidates filters w = Ok l w
       ∧ StronglySorted newest_first l
       ∧ l ≡ₚ filter (listed_candidate filters)
                     (snd <$> map_to_list (rows (candidates (db w)))).
Proof.
  intros Hf. eexists. split; [|split].
  - unfold getCandidates. rewrite bind_run, tick_quiet by done. reflexivity.
  - cbn [table_of t_view T_candidates]. unfold candidates_by_createdAt.
    apply (StronglySorted_reverse (λ a b, newest_first b a)).
    eapply StronglySorted_sublist; [apply sublist_filter|].
    set (entries := omap created_entry (map_to_list (rows (candidates (db w))))).
    assert (∀ e, e ∈ merge_sort created_le entries → cand_createdAt e.2.2 = Some e.1) as He.
    { intros e. rewrite merge_sort_Permutation. unfold entries.
      intros (kc & _ & Hkc)%list_elem_of_omap.
      apply created_entry_Some in Hkc as [<- ?]. done. }
    apply (StronglySorted_fmap_impl created_le); [|apply StronglySorted_merge_sort; apply _].
    intros x y Hx Hy Hxy. unfold newest_first. rewrite (He x Hx), (He y Hy).
    destruct Hxy as [?|[? _]]; lia.
  - cbn [table_of t_view T_candidates]. unfold candidates_by_createdAt.
    rewrite reverse_Permutation, merge_sort_Permutation, created_entries_candidates.
    rewrite list_filter_filter. reflexivity.
Qed.

Lemma getCandidates_newest_first_witness :
  let w := world_of one_candidate_store in
  fuse w = None
  ∧ ∃ l, getCandidates (mkCandidateFilters "applied" None "ADA") w = Ok l w
         ∧ StronglySorted newest_first l
         ∧ length l = 1%nat.
Proof.
  intros w. split; [reflexivity|].
  destruct (getCandidates_newest_first (mkCandidateFilters "applied" None "ADA") w eq_refl)
    as (l & Hrun & Hs & _).
  exists l. split; [exact Hrun|]. split; [exact Hs|].
  assert (getCandidates (mkCandidateFilters "applied" None "ADA") w = Ok l w) as H
    by exact Hrun.
  vm_compute in H. injection H as <-. reflexivity.
Defined.
(** ** The first row of a query *)

Global Instance entry_le_total {R} : Total (entry_le (R := R)).
Proof. intros a b. unfold entry_le. apply total, _. Qed.

Global Instance entry_le_trans {R} : Transitive (entry_le (R := R)).
Proof. intros a b c. unfold entry_le. apply transitivity. Qed.

Lemma head_filter_Some {A} (P : A → Prop) `{∀ x, Decision (P x)} (l : list A) (x : A) :
  head (filter P l) = Some x →
  ∃ l1 l2, l = (l1 ++ x :: l2)%list ∧ P x ∧ Forall (λ y, ¬ P y) l1.
Proof.
  induction l as [|a l IH]; [done|]. rewrite filter_cons.
  destruct (decide (P a)) as [Ha|Ha].
  - intros [= ->]. by exists [], l.
  - intros (l1 & l2 & -> & Hx & Hl1)%IH. exists (a :: l1), l2. by repeat constructor.
Qed.

Lemma filter_fmap_list {A B} (f : A → B) (P : B → Prop) `{∀ x, Decision (P x)}
    (l : list A) :
  filter P (f <$> l) = f <$> filter (λ x, P (f x)) l.
Proof.
  induction l as [|a l IH]; [done|]. rewrite fmap_cons, !filter_cons.
  destruct (decide (P (f a))); [rewrite fmap_cons|]; by rewrite IH.
Qed.

Lemma head_fmap_list {A B} (f : A → B) (l : list A) : head (f <$> l) = f <$> head l.
Proof. by destruct l. Qed.

(** [first()] yields the matching row with the least primary key. *)
Lemma where_first_least {R} (t : Table R) (hit : R → bool) (r : R) :
  head (filter (λ r, hit r = true) (table_list t)) = Some r →
  ∃ k, rows t !! k = Some r ∧ hit r = true
       ∧ ∀ k' r', rows t !! k' = Some r' → hit r' = true → key_le k k'.
Proof.
  unfold table_list. rewrite filter_fmap_list.
  set (S := merge_sort entry_le (map_to_list (rows t))).
  rewrite head_fmap_list.
  match goal with
  | |- context [head ?l] => destruct (head l) as [[k r0]|] eqn:E
  end; [|done]. cbn. intros [= ->].
  apply head_filter_Some in E as (l1 & l2 & HS & Hr & Hl1). cbn in Hr.
  assert (StronglySorted entry_le S) as Hsorted
    by (apply StronglySorted_merge_sort; apply _).
  assert (∀ k' r', rows t !! k' = Some r' ↔ (k', r') ∈ S) as Hin.
  { intros k' r'. unfold S. by rewrite merge_sort_Permutation, elem_of_map_to_list. }
  exists k. split; [|split; [done|]].
  - apply Hin. rewrite HS. apply elem_of_app. right. apply elem_of_cons. by left.
  - intros k' r' Hk' Hhit. apply Hin in Hk'. rewrite HS in Hk', Hsorted.
    apply StronglySorted_app in Hsorted as (_ & _ & Hs2).
    apply elem_of_app in Hk' as [Hk'|Hk'].
    + by destruct (proj1 (Forall_forall _ _) Hl1 _ Hk').
    + apply elem_of_cons in Hk' as [[= -> ->]|Hk'].
      * destruct (total key_le k k); done.
      * inversion Hs2 as [|? ? _ Hall]; subst.
        exact (proj1 (Forall_forall _ _) Hall _ Hk').
Qed.

(** X28: [getAssessmentByJobId] returns [undefined] when no assessment of
    the job is stored, and otherwise the stored assessment of the job with
    the least primary key; nothing keeps the job from having several. *)
Theorem getAssessmentByJobId_least_key (jobId : key) (w : World) :
  fuse w = None →
  ∃ r, getAssessmentByJobId jobId w = Ok r w
       ∧ match r with
         | None =>
             ∀ k a, rows (assessments (db w)) !! k = Some a → asm_jobId a ≠ Some jobId
         | Some a =>
             ∃ k, rows (assessments (db w)) !! k = Some a
                  ∧ asm_jobId a = Some jobId
                  ∧ ∀ k' a', rows (assessments (db w)) !! k' = Some a' →
                             asm_jobId a' = Some jobId → key_le k k'
         end.
Proof.
  intros Hf. unfold getAssessmentByJobId. rewrite tbl_where_first_quiet by done.
  eexists. split; [reflexivity|]. cbn [t_view T_assessments].
  destruct (head _) as [a|] eqn:E.
  - apply where_first_least in E as (k & Hk & Hhit & Hleast).
    exists k. split; [done|]. split; [by apply bool_decide_eq_true in Hhit|].
    intros k' a' Hk' Ha'. apply (Hleast k' a' Hk'). by apply bool_decide_eq_true.
  - intros k a Hk Ha. pose proof (where_first_None _ _ E k a Hk) as Hhit.
    cbn in Hhit. by apply bool_decide_eq_false in Hhit.
Qed.

Lemma getAssessmentByJobId_least_key_witness :
  let w := world_of one_job_store in
  fuse w = None
  ∧ ∃ a, getAssessmentByJobId (KNum 1) w = Ok (Some a) w ∧ asm_jobId a = Some (KNum 1).
Proof.
  intros w. split; [reflexivity|].
  destruct (getAssessmentByJobId_least_key (KNum 1) w eq_refl) as (r & Hrun & Hr).
  assert (getAssessmentByJobId (KNum 1) w = Ok r w) as H by exact Hrun.
  vm_compute in H. injection H as <-.
  destruct Hr as (k & _ & Ha & _). eexists. split; [exact Hrun|exact Ha].
Defined.

(** ** A candidate without its first event *)

(** X29: [createCandidate] is not atomic.  When the store accepts the
    candidate and rejects the timeline event, the method throws, and the
    candidate stays stored without its 'Application Submitted' event. *)
Theorem createCandidate_not_atomic (candidateData : Candidate) (w : World) :
  fuse w = Some 1%nat → cand_id candidateData = None →
  let k := KNum (fresh_num (candidates (db w))) in
  ∃ w', createCandidate candidateData w = Fail StorageError w'
        ∧ rows (candidates (db w)) !! k = None
        ∧ is_Some (rows (candidates (db w')) !! k)
        ∧ timelineEvents (db w') = timelineEvents (db w).
Proof.
  intros Hf Hid k. unfold createCandidate, put_or_add.
  change (t_id T_candidates (createCandidate_factory candidateData))
    with (cand_id candidateData). rewrite Hid.
  rewrite bind_run, tbl_add_eq. unfold tick at 1. rewrite Hf.
  unfold added. change (t_id T_candidates (createCandidate_factory candidateData))
    with (cand_id candidateData). rewrite Hid.
  rewrite bind_run. unfold createTimelineEvent. rewrite bind_run, tbl_add_eq.
  unfold tick. cbn [fuse inserted set_db after_reads set_fuse].
  eexists. split; [reflexivity|]. split; [apply fresh_num_free|].
  split; [|reflexivity]. cbn. rewrite lookup_insert_eq. by eexists.
Qed.

Lemma createCandidate_not_atomic_witness :
  fuse (failing_at 1 empty_db) = Some 1%nat ∧ cand_id ada = None
  ∧ ∃ w', createCandidate ada (failing_at 1 empty_db) = Fail StorageError w'
          ∧ is_Some (rows (candidates (db w')) !! KNum 1)
          ∧ rows (timelineEvents (db w')) = ∅.
Proof.
  split; [reflexivity|]. split; [reflexivity|].
  destruct (createCandidate_not_atomic ada (failing_at 1 empty_db) eq_refl eq_refl)
    as (w' & Hrun & _ & Hc & Ht).
  exists w'. split; [exact Hrun|]. split; [exact Hc|]. by rewrite Ht.
Defined.

(** ** Searching ignores case *)

Lemma lower_ascii_idemp (c : ascii) : lower_ascii (lower_ascii c) = lower_ascii c.
Proof.
  unfold lower_ascii at 2 3.
  destruct ((65 <=? nat_of_ascii c)%nat && (nat_of_ascii c <=? 90)%nat) eqn:E; [|by unfold lower_ascii; rewrite E].
  char_codes E. unfold lower_ascii. rewrite nat_ascii_embedding by lia.
  destruct ((65 <=? nat_of_ascii c + 32)%nat && (nat_of_ascii c + 32 <=? 90)%nat) eqn:E'; [|done].
  char_codes E'. lia.
Qed.

Lemma toLowerCase_idemp (s : string) : toLowerCase (toLowerCase s) = toLowerCase s.
Proof. induction s as [|c s IH]; [done|]. cbn. by rewrite lower_ascii_idemp, IH. Qed.

Lemma truthy_toLowerCase (s : string) : truthy_str (toLowerCase s) = truthy_str s.
Proof. by destruct s. Qed.

(** X30: the search of [getJobs] ignores the case of the search term: a
    term and its lower-case form select the same jobs, in every world. *)
Theorem getJobs_search_ignores_case (term : string) (filters : JobFilters) (w : World) :
  getJobs (searching (toLowerCase term) filters) w = getJobs (searching term filters) w.
Proof.
  assert (∀ j, job_matches (searching (toLowerCase term) filters) j
               = job_matches (searching term filters) j) as Hm.
  { intros j. unfold job_matches. cbn [searching f_status f_tags f_search].
    by rewrite truthy_toLowerCase, toLowerCase_idemp. }
  unfold getJobs. rewrite !bind_run. destruct (jobs_orderBy_order w) as [all w1|e w1]; [|done].
  cbn [searching f_page f_pageSize].
  rewrite (list_filter_iff _ (λ j, job_matches (searching term filters) j = true));
    [reflexivity|].
  intros j. by rewrite Hm.
Qed.
